(** * The partition engine of lib/storage/partition.go

    A shallow embedding of the partition of a time-series storage: the
    reference-counted part registry, the raw-row buffer, the merge planner,
    the merge executor and the transaction log, followed by the properties
    the specification states about them.

    Conventions.
    - Go's [uint64] and [int] values are [Z]; wrap-around is written out
      with [wrap64].
    - A [*partWrapper] is a location [ptr] into a heap [gmap ptr partWrapper]:
      the part lists, the merge sets and the search snapshots alias the same
      handles.
    - [float64] is IEEE 754 binary64 as specified by [SpecFloat]
      ([prec = 53], [emax = 1024]).
    - A function that may [logger.Panicf] returns an [outcome]; a Go [error]
      is an [option error] ([None] is [nil]).
    - Collaborators that live outside partition.go (the operating system,
      the block-stream reader and writer, the in-memory part) are the fields
      of the class [Env]; every theorem holds for every environment. *)

From Stdlib Require Import ZArith List String Ascii Bool Lia Permutation Sorted.
From Stdlib Require Import Floats.SpecFloat.
From stdpp Require Import base gmap strings.

Import ListNotations.
Open Scope string_scope.
Open Scope list_scope.
Open Scope Z_scope.

(* ================================================================= *)
(** * Part I: the model *)
(* ================================================================= *)

(** ** Machine integers *)

Definition two64 : Z := 2 ^ 64.
Definition two63 : Z := 2 ^ 63.

(** Arithmetic on [uint64] is modulo [2^64]. *)
Definition wrap64 (z : Z) : Z := z mod two64.

(** [int64(n)] for a [uint64] value [n]. *)
Definition int64_of_uint64 (n : Z) : Z := if n <? two63 then n else n - two64.

(** [^uint64(0)], the all-ones word that [atomic.AddUint64] adds to subtract one. *)
Definition not_zero64 : Z := two64 - 1.

(** [atomic.AddUint64(&x, delta)] returns the new value. *)
Definition atomic_AddUint64 (x delta : Z) : Z := wrap64 (x + delta).

(** [bits.LeadingZeros64]. *)
Definition bits_Len64 (x : Z) : Z := if x <=? 0 then 0 else Z.log2 x + 1.
Definition bits_LeadingZeros64 (x : Z) : Z := 64 - bits_Len64 x.

(** ** Errors and panics *)

Inductive error : Type :=
| errNothingToMerge
| errForciblyStopped
| errOther (msg : string).

Inductive outcome (A : Type) : Type :=
| Ret (a : A)
| Panic (msg : string).
Arguments Ret {A} a.
Arguments Panic {A} msg.

Definition obind {A B : Type} (m : outcome A) (k : A -> outcome B) : outcome B :=
  match m with
  | Ret a => k a
  | Panic msg => Panic msg
  end.

Notation "x <-- m ;; k" := (obind m (fun x => k))
  (at level 100, m at next level, right associativity).

Definition is_error (e : option error) : bool :=
  match e with Some _ => true | None => false end.

(** ** Constants of partition.go *)

Definition maxRowsPerSmallPart : Z := 300000000.
Definition maxRowsPerBigPart : Z := 1000000000000.
Definition maxSmallPartsPerPartition : Z := 256.
Definition defaultPartsToMerge : Z := 15.
Definition finalPartsToMerge : Z := 3.
(** Durations are nanoseconds. *)
Definition rawRowsFlushInterval : Z := 1000000000.
Definition inmemoryPartsFlushInterval : Z := 5 * 1000000000.

(** ** Parts and part handles *)

Record partHeader : Type := mkPartHeader {
  RowsCount : Z;
  BlocksCount : Z;
  MinTimestamp : Z;
  MaxTimestamp : Z
}.

(** The part artifact: its header and, for a file part, its directory. *)
Record part : Type := mkPart {
  ph : partHeader;
  path : string
}.

Record inmemoryPart : Type := mkInmemoryPart {
  mp_ph : partHeader;
  creationTime : Z
}.

(** [partWrapper]; [p] and [mp] are pointers in the source, [None] is [nil]. *)
Record partWrapper : Type := mkPartWrapper {
  p : option part;
  mp : option inmemoryPart;
  refCount : Z;
  isInMerge : bool
}.

(** A handle's address. *)
Abbreviation ptr := nat (only parsing).

Definition set_refCount (n : Z) (pw : partWrapper) : partWrapper :=
  mkPartWrapper (p pw) (mp pw) n (isInMerge pw).

Definition set_isInMerge (b : bool) (pw : partWrapper) : partWrapper :=
  mkPartWrapper (p pw) (mp pw) (refCount pw) b.

Definition pw_path (pw : partWrapper) : string :=
  match p pw with
  | Some pt => path pt
  | None => EmptyString
  end.

(** ** Rows and the raw-row buffer *)

Record rawRow : Type := mkRawRow {
  MetricID : Z;
  Timestamp : Z;
  Value : Z;
  PrecisionBits : Z
}.

(** A Go slice of rows: its elements and its capacity. *)
Record rowSlice : Type := mkSlice {
  elems : list rawRow;
  cap : Z
}.

Definition len (s : rowSlice) : Z := Z.of_nat (length (elems s)).

Definition slice_wf (s : rowSlice) : Prop := len s <= cap s.

(** [make([]rawRow, 0, n)]. *)
Definition make_rows (n : Z) : rowSlice := mkSlice [] n.

(** [append(s, xs...)]; the capacity is kept while the rows fit, which is the
    only way partition.go appends; beyond that Go reallocates and the model
    takes the smallest capacity that holds the result. *)
Definition append_rows (s : rowSlice) (xs : list rawRow) : rowSlice :=
  let l := elems s ++ xs in
  mkSlice l (Z.max (cap s) (Z.of_nat (length l))).

(** [s[:0]]. *)
Definition reslice0 (s : rowSlice) : rowSlice := mkSlice [] (cap s).

(** The nil slice. *)
Definition nil_rows : rowSlice := mkSlice [] 0.

(** [getMaxRawRowsPerPartition]: [allowed] is [memory.Allowed()] and [sz] is
    [unsafe.Sizeof(rawRow{})]. *)
Definition getMaxRawRowsPerPartition (allowed sz : Z) : Z :=
  let n := allowed / 256 / sz in
  let n := if n <? 10000 then 10000 else n in
  let n := if n >? 500000 then 500000 else n in
  n.

(** [len(rawRowsPools)]. *)
Definition rawRowsPools_len : Z := 19.

(** [getRawRowsPool]: the bucket index and the rounded size. *)
Definition getRawRowsPool (size : Z) : Z * Z :=
  let size := size - 1 in
  let size := if size <? 0 then 0 else size in
  let bucketIdx := 64 - bits_LeadingZeros64 size in
  let bucketIdx := if bucketIdx >=? rawRowsPools_len then rawRowsPools_len - 1 else bucketIdx in
  (bucketIdx, Z.shiftl 1 bucketIdx).

(** The [sync.Pool]s of row buffers, one stack of buffers per bucket. *)
Definition rowPools : Type := list (list rowSlice).

Definition pool_get (pools : rowPools) (idx : Z) : option rowSlice * rowPools :=
  match nth_error pools (Z.to_nat idx) with
  | Some (v :: rest) =>
      (Some v, firstn (Z.to_nat idx) pools ++ rest :: skipn (S (Z.to_nat idx)) pools)
  | _ => (None, pools)
  end.

Definition pool_put (pools : rowPools) (idx : Z) (v : rowSlice) : rowPools :=
  match nth_error pools (Z.to_nat idx) with
  | Some b => firstn (Z.to_nat idx) pools ++ (v :: b) :: skipn (S (Z.to_nat idx)) pools
  | None => pools
  end.

Definition getRawRowsWithSize (size : Z) (pools : rowPools) : rowSlice * rowPools :=
  let '(idx, sizeRounded) := getRawRowsPool size in
  match pool_get pools idx with
  | (None, pools') => (make_rows sizeRounded, pools')
  | (Some v, pools') => (v, pools')
  end.

Definition putRawRows (rr : rowSlice) (pools : rowPools) : rowPools :=
  let rr := reslice0 rr in
  let size := cap rr in
  let '(idx, _) := getRawRowsPool size in
  pool_put pools idx rr.

(** [encoding.CheckPrecisionBits]. *)
(** Modelled from the spec: lib/encoding is not part of the sources; the
    specification gives the valid precision bits as 1..64. *)
Definition CheckPrecisionBits (pb : Z) : bool := (1 <=? pb) && (pb <=? 64).

(** ** float64 *)

Definition float64 : Type := spec_float.

(** [float64(n)] for an integer [n]. *)
Definition f64_of_Z (n : Z) : float64 := binary_normalize 53 1024 n 0 false.
Definition f64_div (x y : float64) : float64 := SFdiv 53 1024 x y.
Definition f64_ltb (x y : float64) : bool := SFltb x y.
Definition f64_leb (x y : float64) : bool := SFleb x y.
Definition f64_zero : float64 := S754_zero false.

(** ** Collaborators *)

(** The ordering contract of a [less] function handed to [sort.Slice]. *)
Definition strict_weak {A : Type} (less : A -> A -> bool) : Prop :=
  (forall x, less x x = false) /\
  (forall x y z, less x y = true -> less y z = true -> less x z = true) /\
  (forall x y z, less x y = false -> less y z = false -> less x z = false).

(** What [mergeBlockStreams] leaves behind: the header of the written part,
    the amounts it added to the merged and deleted row counters, and its error. *)
Record mergeResult : Type := mkMergeResult {
  mr_ph : partHeader;
  mr_rowsMerged : Z;
  mr_rowsDeleted : Z;
  mr_err : option error
}.

(** Everything partition.go calls and does not define. [FS] is the state of
    the file system. [sort.Slice] is not stable: any sorted permutation is a
    possible result, which is all its two laws say. *)
Class Env : Type := mkEnv {
  FS : Type;
  (* package sort *)
  sort_Slice : (ptr -> ptr -> bool) -> list ptr -> list ptr;
  sort_Slice_Permutation :
    forall less l, Permutation (sort_Slice less l) l;
  sort_Slice_Sorted :
    forall less l, strict_weak less ->
      StronglySorted (fun a b => less b a = false) (sort_Slice less l);
  (* packages os, ioutil, filepath and lib/fs *)
  ioutil_ReadFile : string -> FS -> string + error;
  os_RemoveAll : string -> FS -> FS * option error;
  os_Rename : string -> string -> FS -> FS * option error;
  os_Remove : string -> FS -> FS * option error;
  fs_IsPathExist : string -> FS -> bool;
  fs_SyncPath : string -> FS -> FS;
  fs_WriteFile : string -> string -> FS -> FS * option error;
  filepath_Abs : string -> string * option error;
  filepath_Clean : string -> string;
  (* block streams and parts *)
  bsr_InitFromFilePart : string -> FS -> option error;
  bsw_InitFromFilePart : string -> bool -> Z -> FS -> FS * option error;
  mergeBlockStreams :
    string -> list partWrapper -> bool -> list Z -> FS -> FS * mergeResult;
  openFilePart : string -> FS -> part + error;
  partHeader_Path : partHeader -> string -> Z -> string;
  inmemoryPart_InitFromRows : list rawRow -> Z -> inmemoryPart;
  inmemoryPart_NewPart : inmemoryPart -> part + error;
  (* process-wide constants *)
  memory_Allowed : Z;
  sizeof_rawRow : Z
}.

(** ** The merge planner *)

Section Planner.
Context {E : Env}.

(** [hdr pw] is [pw.p.ph], read through the handle. *)
Variable hdr : ptr -> partHeader.

(** The [less] closure given to [sort.Slice]. *)
Definition planner_less (a b : ptr) : bool :=
  if RowsCount (hdr a) <? RowsCount (hdr b) then true
  else if RowsCount (hdr a) >? RowsCount (hdr b) then false
  else MinTimestamp (hdr a) >? MinTimestamp (hdr b).

(** [src[j : j+i]]. *)
Definition window (src : list ptr) (j i : nat) : list ptr :=
  firstn i (skipn j src).

(** The inner loop [rowsSum += pw.p.ph.RowsCount] over a window, in [uint64]. *)
Definition rowsSum (w : list ptr) : Z :=
  fold_left (fun s pw => wrap64 (s + RowsCount (hdr pw))) w 0.

(** [float64(rowsSum) / float64(src[j+i-1].p.ph.RowsCount)]. *)
Definition score (src : list ptr) (j i : nat) : float64 :=
  f64_div (f64_of_Z (rowsSum (window src j i)))
          (f64_of_Z (RowsCount (hdr (nth (j + i - 1) src 0%nat)))).

(** One pass of the body of the two nested loops, on [(maxM, pws)]. *)
Definition search_step (src : list ptr) (maxRows : Z)
    (st : float64 * list ptr) (ij : nat * nat) : float64 * list ptr :=
  let '(i, j) := ij in
  if rowsSum (window src j i) >? maxRows then st
  else
    let m := score src j i in
    if f64_ltb m (fst st) then st else (m, window src j i).

(** The pairs [(i, j)] in the order the loops visit them:
    [for i := 2; i <= n; i++ { for j := 0; j <= len(src)-i; j++ {...} }]. *)
Definition search_order (n : Z) (srclen : nat) : list (nat * nat) :=
  flat_map (fun i => map (fun j => (i, j))
                        (seq 0 (Z.to_nat (Z.of_nat srclen - Z.of_nat i + 1))))
           (seq 2 (Z.to_nat (n - 1))).

Definition search (src : list ptr) (n maxRows : Z) : float64 * list ptr :=
  fold_left (search_step src maxRows) (search_order n (length src)) (f64_zero, []).

(** The filter loop: parts with more than [maxRows / 2] rows are dropped. *)
Definition filter_small (src : list ptr) (maxRows : Z) : list ptr :=
  List.filter (fun pw => negb (RowsCount (hdr pw) >? maxRows / 2)) src.

(** [minM]. *)
Definition minM (maxPartsToMerge : Z) : float64 :=
  let m := f64_of_Z (Z.quot maxPartsToMerge 2) in
  if f64_ltb m (f64_of_Z 2) then f64_of_Z 2 else m.

Definition appendPartsToMerge (dst src : list ptr) (maxPartsToMerge maxRows : Z)
  : outcome (list ptr) :=
  if Z.of_nat (length src) <? 2 then Ret dst
  else if maxPartsToMerge <? 2 then
    Panic "BUG: maxPartsToMerge cannot be smaller than 2"
  else
    let src := sort_Slice planner_less (filter_small src maxRows) in
    let n := if Z.of_nat (length src) <? maxPartsToMerge
             then Z.of_nat (length src) else maxPartsToMerge in
    let '(maxM, pws) := search src n maxRows in
    if f64_ltb maxM (minM maxPartsToMerge) then Ret dst
    else Ret (dst ++ pws).

End Planner.

(** A stable insertion sort: one behaviour [sort.Slice] may have. *)
Fixpoint insert_by (less : ptr -> ptr -> bool) (x : ptr) (l : list ptr) : list ptr :=
  match l with
  | [] => [x]
  | y :: t => if less y x then y :: insert_by less x t else x :: y :: t
  end.

Definition insertion_sort (less : ptr -> ptr -> bool) (l : list ptr) : list ptr :=
  fold_right (insert_by less) [] l.

(** ** Strings *)

Definition newline : string := String (ascii_of_nat 10) EmptyString.
Definition arrow : string := " -> ".
Definition slash : string := "/".

Fixpoint string_rev_append (acc s : string) : string :=
  match acc with
  | EmptyString => s
  | String c acc' => string_rev_append acc' (String c s)
  end.

(** [strings.Split(s, sep)] for a non-empty [sep]: [cur] holds the current
    field in reverse and [skip] counts the bytes of a separator still to pass. *)
Fixpoint split_from (sep : string) (skip : nat) (cur : string) (s : string)
  : list string :=
  match s with
  | EmptyString => [string_rev_append cur EmptyString]
  | String c s' =>
      match skip with
      | S k => split_from sep k cur s'
      | O =>
          if String.prefix sep s
          then string_rev_append cur EmptyString
                 :: split_from sep (String.length sep - 1) EmptyString s'
          else split_from sep O (String c cur) s'
      end
  end.

Definition strings_Split (s sep : string) : list string :=
  split_from sep O EmptyString s.

(** [strings.HasPrefix(s, prefix)]. *)
Definition strings_HasPrefix (s pre : string) : bool := String.prefix pre s.

(** [data[len(data)-1] == '\n'] and [data[:len(data)-1]]. *)
Fixpoint strip_last_newline (s : string) : string :=
  match s with
  | EmptyString => EmptyString
  | String c EmptyString =>
      if Ascii.eqb c (ascii_of_nat 10) then EmptyString else s
  | String c s' => String c (strip_last_newline s')
  end.

Definition hex_digit (d : Z) : ascii :=
  if d <? 10 then ascii_of_nat (Z.to_nat (48 + d))
  else ascii_of_nat (Z.to_nat (55 + d)).

Fixpoint hex_digits (n : nat) (v : Z) (acc : string) : string :=
  match n with
  | O => acc
  | S n' => hex_digits n' (v / 16) (String (hex_digit (v mod 16)) acc)
  end.

(** [fmt.Sprintf("%016X", v)] for a [uint64]. *)
Definition hex16 (v : Z) : string := hex_digits 16 v EmptyString.

(** ** The transaction log *)

Section Transactions.
Context {E : Env}.

Definition validatePath (pathPrefix1 pathPrefix2 path : string)
  : string * option error :=
  let '(pathPrefix1, err) := filepath_Abs pathPrefix1 in
  if is_error err then (path, Some (errOther "cannot determine absolute path for pathPrefix1"))
  else
  let '(pathPrefix2, err) := filepath_Abs pathPrefix2 in
  if is_error err then (path, Some (errOther "cannot determine absolute path for pathPrefix2"))
  else
  let '(path, err) := filepath_Abs path in
  if is_error err then (path, Some (errOther "cannot determine absolute path"))
  else
  if negb (strings_HasPrefix path (pathPrefix1 ++ slash)%string)
     && negb (strings_HasPrefix path (pathPrefix2 ++ slash)%string)
  then (path, Some (errOther "invalid path"))
  else (path, None).

(** The loop over [rmPaths]. *)
Fixpoint remove_old_paths (pathPrefix1 pathPrefix2 : string)
    (rmPaths : list string) (d : FS) : FS * option error :=
  match rmPaths with
  | [] => (d, None)
  | path :: rest =>
      let '(path, err) := validatePath pathPrefix1 pathPrefix2 path in
      if is_error err then (d, Some (errOther "invalid path to remove"))
      else
        let '(d, err) := os_RemoveAll path d in
        if is_error err then (d, Some (errOther "cannot remove"))
        else remove_old_paths pathPrefix1 pathPrefix2 rest d
  end.

Definition runTransaction (pathPrefix1 pathPrefix2 txnPath : string) (d : FS)
  : FS * option error :=
  match ioutil_ReadFile txnPath d with
  | inr _ => (d, Some (errOther "cannot read transaction file"))
  | inl data =>
    let data := strip_last_newline data in
    let paths := strings_Split data newline in
    if (length paths =? 0)%nat then (d, Some (errOther "empty transaction"))
    else
    let rmPaths := List.removelast paths in
    let mvPaths := strings_Split (List.last paths EmptyString) arrow in
    match mvPaths with
    | [srcPath; dstPath] =>
      let '(d, err) := remove_old_paths pathPrefix1 pathPrefix2 rmPaths d in
      if is_error err then (d, err)
      else
      let '(srcPath, err) := validatePath pathPrefix1 pathPrefix2 srcPath in
      if is_error err then (d, Some (errOther "invalid source path to rename"))
      else
      let '(d, err) :=
        if (0 <? String.length dstPath)%nat then
          let '(dstPath, err) := validatePath pathPrefix1 pathPrefix2 dstPath in
          if is_error err then (d, Some (errOther "invalid destination path to rename"))
          else if fs_IsPathExist srcPath d then
            let '(d, err) := os_Rename srcPath dstPath d in
            if is_error err then (d, Some (errOther "cannot rename")) else (d, None)
          else if negb (fs_IsPathExist dstPath d) then
            (d, Some (errOther "cannot find both source and destination paths"))
          else (d, None)
        else
          let '(d, err) := os_RemoveAll srcPath d in
          if is_error err then (d, Some (errOther "cannot remove")) else (d, None)
      in
      if is_error err then (d, err)
      else
      let d := fs_SyncPath pathPrefix1 d in
      let d := fs_SyncPath pathPrefix2 d in
      let '(d, err) := os_Remove txnPath d in
      if is_error err then (d, Some (errOther "cannot remove transaction file"))
      else (d, None)
    | _ => (d, Some (errOther "invalid last line in the transaction file"))
    end
  end.

End Transactions.

(** ** The partition and its world *)

(** The fields of [partition] that the modelled functions read or write
    ([tr] is flattened into its two bounds); the locks, the stop channel and
    the wait groups have no sequential content. *)
Record partition : Type := mkPartition {
  smallPartsPath : string;
  bigPartsPath : string;
  name : string;
  tr_MinTimestamp : Z;
  tr_MaxTimestamp : Z;
  smallParts : list ptr;
  bigParts : list ptr;
  rawRows : rowSlice;
  rawRowsLastFlushTime : Z;
  mergeIdx : Z;
  activeBigMerges : Z;
  activeSmallMerges : Z;
  bigMergesCount : Z;
  smallMergesCount : Z;
  bigRowsMerged : Z;
  smallRowsMerged : Z;
  bigRowsDeleted : Z;
  smallRowsDeleted : Z;
  smallAssistedMerges : Z
}.

Definition pt_set_smallParts (v : list ptr) (q : partition) : partition :=
  mkPartition (smallPartsPath q) (bigPartsPath q) (name q) (tr_MinTimestamp q)
    (tr_MaxTimestamp q) v (bigParts q) (rawRows q) (rawRowsLastFlushTime q)
    (mergeIdx q) (activeBigMerges q) (activeSmallMerges q) (bigMergesCount q)
    (smallMergesCount q) (bigRowsMerged q) (smallRowsMerged q) (bigRowsDeleted
    q) (smallRowsDeleted q) (smallAssistedMerges q).

Definition pt_set_bigParts (v : list ptr) (q : partition) : partition :=
  mkPartition (smallPartsPath q) (bigPartsPath q) (name q) (tr_MinTimestamp q)
    (tr_MaxTimestamp q) (smallParts q) v (rawRows q) (rawRowsLastFlushTime q)
    (mergeIdx q) (activeBigMerges q) (activeSmallMerges q) (bigMergesCount q)
    (smallMergesCount q) (bigRowsMerged q) (smallRowsMerged q) (bigRowsDeleted
    q) (smallRowsDeleted q) (smallAssistedMerges q).

Definition pt_set_rawRows (v : rowSlice) (q : partition) : partition :=
  mkPartition (smallPartsPath q) (bigPartsPath q) (name q) (tr_MinTimestamp q)
    (tr_MaxTimestamp q) (smallParts q) (bigParts q) v (rawRowsLastFlushTime q)
    (mergeIdx q) (activeBigMerges q) (activeSmallMerges q) (bigMergesCount q)
    (smallMergesCount q) (bigRowsMerged q) (smallRowsMerged q) (bigRowsDeleted
    q) (smallRowsDeleted q) (smallAssistedMerges q).

Definition pt_set_rawRowsLastFlushTime (v : Z) (q : partition) : partition :=
  mkPartition (smallPartsPath q) (bigPartsPath q) (name q) (tr_MinTimestamp q)
    (tr_MaxTimestamp q) (smallParts q) (bigParts q) (rawRows q) v (mergeIdx q)
    (activeBigMerges q) (activeSmallMerges q) (bigMergesCount q)
    (smallMergesCount q) (bigRowsMerged q) (smallRowsMerged q) (bigRowsDeleted
    q) (smallRowsDeleted q) (smallAssistedMerges q).

Definition pt_set_mergeIdx (v : Z) (q : partition) : partition :=
  mkPartition (smallPartsPath q) (bigPartsPath q) (name q) (tr_MinTimestamp q)
    (tr_MaxTimestamp q) (smallParts q) (bigParts q) (rawRows q)
    (rawRowsLastFlushTime q) v (activeBigMerges q) (activeSmallMerges q)
    (bigMergesCount q) (smallMergesCount q) (bigRowsMerged q) (smallRowsMerged
    q) (bigRowsDeleted q) (smallRowsDeleted q) (smallAssistedMerges q).

Definition pt_set_activeBigMerges (v : Z) (q : partition) : partition :=
  mkPartition (smallPartsPath q) (bigPartsPath q) (name q) (tr_MinTimestamp q)
    (tr_MaxTimestamp q) (smallParts q) (bigParts q) (rawRows q)
    (rawRowsLastFlushTime q) (mergeIdx q) v (activeSmallMerges q)
    (bigMergesCount q) (smallMergesCount q) (bigRowsMerged q) (smallRowsMerged
    q) (bigRowsDeleted q) (smallRowsDeleted q) (smallAssistedMerges q).

Definition pt_set_bigMergesCount (v : Z) (q : partition) : partition :=
  mkPartition (smallPartsPath q) (bigPartsPath q) (name q) (tr_MinTimestamp q)
    (tr_MaxTimestamp q) (smallParts q) (bigParts q) (rawRows q)
    (rawRowsLastFlushTime q) (mergeIdx q) (activeBigMerges q)
    (activeSmallMerges q) v (smallMergesCount q) (bigRowsMerged q)
    (smallRowsMerged q) (bigRowsDeleted q) (smallRowsDeleted q)
    (smallAssistedMerges q).

Definition pt_set_activeSmallMerges (v : Z) (q : partition) : partition :=
  mkPartition (smallPartsPath q) (bigPartsPath q) (name q) (tr_MinTimestamp q)
    (tr_MaxTimestamp q) (smallParts q) (bigParts q) (rawRows q)
    (rawRowsLastFlushTime q) (mergeIdx q) (activeBigMerges q) v
    (bigMergesCount q) (smallMergesCount q) (bigRowsMerged q) (smallRowsMerged
    q) (bigRowsDeleted q) (smallRowsDeleted q) (smallAssistedMerges q).

Definition pt_set_smallMergesCount (v : Z) (q : partition) : partition :=
  mkPartition (smallPartsPath q) (bigPartsPath q) (name q) (tr_MinTimestamp q)
    (tr_MaxTimestamp q) (smallParts q) (bigParts q) (rawRows q)
    (rawRowsLastFlushTime q) (mergeIdx q) (activeBigMerges q)
    (activeSmallMerges q) (bigMergesCount q) v (bigRowsMerged q)
    (smallRowsMerged q) (bigRowsDeleted q) (smallRowsDeleted q)
    (smallAssistedMerges q).

Definition pt_set_bigRowsMerged (v : Z) (q : partition) : partition :=
  mkPartition (smallPartsPath q) (bigPartsPath q) (name q) (tr_MinTimestamp q)
    (tr_MaxTimestamp q) (smallParts q) (bigParts q) (rawRows q)
    (rawRowsLastFlushTime q) (mergeIdx q) (activeBigMerges q)
    (activeSmallMerges q) (bigMergesCount q) (smallMergesCount q) v
    (smallRowsMerged q) (bigRowsDeleted q) (smallRowsDeleted q)
    (smallAssistedMerges q).

Definition pt_set_smallRowsMerged (v : Z) (q : partition) : partition :=
  mkPartition (smallPartsPath q) (bigPartsPath q) (name q) (tr_MinTimestamp q)
    (tr_MaxTimestamp q) (smallParts q) (bigParts q) (rawRows q)
    (rawRowsLastFlushTime q) (mergeIdx q) (activeBigMerges q)
    (activeSmallMerges q) (bigMergesCount q) (smallMergesCount q)
    (bigRowsMerged q) v (bigRowsDeleted q) (smallRowsDeleted q)
    (smallAssistedMerges q).

Definition pt_set_bigRowsDeleted (v : Z) (q : partition) : partition :=
  mkPartition (smallPartsPath q) (bigPartsPath q) (name q) (tr_MinTimestamp q)
    (tr_MaxTimestamp q) (smallParts q) (bigParts q) (rawRows q)
    (rawRowsLastFlushTime q) (mergeIdx q) (activeBigMerges q)
    (activeSmallMerges q) (bigMergesCount q) (smallMergesCount q)
    (bigRowsMerged q) (smallRowsMerged q) v (smallRowsDeleted q)
    (smallAssistedMerges q).

Definition pt_set_smallRowsDeleted (v : Z) (q : partition) : partition :=
  mkPartition (smallPartsPath q) (bigPartsPath q) (name q) (tr_MinTimestamp q)
    (tr_MaxTimestamp q) (smallParts q) (bigParts q) (rawRows q)
    (rawRowsLastFlushTime q) (mergeIdx q) (activeBigMerges q)
    (activeSmallMerges q) (bigMergesCount q) (smallMergesCount q)
    (bigRowsMerged q) (smallRowsMerged q) (bigRowsDeleted q) v
    (smallAssistedMerges q).

Definition pt_set_smallAssistedMerges (v : Z) (q : partition) : partition :=
  mkPartition (smallPartsPath q) (bigPartsPath q) (name q) (tr_MinTimestamp q)
    (tr_MaxTimestamp q) (smallParts q) (bigParts q) (rawRows q)
    (rawRowsLastFlushTime q) (mergeIdx q) (activeBigMerges q)
    (activeSmallMerges q) (bigMergesCount q) (smallMergesCount q)
    (bigRowsMerged q) (smallRowsMerged q) (bigRowsDeleted q) (smallRowsDeleted
    q) v.

Section Model.
Context {E : Env}.

(** The partition together with everything it reaches: the handles behind
    its pointers, the pool of in-memory parts, the parts closed so far, the
    pools of row buffers, the file system, the clock [time.Now] reads, and
    the set [getDeletedMetricIDs] returns. *)
Record world : Type := mkWorld {
  pt : partition;
  heap : gmap ptr partWrapper;
  inmemoryPartPool : list inmemoryPart;
  closedParts : list part;
  rawRowsPools : rowPools;
  disk : FS;
  clock : Z;
  deletedMetricIDs : list Z
}.

Definition set_pt (v : partition) (w : world) : world :=
  mkWorld v (heap w) (inmemoryPartPool w) (closedParts w) (rawRowsPools w)
    (disk w) (clock w) (deletedMetricIDs w).

Definition set_heap (v : gmap ptr partWrapper) (w : world) : world :=
  mkWorld (pt w) v (inmemoryPartPool w) (closedParts w) (rawRowsPools w) (disk
    w) (clock w) (deletedMetricIDs w).

Definition set_inmemoryPartPool (v : list inmemoryPart) (w : world) : world :=
  mkWorld (pt w) (heap w) v (closedParts w) (rawRowsPools w) (disk w) (clock
    w) (deletedMetricIDs w).

Definition set_closedParts (v : list part) (w : world) : world :=
  mkWorld (pt w) (heap w) (inmemoryPartPool w) v (rawRowsPools w) (disk w)
    (clock w) (deletedMetricIDs w).

Definition set_rawRowsPools (v : rowPools) (w : world) : world :=
  mkWorld (pt w) (heap w) (inmemoryPartPool w) (closedParts w) v (disk w)
    (clock w) (deletedMetricIDs w).

Definition set_disk (v : FS) (w : world) : world :=
  mkWorld (pt w) (heap w) (inmemoryPartPool w) (closedParts w) (rawRowsPools
    w) v (clock w) (deletedMetricIDs w).

Definition upd_pt (f : partition -> partition) (w : world) : world :=
  set_pt (f (pt w)) w.

(** *** Reference counting *)

(** Reading through a handle; a missing handle is a nil dereference. *)
Definition read_pw (l : ptr) (w : world) : outcome partWrapper :=
  match heap w !! l with
  | Some pw => Ret pw
  | None => Panic "invalid memory address or nil pointer dereference"
  end.

Definition write_pw (l : ptr) (pw : partWrapper) (w : world) : world :=
  set_heap (<[l := pw]> (heap w)) w.

(** [putInmemoryPart] and [getInmemoryPart]: the pool of in-memory parts. *)
Definition putInmemoryPart (m : inmemoryPart) (w : world) : world :=
  set_inmemoryPartPool (m :: inmemoryPartPool w) w.

Definition getInmemoryPart (w : world) : world :=
  set_inmemoryPartPool (tl (inmemoryPartPool w)) w.

(** [p.MustClose()]. *)
Definition part_MustClose (q : part) (w : world) : world :=
  set_closedParts (q :: closedParts w) w.

Definition incRef (l : ptr) (w : world) : outcome world :=
  pw <-- read_pw l w ;;
  Ret (write_pw l (set_refCount (atomic_AddUint64 (refCount pw) 1) pw) w).

Definition decRef (l : ptr) (w : world) : outcome world :=
  pw <-- read_pw l w ;;
  let n := atomic_AddUint64 (refCount pw) not_zero64 in
  if int64_of_uint64 n <? 0 then
    Panic "BUG: pw.refCount must be bigger than 0"
  else if n >? 0 then Ret (write_pw l (set_refCount n pw) w)
  else
    let w := match mp pw with
             | Some m => putInmemoryPart m w
             | None => w
             end in
    match p pw with
    | Some q =>
        Ret (write_pw l (mkPartWrapper None None n (isInMerge pw))
               (part_MustClose q w))
    | None => Panic "invalid memory address or nil pointer dereference"
    end.

(** [for _, pw := range pws { pw.decRef() }]. *)
Fixpoint decRef_all (pws : list ptr) (w : world) : outcome world :=
  match pws with
  | [] => Ret w
  | l :: rest => w <-- decRef l w ;; decRef_all rest w
  end.

Fixpoint incRef_all (pws : list ptr) (w : world) : outcome world :=
  match pws with
  | [] => Ret w
  | l :: rest => w <-- incRef l w ;; incRef_all rest w
  end.

(** [GetParts] and [PutParts]. *)
Definition GetParts (dst : list ptr) (w : world) : outcome (list ptr * world) :=
  w <-- incRef_all (smallParts (pt w)) w ;;
  let dst := dst ++ smallParts (pt w) in
  w <-- incRef_all (bigParts (pt w)) w ;;
  let dst := dst ++ bigParts (pt w) in
  Ret (dst, w).

Definition PutParts (pws : list ptr) (w : world) : outcome world :=
  decRef_all pws w.

(** *** Choosing the parts to merge *)

(** [pw.p], for the reads of [pw.p.ph] and [pw.p.path]: a nil [pw.p] is a
    nil dereference. *)
Definition must_part (pw : partWrapper) : outcome part :=
  match p pw with
  | Some q => Ret q
  | None => Panic "invalid memory address or nil pointer dereference"
  end.

(** [pw.p.ph], read through a handle. *)
Definition read_ph (l : ptr) (w : world) : outcome partHeader :=
  pw <-- read_pw l w ;;
  q <-- must_part pw ;;
  Ret (ph q).

(** The headers [appendPartsToMerge] reads: its filter loop reads [pw.p.ph]
    of every handle of [src], in order, before anything is sorted or
    summed; the first handle without a part ends the call there. *)
Fixpoint read_headers (src : list ptr) (w : world)
  : outcome (list (ptr * partHeader)) :=
  match src with
  | [] => Ret []
  | l :: rest =>
      h <-- read_ph l w ;;
      hs <-- read_headers rest w ;;
      Ret ((l, h) :: hs)
  end.

(** The header that was read for a handle of [src]. The planner asks for
    the handles of [src] only, each of which has an entry. *)
Definition header_in (hs : list (ptr * partHeader)) (l : ptr) : partHeader :=
  match List.find (fun lh => Nat.eqb (fst lh) l) hs with
  | Some lh => snd lh
  | None => mkPartHeader 0 0 0 0
  end.

(** [appendPartsToMerge] on handles of the heap: the two checks on its
    arguments come first, then the headers are read through the handles,
    and the planner runs on the headers read. *)
Definition appendPartsToMerge_pws (w : world) (dst src : list ptr)
    (maxPartsToMerge maxRows : Z) : outcome (list ptr) :=
  if Z.of_nat (length src) <? 2 then Ret dst
  else if maxPartsToMerge <? 2 then
    Panic "BUG: maxPartsToMerge cannot be smaller than 2"
  else
    hs <-- read_headers src w ;;
    appendPartsToMerge (header_in hs) dst src maxPartsToMerge maxRows.

Definition flag_of (w : world) (l : ptr) : bool :=
  match heap w !! l with
  | Some pw => isInMerge pw
  | None => false
  end.

(** The loop of [getPartsToMerge] under [isFinal]: [maxPartsToMerge] runs from
    [finalPartsToMerge + k] down to [finalPartsToMerge] while nothing is found. *)
Fixpoint final_search (k : nat) (w : world) (remaining : list ptr) (maxRows : Z)
  : outcome (list ptr) :=
  pms <-- appendPartsToMerge_pws w [] remaining
            (finalPartsToMerge + Z.of_nat k) maxRows ;;
  match pms, k with
  | [], S k' => final_search k' w remaining maxRows
  | _, _ => Ret pms
  end.

(** [for _, pw := range pms { ...; pw.isInMerge = true }]. *)
Fixpoint mark_in_merge (pms : list ptr) (w : world) : outcome world :=
  match pms with
  | [] => Ret w
  | l :: rest =>
      pw <-- read_pw l w ;;
      if isInMerge pw then Panic "BUG: partWrapper.isInMerge cannot be set"
      else mark_in_merge rest (write_pw l (set_isInMerge true pw) w)
  end.

Definition getPartsToMerge (pws : list ptr) (maxRows : Z) (isFinal : bool)
    (w : world) : outcome (list ptr * world) :=
  let pwsRemaining := List.filter (fun l => negb (flag_of w l)) pws in
  pms <-- (if isFinal
           then final_search (Z.to_nat (defaultPartsToMerge - finalPartsToMerge))
                  w pwsRemaining maxRows
           else appendPartsToMerge_pws w [] pwsRemaining
                  defaultPartsToMerge maxRows) ;;
  w <-- mark_in_merge pms w ;;
  Ret (pms, w).

(** *** The merge executor *)

Definition getCompressLevelForRowsCount (rowsCount : Z) : Z :=
  if rowsCount <=? Z.shiftl 1 19 then 1
  else if rowsCount <=? Z.shiftl 1 22 then 2
  else if rowsCount <=? Z.shiftl 1 25 then 3
  else if rowsCount <=? Z.shiftl 1 28 then 4
  else 5.

(** [removeParts]: [partsToRemove] is the map [m] of [mergeParts], a set of
    handles. *)
Fixpoint removeParts (pws : list ptr) (partsToRemove : gset ptr)
  : list ptr * Z :=
  match pws with
  | [] => ([], 0)
  | pw :: rest =>
      let '(dst, removedParts) := removeParts rest partsToRemove in
      if bool_decide (elem_of pw partsToRemove) then (dst, removedParts + 1)
      else (pw :: dst, removedParts)
  end.

(** The deferred function of [mergeParts]. *)
Fixpoint clear_isInMerge (pws : list ptr) (w : world) : outcome world :=
  match pws with
  | [] => Ret w
  | l :: rest =>
      pw <-- read_pw l w ;;
      if negb (isInMerge pw) then Panic "BUG: missing isInMerge flag on the part"
      else clear_isInMerge rest (write_pw l (set_isInMerge false pw) w)
  end.

(** The handles' values, read once: nothing writes them before the install. *)
Fixpoint read_all (pws : list ptr) (w : world) : outcome (list partWrapper) :=
  match pws with
  | [] => Ret []
  | l :: rest =>
      pw <-- read_pw l w ;;
      pws' <-- read_all rest w ;;
      Ret (pw :: pws')
  end.

(** Preparing the [blockStreamReader]s of the source parts. *)
Fixpoint open_readers (srcs : list partWrapper) (d : FS)
  : outcome (option error) :=
  match srcs with
  | [] => Ret None
  | pw :: rest =>
      match mp pw with
      | Some _ => open_readers rest d
      | None =>
          q <-- must_part pw ;;
          match bsr_InitFromFilePart (path q) d with
          | Some _ => Ret (Some (errOther "cannot open source part for merging"))
          | None => open_readers rest d
          end
      end
  end.

(** [outRowsCount += pw.p.ph.RowsCount]. *)
Fixpoint sum_rows (srcs : list partWrapper) (acc : Z) : outcome Z :=
  match srcs with
  | [] => Ret acc
  | pw :: rest =>
      q <-- must_part pw ;;
      sum_rows rest (wrap64 (acc + RowsCount (ph q)))
  end.

(** The remove lines of the transaction: one per file-backed source. *)
Fixpoint txn_remove_lines (srcs : list partWrapper) : string :=
  match srcs with
  | [] => EmptyString
  | pw :: rest =>
      match mp pw with
      | None => (pw_path pw ++ newline ++ txn_remove_lines rest)%string
      | Some _ => txn_remove_lines rest
      end
  end.

(** [dstPartPath]: empty when the merged part has no rows. *)
Definition dstPartPath_of (h : partHeader) (ptPath : string) (idx : Z) : string :=
  if RowsCount h >? 0 then partHeader_Path h ptPath idx else EmptyString.

Definition txn_data (srcs : list partWrapper) (tmpPartPath dstPartPath : string)
  : string :=
  (txn_remove_lines srcs ++ tmpPartPath ++ arrow ++ dstPartPath ++ newline)%string.

(** The decision taken from the output size. *)
Definition isBigPart_of (outRowsCount : Z) : bool :=
  outRowsCount >? maxRowsPerSmallPart.

Definition ptPath_of (isBigPart : bool) (q : partition) : string :=
  filepath_Clean (if isBigPart then bigPartsPath q else smallPartsPath q).

(** [pt.nextMergeIdx()]. *)
Definition nextMergeIdx (w : world) : Z * world :=
  let idx := atomic_AddUint64 (mergeIdx (pt w)) 1 in
  (idx, upd_pt (pt_set_mergeIdx idx) w).

(** The counters [mergeBlockStreams] adds to, chosen by [isBigPart]. *)
Definition add_merge_counters (isBigPart : bool) (mr : mergeResult) (w : world)
  : world :=
  if isBigPart then
    upd_pt (fun q =>
      pt_set_bigRowsDeleted (atomic_AddUint64 (bigRowsDeleted q) (mr_rowsDeleted mr))
        (pt_set_bigRowsMerged (atomic_AddUint64 (bigRowsMerged q) (mr_rowsMerged mr)) q)) w
  else
    upd_pt (fun q =>
      pt_set_smallRowsDeleted (atomic_AddUint64 (smallRowsDeleted q) (mr_rowsDeleted mr))
        (pt_set_smallRowsMerged (atomic_AddUint64 (smallRowsMerged q) (mr_rowsMerged mr)) q)) w.

(** A new handle [&partWrapper{...}] lives at an address no handle has. *)
Definition new_ptr (w : world) : ptr := fresh (dom (heap w)).

(** The install: the atomic replacement of the old parts by the new one,
    followed by the release of the old parts. *)
Definition install (pws : list ptr) (newPW : option ptr) (isBigPart : bool)
    (w : world) : outcome world :=
  let m : gset ptr := list_to_set pws in
  if negb (Z.of_nat (size m) =? Z.of_nat (length pws)) then
    Panic "BUG: duplicate parts found in the merge"
  else
    let '(small, removedSmallParts) := removeParts (smallParts (pt w)) m in
    let '(big, removedBigParts) := removeParts (bigParts (pt w)) m in
    let small := match newPW with
                 | Some l => if isBigPart then small else small ++ [l]
                 | None => small
                 end in
    let big := match newPW with
               | Some l => if isBigPart then big ++ [l] else big
               | None => big
               end in
    let w := upd_pt (fun q => pt_set_bigParts big (pt_set_smallParts small q)) w in
    if negb (removedSmallParts + removedBigParts =? Z.of_nat (size m)) then
      Panic "BUG: unexpected number of parts removed"
    else decRef_all pws w.

(** What [mergeParts] holds once the block streams are merged: the source
    handles as read, [outRowsCount], [isBigPart] (and [nocache], which equals
    it), [ptPath], [mergeIdx], [tmpPartPath] and the header [ph] of the part
    just written. *)
Record merged : Type := mkMerged {
  mg_srcs : list partWrapper;
  mg_outRowsCount : Z;
  mg_isBigPart : bool;
  mg_ptPath : string;
  mg_mergeIdx : Z;
  mg_tmpPartPath : string;
  mg_ph : partHeader
}.

(** [mergeParts] from the opening of the readers to the return of
    [mergeBlockStreams]. [stop] tells whether [stopCh] is non-nil. *)
Definition stream_merge (pws : list ptr) (stop : bool) (w : world)
  : outcome (world * (merged + error)) :=
  srcs <-- read_all pws w ;;
  err <-- open_readers srcs (disk w) ;;
  match err with
  | Some e => Ret (w, inr e)
  | None =>
  outRowsCount <-- sum_rows srcs 0 ;;
  let isBigPart := isBigPart_of outRowsCount in
  let nocache := isBigPart in
  let ptPath := ptPath_of isBigPart (pt w) in
  let '(idx, w) := nextMergeIdx w in
  let tmpPartPath := (ptPath ++ "/tmp/" ++ hex16 idx)%string in
  let compressLevel := getCompressLevelForRowsCount outRowsCount in
  let '(d, err) := bsw_InitFromFilePart tmpPartPath nocache compressLevel (disk w) in
  let w := set_disk d w in
  if is_error err then Ret (w, inr (errOther "cannot create destination part"))
  else
  let dmis := deletedMetricIDs w in
  let '(d, mr) := mergeBlockStreams tmpPartPath srcs stop dmis (disk w) in
  let w := add_merge_counters isBigPart mr (set_disk d w) in
  match mr_err mr with
  | Some errForciblyStopped => Ret (w, inr errForciblyStopped)
  | Some _ => Ret (w, inr (errOther "error when merging parts"))
  | None =>
      Ret (w, inl (mkMerged srcs outRowsCount isBigPart ptPath idx tmpPartPath
                     (mr_ph mr)))
  end
  end.

(** [mergeParts] from the transaction to the release of the old parts. *)
Definition commit_merge (pws : list ptr) (g : merged) (w : world)
  : outcome (world * option error) :=
  let dstPartPath := dstPartPath_of (mg_ph g) (mg_ptPath g) (mg_mergeIdx g) in
  let bb := txn_data (mg_srcs g) (mg_tmpPartPath g) dstPartPath in
  let txnPath := (mg_ptPath g ++ "/txn/" ++ hex16 (mg_mergeIdx g))%string in
  let '(d, err) := fs_WriteFile txnPath bb (disk w) in
  let w := set_disk d w in
  if is_error err then Ret (w, Some (errOther "cannot create transaction file"))
  else
  let '(d, err) :=
    runTransaction (smallPartsPath (pt w)) (bigPartsPath (pt w)) txnPath (disk w) in
  let w := set_disk d w in
  if is_error err then Ret (w, Some (errOther "cannot execute transaction"))
  else if (0 <? String.length dstPartPath)%nat then
    match openFilePart dstPartPath (disk w) with
    | inr _ => Ret (w, Some (errOther "cannot open merged part"))
    | inl newP =>
        let l := new_ptr w in
        let w := write_pw l (mkPartWrapper (Some newP) None 1 false) w in
        w <-- install pws (Some l) (mg_isBigPart g) w ;;
        Ret (w, None)
    end
  else
    w <-- install pws None (mg_isBigPart g) w ;;
    Ret (w, None).

(** The body of [mergeParts], between the registration of the deferred
    function and its run. *)
Definition mergeParts_body (pws : list ptr) (stop : bool) (w : world)
  : outcome (world * option error) :=
  r <-- stream_merge pws stop w ;;
  match r with
  | (w, inr e) => Ret (w, Some e)
  | (w, inl g) => commit_merge pws g w
  end.

Definition mergeParts (pws : list ptr) (stop : bool) (w : world)
  : outcome (world * option error) :=
  if (length pws =? 0)%nat then Ret (w, Some errNothingToMerge)
  else
    r <-- mergeParts_body pws stop w ;;
    let '(w, err) := r in
    w <-- clear_isInMerge pws w ;;
    Ret (w, err).

(** [mergePartsOptimal]: [fuel] bounds the loop; [length pws] passes suffice. *)
Fixpoint mergePartsOptimal_loop (fuel : nat) (pws : list ptr) (w : world)
  : outcome (world * option error) :=
  if Z.of_nat (length pws) >? defaultPartsToMerge then
    match fuel with
    | O => Panic "mergePartsOptimal: out of fuel"
    | S fuel' =>
        r <-- mergeParts (firstn (Z.to_nat defaultPartsToMerge) pws) false w ;;
        let '(w, err) := r in
        if is_error err then Ret (w, Some (errOther "cannot merge parts"))
        else mergePartsOptimal_loop fuel'
               (skipn (Z.to_nat defaultPartsToMerge) pws) w
    end
  else if (0 <? length pws)%nat then
    r <-- mergeParts pws false w ;;
    let '(w, err) := r in
    if is_error err then Ret (w, Some (errOther "cannot merge parts"))
    else Ret (w, None)
  else Ret (w, None).

Definition mergePartsOptimal (pws : list ptr) (w : world)
  : outcome (world * option error) :=
  mergePartsOptimal_loop (length pws) pws w.

(** [mergeBigParts]; [maxOutPartRows] is what [pt.maxOutPartRows()] returns,
    a reading of the free disk space. *)
Definition mergeBigParts (maxOutPartRows : Z) (isFinal : bool) (w : world)
  : outcome (world * option error) :=
  let maxRows := if maxOutPartRows >? maxRowsPerBigPart
                 then maxRowsPerBigPart else maxOutPartRows in
  r <-- getPartsToMerge (bigParts (pt w)) maxRows isFinal w ;;
  let '(pws, w) := r in
  if (length pws =? 0)%nat then Ret (w, Some errNothingToMerge)
  else
    let w := upd_pt (fun q =>
               pt_set_activeBigMerges (atomic_AddUint64 (activeBigMerges q) 1)
                 (pt_set_bigMergesCount (atomic_AddUint64 (bigMergesCount q) 1) q)) w in
    r <-- mergeParts pws true w ;;
    let '(w, err) := r in
    let w := upd_pt (fun q =>
               pt_set_activeBigMerges
                 (atomic_AddUint64 (activeBigMerges q) not_zero64) q) w in
    Ret (w, err).

Definition mergeSmallParts (isFinal : bool) (w : world)
  : outcome (world * option error) :=
  let maxRows := wrap64 (maxRowsPerSmallPart * defaultPartsToMerge) in
  r <-- getPartsToMerge (smallParts (pt w)) maxRows isFinal w ;;
  let '(pws, w) := r in
  if (length pws =? 0)%nat then Ret (w, Some errNothingToMerge)
  else
    let w := upd_pt (fun q =>
               pt_set_activeSmallMerges (atomic_AddUint64 (activeSmallMerges q) 1)
                 (pt_set_smallMergesCount (atomic_AddUint64 (smallMergesCount q) 1) q)) w in
    r <-- mergeParts pws true w ;;
    let '(w, err) := r in
    let w := upd_pt (fun q =>
               pt_set_activeSmallMerges
                 (atomic_AddUint64 (activeSmallMerges q) not_zero64) q) w in
    Ret (w, err).

(** *** Ingest *)

Definition HasTimestamp (q : partition) (timestamp : Z) : bool :=
  (timestamp >=? tr_MinTimestamp q) && (timestamp <=? tr_MaxTimestamp q).

Definition addRowsPart (rows : list rawRow) (w : world) : outcome world :=
  if (length rows =? 0)%nat then Ret w
  else
    let w := getInmemoryPart w in
    let m := inmemoryPart_InitFromRows rows (clock w) in
    if MinTimestamp (mp_ph m) >? MaxTimestamp (mp_ph m) then
      Panic "BUG: the part cannot be added because its MinTimestamp exceeds MaxTimestamp"
    else if MinTimestamp (mp_ph m) <? tr_MinTimestamp (pt w) then
      Panic "BUG: the part cannot be added because of too small MinTimestamp"
    else if MaxTimestamp (mp_ph m) >? tr_MaxTimestamp (pt w) then
      Panic "BUG: the part cannot be added because of too big MaxTimestamp"
    else
      match inmemoryPart_NewPart m with
      | inr _ => Panic "BUG: cannot create part"
      | inl q =>
          let l := new_ptr w in
          let w := write_pw l (mkPartWrapper (Some q) (Some m) 1 false) w in
          let w := upd_pt (fun q => pt_set_smallParts (smallParts q ++ [l]) q) w in
          let ok := Z.of_nat (length (smallParts (pt w))) <=? maxSmallPartsPerPartition in
          if ok then Ret w
          else
            (* The added part exceeds available limit. Help merging parts. *)
            r <-- mergeSmallParts false w ;;
            let '(w, err) := r in
            match err with
            | None =>
                Ret (upd_pt (fun q =>
                       pt_set_smallAssistedMerges
                         (atomic_AddUint64 (smallAssistedMerges q) 1) q) w)
            | Some errNothingToMerge => Ret w
            | Some errForciblyStopped => Ret w
            | Some _ => Panic "FATAL: cannot merge small parts"
            end
      end.

(** [getRawRowsMaxSize]. *)
Definition getRawRowsMaxSize (w : world) : rowSlice * world :=
  let size := getMaxRawRowsPerPartition memory_Allowed sizeof_rawRow in
  let '(rr, pools) := getRawRowsWithSize size (rawRowsPools w) in
  (rr, set_rawRowsPools pools w).

(** The loop of [AddRows] under [rawRowsLock]: the rows still to add and the
    buffers swapped out so far, [rrs]. It ends when the pool hands out buffers
    with room; [fuel] bounds the passes the model follows. *)
Fixpoint AddRows_fill (fuel : nat) (rows : list rawRow) (rrs : list rowSlice)
    (w : world) : option (list rowSlice * world) :=
  match fuel with
  | O => None
  | S fuel' =>
      let capacity := cap (rawRows (pt w)) - len (rawRows (pt w)) in
      if capacity >=? Z.of_nat (length rows) then
        (* Fast path - rows fit capacity. *)
        Some (rrs, upd_pt (fun q => pt_set_rawRows (append_rows (rawRows q) rows) q) w)
      else
        (* Slow path - rows don't fit capacity. *)
        let w := upd_pt (fun q =>
                   pt_set_rawRows
                     (append_rows (rawRows q) (firstn (Z.to_nat capacity) rows)) q) w in
        let rows := skipn (Z.to_nat capacity) rows in
        let '(rr, w) := getRawRowsMaxSize w in
        let full := rawRows (pt w) in
        let w := upd_pt (pt_set_rawRows rr) w in
        let rrs := rrs ++ [full] in
        let w := upd_pt (pt_set_rawRowsLastFlushTime (clock w)) w in
        AddRows_fill fuel' rows rrs w
  end.

(** [for _, rr := range rrs { pt.addRowsPart(rr.rows); putRawRows(rr) }]. *)
Fixpoint add_swapped_out (rrs : list rowSlice) (w : world) : outcome world :=
  match rrs with
  | [] => Ret w
  | rr :: rest =>
      w <-- addRowsPart (elems rr) w ;;
      add_swapped_out rest (set_rawRowsPools (putRawRows rr (rawRowsPools w)) w)
  end.

Definition valid_row (q : partition) (r : rawRow) : bool :=
  HasTimestamp q (Timestamp r) && CheckPrecisionBits (PrecisionBits r).

(** [AddRows]; [None] when the fill loop does not end within
    [length rows + 2] passes. *)
Definition AddRows (rows : list rawRow) (w : world) : option (outcome world) :=
  if (length rows =? 0)%nat then Some (Ret w)
  else if negb (forallb (valid_row (pt w)) rows) then
    Some (Panic "BUG: row has Timestamp outside partition range or invalid PrecisionBits")
  else
    match AddRows_fill (length rows + 2) rows [] w with
    | None => None
    | Some (rrs, w) => Some (add_swapped_out rrs w)
    end.

(** *** Flushers *)

Definition flushRawRows (newRawRows : rowSlice) (isFinal : bool) (w : world)
  : outcome (rowSlice * world) :=
  let oldRawRows := reslice0 newRawRows in
  let currentTime := clock w in
  if isFinal || (currentTime - rawRowsLastFlushTime (pt w) >? rawRowsFlushInterval) then
    let oldRawRows := rawRows (pt w) in
    let w := upd_pt (fun q =>
               pt_set_rawRowsLastFlushTime currentTime
                 (pt_set_rawRows (reslice0 newRawRows) q)) w in
    w <-- addRowsPart (elems oldRawRows) w ;;
    Ret (oldRawRows, w)
  else Ret (oldRawRows, w).

(** The collection loop of [flushInmemoryParts]. *)
Fixpoint collect_aged (force : bool) (currentTime : Z) (smalls : list ptr)
    (dstPws : list ptr) (w : world) : outcome (list ptr * world) :=
  match smalls with
  | [] => Ret (dstPws, w)
  | l :: rest =>
      pw <-- read_pw l w ;;
      match mp pw with
      | None => collect_aged force currentTime rest dstPws w
      | Some m =>
          if isInMerge pw then collect_aged force currentTime rest dstPws w
          else if force || (currentTime - creationTime m >=? inmemoryPartsFlushInterval)
          then collect_aged force currentTime rest (dstPws ++ [l])
                 (write_pw l (set_isInMerge true pw) w)
          else collect_aged force currentTime rest dstPws w
      end
  end.

Definition flushInmemoryParts (dstPws : list ptr) (force : bool) (w : world)
  : outcome (list ptr * world * option error) :=
  r <-- collect_aged force (clock w) (smallParts (pt w)) dstPws w ;;
  let '(dstPws, w) := r in
  r <-- mergePartsOptimal dstPws w ;;
  let '(w, err) := r in
  if is_error err then Ret (dstPws, w, Some (errOther "cannot merge inmemory parts"))
  else Ret (dstPws, w, None).

(** *** Closing *)

(** The collection loop of [MustClose]. *)
Fixpoint collect_inmemory (smalls : list ptr) (pws : list ptr) (w : world)
  : outcome (list ptr * world) :=
  match smalls with
  | [] => Ret (pws, w)
  | l :: rest =>
      pw <-- read_pw l w ;;
      match mp pw with
      | None => collect_inmemory rest pws w
      | Some _ =>
          if isInMerge pw then
            Panic "BUG: the inmemory part mustn't be in merge after stopping small parts merger"
          else collect_inmemory rest (pws ++ [l])
                 (write_pw l (set_isInMerge true pw) w)
      end
  end.

(** The end of [MustClose]: the part lists are taken out of the partition
    and every handle of them is released. *)
Definition release_parts (w : world) : outcome world :=
  let smalls := smallParts (pt w) in
  let w := upd_pt (pt_set_smallParts []) w in
  w <-- decRef_all smalls w ;;
  let bigs := bigParts (pt w) in
  let w := upd_pt (pt_set_bigParts []) w in
  decRef_all bigs w.

(** [MustClose], once the background tasks it waits for have stopped. *)
Definition MustClose (w : world) : outcome world :=
  r <-- flushRawRows nil_rows true w ;;
  let '(_, w) := r in
  r <-- collect_inmemory (smallParts (pt w)) [] w ;;
  let '(pws, w) := r in
  r <-- mergePartsOptimal pws w ;;
  let '(w, err) := r in
  if is_error err then Panic "FATAL: cannot flush inmemory parts to files"
  else release_parts w.

End Model.

(** ** A reference environment

    One concrete environment, used to run the model on examples: a file
    system that is an association list from paths to nodes, an insertion
    sort, and a merge that keeps every row unless tombstones are registered,
    in which case it drops every row. *)

Inductive ref_node : Type :=
| RefFile (data : string)
| RefPartDir (h : partHeader).

Definition ref_fs : Type := list (string * ref_node).

Definition under (dir q : string) : bool :=
  String.eqb q dir || String.prefix (dir ++ slash)%string q.

Fixpoint ref_lookup (q : string) (d : ref_fs) : option ref_node :=
  match d with
  | [] => None
  | (k, n) :: rest => if String.eqb k q then Some n else ref_lookup q rest
  end.

Definition ref_exists (q : string) (d : ref_fs) : bool :=
  existsb (fun kn => under q (fst kn)) d.

Definition ref_RemoveAll (q : string) (d : ref_fs) : ref_fs * option error :=
  (List.filter (fun kn => negb (under q (fst kn))) d, None).

Definition ref_reroot (src dst q : string) : string :=
  (dst ++ substring (String.length src) (String.length q - String.length src) q)%string.

Definition ref_Rename (src dst : string) (d : ref_fs) : ref_fs * option error :=
  if ref_exists src d then
    (map (fun kn => if under src (fst kn)
                    then (ref_reroot src dst (fst kn), snd kn) else kn)
         (fst (ref_RemoveAll dst d)), None)
  else (d, Some (errOther "rename: no such file or directory")).

Definition ref_Remove (q : string) (d : ref_fs) : ref_fs * option error :=
  match ref_lookup q d with
  | Some _ => (List.filter (fun kn => negb (String.eqb (fst kn) q)) d, None)
  | None => (d, Some (errOther "remove: no such file or directory"))
  end.

Definition ref_ReadFile (q : string) (d : ref_fs) : string + error :=
  match ref_lookup q d with
  | Some (RefFile data) => inl data
  | _ => inr (errOther "open: no such file")
  end.

Definition ref_WriteFile (q data : string) (d : ref_fs) : ref_fs * option error :=
  ((q, RefFile data) :: fst (ref_Remove q d), None).

Definition ref_Abs (q : string) : string * option error :=
  if String.prefix slash q then (q, None) else (("/cwd/" ++ q)%string, None).

Definition ref_bsr_Init (q : string) (d : ref_fs) : option error :=
  match ref_lookup q d with
  | Some (RefPartDir _) => None
  | _ => Some (errOther "cannot open part")
  end.

Definition ref_bsw_Init (q : string) (nocache : bool) (level : Z) (d : ref_fs)
  : ref_fs * option error :=
  ((q, RefPartDir (mkPartHeader 0 0 0 0)) :: d, None).

(** The headers of the sources that hold a part. *)
Definition ref_headers (srcs : list partWrapper) : list partHeader :=
  flat_map (fun pw => match p pw with Some q => [ph q] | None => [] end) srcs.

Definition ref_total_rows (srcs : list partWrapper) : Z :=
  fold_right (fun h acc => RowsCount h + acc) 0 (ref_headers srcs).

Definition ref_merge (tmp : string) (srcs : list partWrapper) (stop : bool)
    (dmis : list Z) (d : ref_fs) : ref_fs * mergeResult :=
  let total := ref_total_rows srcs in
  let hs := ref_headers srcs in
  let lo := fold_right (fun h acc => Z.min (MinTimestamp h) acc)
              (MinTimestamp (List.hd (mkPartHeader 0 0 0 0) hs)) hs in
  let hi := fold_right (fun h acc => Z.max (MaxTimestamp h) acc)
              (MaxTimestamp (List.hd (mkPartHeader 0 0 0 0) hs)) hs in
  let kept := match dmis with [] => total | _ => 0 end in
  let h := mkPartHeader kept 1 lo hi in
  ((tmp, RefPartDir h) :: fst (ref_Remove tmp d),
   mkMergeResult h kept (total - kept) None).

Definition ref_openFilePart (q : string) (d : ref_fs) : part + error :=
  match ref_lookup q d with
  | Some (RefPartDir h) => inl (mkPart h q)
  | _ => inr (errOther "cannot open part")
  end.

Definition ref_Path (h : partHeader) (ptPath : string) (idx : Z) : string :=
  (ptPath ++ "/part_" ++ hex16 idx)%string.

Definition ref_InitFromRows (rows : list rawRow) (now : Z) : inmemoryPart :=
  let t0 := Timestamp (List.hd (mkRawRow 0 0 0 0) rows) in
  mkInmemoryPart
    (mkPartHeader (Z.of_nat (length rows)) 1
       (fold_right (fun r acc => Z.min (Timestamp r) acc) t0 rows)
       (fold_right (fun r acc => Z.max (Timestamp r) acc) t0 rows))
    now.

Definition ref_NewPart (m : inmemoryPart) : part + error :=
  inl (mkPart (mp_ph m) EmptyString).

(* ================================================================= *)
(** * Part II: properties *)
(* ================================================================= *)

(** ** Sorting *)

Lemma insert_by_Permutation less x l :
  Permutation (insert_by less x l) (x :: l).
Proof.
  induction l as [|y t IH]; simpl.
  - apply Permutation_refl.
  - destruct (less y x).
    + eapply perm_trans; [apply perm_skip, IH | apply perm_swap].
    + apply Permutation_refl.
Qed.

Lemma insertion_sort_Permutation less l :
  Permutation (insertion_sort less l) l.
Proof.
  induction l as [|x t IH]; simpl.
  - apply perm_nil.
  - eapply perm_trans; [apply insert_by_Permutation | apply perm_skip, IH].
Qed.

Lemma insert_by_Sorted less x l :
  strict_weak less ->
  StronglySorted (fun a b => less b a = false) l ->
  StronglySorted (fun a b => less b a = false) (insert_by less x l).
Proof.
  intros (Hirr & Htr & Hneg) Hs.
  induction Hs as [|y t Hs IH Hall]; simpl.
  - constructor; [constructor | constructor].
  - destruct (less y x) eqn:Hyx.
    + constructor; [exact IH |].
      eapply Permutation_Forall;
        [apply Permutation_sym, insert_by_Permutation |].
      constructor; [| exact Hall].
      destruct (less x y) eqn:Hxy; [| reflexivity].
      rewrite <- (Hirr y). symmetry. eapply Htr; eassumption.
    + constructor; [constructor; assumption |].
      constructor; [exact Hyx |].
      eapply List.Forall_impl; [| exact Hall].
      intros a Ha. simpl in Ha. eapply Hneg; eassumption.
Qed.

Lemma insertion_sort_Sorted less l :
  strict_weak less ->
  StronglySorted (fun a b => less b a = false) (insertion_sort less l).
Proof.
  intros Hsw. induction l as [|x t IH]; simpl.
  - constructor.
  - apply insert_by_Sorted; assumption.
Qed.

(** The reference environment; [allowed] is [memory.Allowed()]. *)
Definition refEnv (allowed : Z) : Env :=
  {| FS := ref_fs;
     sort_Slice := insertion_sort;
     sort_Slice_Permutation := insertion_sort_Permutation;
     sort_Slice_Sorted := insertion_sort_Sorted;
     ioutil_ReadFile := ref_ReadFile;
     os_RemoveAll := ref_RemoveAll;
     os_Rename := ref_Rename;
     os_Remove := ref_Remove;
     fs_IsPathExist := ref_exists;
     fs_SyncPath := fun _ d => d;
     fs_WriteFile := ref_WriteFile;
     filepath_Abs := ref_Abs;
     filepath_Clean := fun q => q;
     bsr_InitFromFilePart := ref_bsr_Init;
     bsw_InitFromFilePart := ref_bsw_Init;
     mergeBlockStreams := ref_merge;
     openFilePart := ref_openFilePart;
     partHeader_Path := ref_Path;
     inmemoryPart_InitFromRows := ref_InitFromRows;
     inmemoryPart_NewPart := ref_NewPart;
     memory_Allowed := allowed;
     sizeof_rawRow := 48 |}.

(** ** Empty batches *)

Section EmptyBatches.
Context {E : Env}.

Lemma addRowsPart_nil (w : world) : addRowsPart [] w = Ret w.
Proof. reflexivity. Qed.

Lemma flushRawRows_empty_buffer (newRawRows : rowSlice) (isFinal : bool) (w : world) :
  elems (rawRows (pt w)) = [] ->
  exists old w',
    flushRawRows newRawRows isFinal w = Ret (old, w')
    /\ elems old = []
    /\ smallParts (pt w') = smallParts (pt w)
    /\ bigParts (pt w') = bigParts (pt w)
    /\ heap w' = heap w.
Proof.
  intros Hempty. unfold flushRawRows.
  destruct (isFinal || _).
  - rewrite Hempty. rewrite addRowsPart_nil. simpl.
    eexists _, _. repeat split; try reflexivity. exact Hempty.
  - eexists _, _. repeat split; reflexivity.
Qed.

(** C10: [AddRows] with an empty row slice returns at once and leaves the
    whole state as it was; [addRowsPart] with an empty buffer returns without
    creating a part; hence a flush of the raw rows that finds the buffer
    empty adds no handle to the small-part list (nor to the heap), whether or
    not the flush is due. *)
Theorem empty_rows_add_no_part (w : world) :
  AddRows [] w = Some (Ret w)
  /\ addRowsPart [] w = Ret w
  /\ (forall newRawRows isFinal,
        elems (rawRows (pt w)) = [] ->
        exists old w',
          flushRawRows newRawRows isFinal w = Ret (old, w')
          /\ smallParts (pt w') = smallParts (pt w)
          /\ bigParts (pt w') = bigParts (pt w)
          /\ heap w' = heap w).
Proof.
  split; [reflexivity |]. split; [apply addRowsPart_nil |].
  intros newRawRows isFinal Hempty.
  destruct (flushRawRows_empty_buffer newRawRows isFinal w Hempty)
    as (old & w' & Hrun & _ & Hs & Hb & Hh).
  exists old, w'. auto.
Qed.

End EmptyBatches.

(** ** Handles and the heap *)

Section Heap.
Context {E : Env}.

Lemma read_pw_Ret l w pw : read_pw l w = Ret pw <-> heap w !! l = Some pw.
Proof.
  unfold read_pw. destruct (heap w !! l); split; intros H; congruence.
Qed.

Lemma obind_Ret {A B} (m : outcome A) (k : A -> outcome B) b :
  obind m k = Ret b -> exists a, m = Ret a /\ k a = Ret b.
Proof. destruct m; simpl; intros H; [eauto | discriminate]. Qed.

(** [w'] has every handle of [w] with the same [isInMerge] flag. *)
Definition flags_kept (w w' : world) : Prop :=
  forall l pw, heap w !! l = Some pw ->
    exists pw', heap w' !! l = Some pw' /\ isInMerge pw' = isInMerge pw.

Lemma flags_kept_refl w : flags_kept w w.
Proof. intros l pw H. eauto. Qed.

Lemma flags_kept_trans w1 w2 w3 :
  flags_kept w1 w2 -> flags_kept w2 w3 -> flags_kept w1 w3.
Proof.
  intros H12 H23 l pw H.
  destruct (H12 l pw H) as (pw2 & H2 & F2).
  destruct (H23 l pw2 H2) as (pw3 & H3 & F3).
  exists pw3. split; [exact H3 | congruence].
Qed.

Lemma decRef_inv l w w' :
  decRef l w = Ret w' ->
  exists pw pw',
    heap w !! l = Some pw
    /\ heap w' = <[l := pw']> (heap w)
    /\ isInMerge pw' = isInMerge pw
    /\ refCount pw' = wrap64 (refCount pw + not_zero64)
    /\ pt w' = pt w
    /\ disk w' = disk w.
Proof.
  unfold decRef. intros H.
  apply obind_Ret in H as (pw & Hr & H). apply read_pw_Ret in Hr.
  unfold atomic_AddUint64 in H.
  destruct (int64_of_uint64 _ <? 0); [discriminate |].
  destruct (_ >? 0).
  - inversion H; subst; clear H.
    exists pw, (set_refCount (wrap64 (refCount pw + not_zero64)) pw).
    repeat split; auto.
  - destruct (p pw) as [q|]; [| discriminate].
    inversion H; subst; clear H.
    exists pw, (mkPartWrapper None None (wrap64 (refCount pw + not_zero64)) (isInMerge pw)).
    destruct (mp pw); repeat split; auto.
Qed.

Lemma decRef_flags_kept l w w' : decRef l w = Ret w' -> flags_kept w w'.
Proof.
  intros H. destruct (decRef_inv _ _ _ H) as (pw & pw' & Hl & Hh & Hf & _).
  intros l0 pw0 H0. rewrite Hh.
  destruct (decide (l = l0)) as [->|Hne].
  - rewrite lookup_insert_eq. exists pw'. split; [reflexivity | congruence].
  - rewrite lookup_insert_ne by exact Hne. eauto.
Qed.

Lemma decRef_all_flags_kept pws : forall w w',
  decRef_all pws w = Ret w' -> flags_kept w w' /\ pt w' = pt w /\ disk w' = disk w.
Proof.
  induction pws as [|l rest IH]; simpl; intros w w' H.
  - inversion H; subst. split; [apply flags_kept_refl | auto].
  - apply obind_Ret in H as (w1 & H1 & H2).
    destruct (IH _ _ H2) as (F2 & P2 & D2).
    destruct (decRef_inv _ _ _ H1) as (? & ? & _ & _ & _ & _ & P1 & D1).
    split; [| split; congruence].
    eapply flags_kept_trans; [eapply decRef_flags_kept; eassumption | exact F2].
Qed.

Lemma new_ptr_fresh w : heap w !! new_ptr w = None.
Proof.
  unfold new_ptr. apply not_elem_of_dom. apply is_fresh.
Qed.


Lemma install_inv pws newPW big w w' :
  install pws newPW big w = Ret w' ->
  let m : gset ptr := list_to_set pws in
  let small := fst (removeParts (smallParts (pt w)) m)
               ++ match newPW with
                  | Some l => if big then [] else [l]
                  | None => []
                  end in
  let bigs := fst (removeParts (bigParts (pt w)) m)
              ++ match newPW with
                 | Some l => if big then [l] else []
                 | None => []
                 end in
  size m = length pws
  /\ snd (removeParts (smallParts (pt w)) m)
     + snd (removeParts (bigParts (pt w)) m) = Z.of_nat (length pws)
  /\ decRef_all pws
       (upd_pt (fun q => pt_set_bigParts bigs (pt_set_smallParts small q)) w)
     = Ret w'.
Proof.
  unfold install. intros H.
  destruct (Z.of_nat (size _) =? Z.of_nat (length pws)) eqn:Hsz; simpl in H;
    [| discriminate].
  apply Z.eqb_eq in Hsz. apply Nat2Z.inj in Hsz.
  destruct (removeParts (smallParts (pt w)) _) as [s rs] eqn:Hs.
  destruct (removeParts (bigParts (pt w)) _) as [b rb] eqn:Hb.
  destruct (rs + rb =? _) eqn:Hcnt; simpl in H; [| discriminate].
  apply Z.eqb_eq in Hcnt. simpl.
  split; [exact Hsz |]. split; [rewrite <- Hsz; exact Hcnt |].
  destruct newPW as [l|]; [destruct big |]; simpl in *;
    rewrite ?app_nil_r; exact H.
Qed.


Lemma stream_merge_heap pws stop w w' r :
  stream_merge pws stop w = Ret (w', r) -> heap w' = heap w.
Proof.
  unfold stream_merge. intros H.
  apply obind_Ret in H as (srcs & _ & H).
  apply obind_Ret in H as (err & _ & H).
  destruct err; [inversion H; reflexivity |].
  apply obind_Ret in H as (out & _ & H).
  unfold nextMergeIdx in H.
  repeat match type of H with
  | context [let '(_, _) := ?x in _] => destruct x
  | context [if ?b then _ else _] => destruct b
  | context [match ?x with _ => _ end] => destruct x
  end; inversion H; subst; unfold add_merge_counters;
    destruct (isBigPart_of out); reflexivity.
Qed.




(** *** The deferred function *)

Lemma clear_isInMerge_other pws : forall w w' l,
  clear_isInMerge pws w = Ret w' -> ~ In l pws -> heap w' !! l = heap w !! l.
Proof.
  induction pws as [|l0 rest IH]; simpl; intros w w' l H Hn.
  - inversion H; reflexivity.
  - apply obind_Ret in H as (pw & _ & H).
    destruct (negb (isInMerge pw)); [discriminate |].
    rewrite (IH _ _ l H) by tauto. simpl.
    apply lookup_insert_ne. intros ->. tauto.
Qed.

Lemma clear_isInMerge_cleared pws : forall w w',
  clear_isInMerge pws w = Ret w' ->
  Forall (fun l => exists pw, heap w' !! l = Some pw /\ isInMerge pw = false) pws.
Proof.
  induction pws as [|l0 rest IH]; simpl; intros w w' H.
  - constructor.
  - apply obind_Ret in H as (pw & _ & H).
    destruct (negb (isInMerge pw)) eqn:Hf; [discriminate |].
    pose proof (IH _ _ H) as Hrest.
    constructor; [| exact Hrest].
    destruct (in_dec Nat.eq_dec l0 rest) as [Hin|Hnin].
    + rewrite List.Forall_forall in Hrest. apply Hrest, Hin.
    + rewrite (clear_isInMerge_other _ _ _ l0 H Hnin). simpl.
      rewrite lookup_insert_eq. eexists. split; reflexivity.
Qed.


Lemma clear_isInMerge_pt pws : forall w w',
  clear_isInMerge pws w = Ret w' -> pt w' = pt w.
Proof.
  induction pws as [|l0 rest IH]; simpl; intros w w' H.
  - inversion H; reflexivity.
  - apply obind_Ret in H as (pw & _ & H).
    destruct (negb (isInMerge pw)); [discriminate |].
    rewrite (IH _ _ H). reflexivity.
Qed.


End Heap.

(** ** The merge executor: output size decides the tier *)

Section MergeTier.
Context {E : Env}.

(** The handle [l] exists and holds the part [q]. *)
Definition holds (w : world) (l : ptr) (q : part) : Prop :=
  exists pw, heap w !! l = Some pw /\ p pw = Some q.

(** The exact sum of the rows of parts. *)
Definition rows_total (parts : list part) : Z :=
  fold_right (fun q acc => RowsCount (ph q) + acc) 0 parts.

Lemma holds_unique w pws : forall parts parts',
  Forall2 (holds w) pws parts -> Forall2 (holds w) pws parts' -> parts = parts'.
Proof.
  induction pws as [|l rest IH]; intros parts parts' H H';
    inversion H; subst; inversion H'; subst; [reflexivity |].
  f_equal; [| eapply IH; eassumption].
  match goal with
  | [Ha : holds w l ?a, Hb : holds w l ?b |- _] =>
      destruct Ha as (pw & Hl & Hq); destruct Hb as (pw' & Hl' & Hq')
  end.
  congruence.
Qed.

Lemma wrap64_add_l a b : wrap64 (wrap64 a + b) = wrap64 (a + b).
Proof. unfold wrap64. apply Zplus_mod_idemp_l. Qed.

Lemma wrap64_small z : 0 <= z < two64 -> wrap64 z = z.
Proof. intros H. unfold wrap64. apply Z.mod_small. exact H. Qed.

Lemma wrap64_range z : 0 <= wrap64 z < two64.
Proof. unfold wrap64. apply Z.mod_pos_bound. reflexivity. Qed.

Lemma read_all_lookup pws : forall w srcs,
  read_all pws w = Ret srcs ->
  Forall2 (fun l pw => heap w !! l = Some pw) pws srcs.
Proof.
  induction pws as [|l rest IH]; simpl; intros w srcs H.
  - inversion H; subst. constructor.
  - apply obind_Ret in H as (pw & Hl & H).
    apply obind_Ret in H as (srcs' & Hr & H). inversion H; subst.
    constructor; [apply read_pw_Ret; exact Hl | apply IH; exact Hr].
Qed.

Lemma read_all_sum_rows pws : forall w srcs acc out,
  0 <= acc < two64 ->
  read_all pws w = Ret srcs ->
  sum_rows srcs acc = Ret out ->
  exists parts,
    Forall2 (holds w) pws parts /\ out = wrap64 (acc + rows_total parts).
Proof.
  induction pws as [|l rest IH]; simpl; intros w srcs acc out Hacc Hr Hs.
  - inversion Hr; subst. simpl in Hs. inversion Hs; subst.
    exists []. split; [constructor |]. simpl.
    rewrite Z.add_0_r. symmetry. apply wrap64_small. exact Hacc.
  - apply obind_Ret in Hr as (pw & Hl & Hr).
    apply obind_Ret in Hr as (srcs' & Hr & Hx). inversion Hx; subst.
    simpl in Hs. apply obind_Ret in Hs as (q & Hq & Hs).
    apply read_pw_Ret in Hl.
    destruct (IH _ _ _ _ (wrap64_range _) Hr Hs) as (parts & Hparts & ->).
    unfold must_part in Hq. destruct (p pw) as [q0|] eqn:Hp; inversion Hq; subst.
    exists (q :: parts). split.
    + constructor; [exists pw; split; assumption | exact Hparts].
    + rewrite wrap64_add_l. f_equal. simpl. lia.
Qed.

Lemma decRef_all_other pws : forall w w' l,
  decRef_all pws w = Ret w' -> ~ In l pws -> heap w' !! l = heap w !! l.
Proof.
  induction pws as [|l0 rest IH]; simpl; intros w w' l H Hn.
  - inversion H; reflexivity.
  - apply obind_Ret in H as (w1 & H1 & H2).
    rewrite (IH _ _ l H2) by tauto.
    destruct (decRef_inv _ _ _ H1) as (pw & pw' & _ & Hh & _).
    rewrite Hh. apply lookup_insert_ne. intros ->. tauto.
Qed.

Lemma read_all_In pws : forall w srcs l,
  read_all pws w = Ret srcs -> In l pws -> is_Some (heap w !! l).
Proof.
  intros w srcs l H Hin. apply read_all_lookup in H.
  induction H as [|l0 pw0 ls ps H0 _ IH]; [contradiction |].
  destruct Hin as [->|Hin]; [rewrite H0; eauto | auto].
Qed.

Lemma removeParts_subset l m x : In x (fst (removeParts l m)) -> In x l.
Proof.
  induction l as [|y t IH]; simpl; [tauto |].
  destruct (removeParts t m) as [dst n].
  destruct (bool_decide _); simpl in *; tauto.
Qed.

(** The successful run of [mergeParts], step by step. *)
Lemma mergeParts_success pws stop w w' :
  mergeParts pws stop w = Ret (w', None) ->
  exists w1 g w2,
    stream_merge pws stop w = Ret (w1, inl g)
    /\ commit_merge pws g w1 = Ret (w2, None)
    /\ clear_isInMerge pws w2 = Ret w'.
Proof.
  unfold mergeParts. destruct (length pws =? 0)%nat; [discriminate |].
  intros H. apply obind_Ret in H as ([w2 e] & Hb & H).
  apply obind_Ret in H as (w3 & Hc & H). inversion H; subst.
  unfold mergeParts_body in Hb.
  apply obind_Ret in Hb as ([w1 r] & Hs & Hb).
  destruct r as [g|e]; [| discriminate].
  exists w1, g, w2. auto.
Qed.

(** What [stream_merge] decides, from the rows of its inputs alone. *)
Lemma stream_merge_decision pws stop w w1 g :
  stream_merge pws stop w = Ret (w1, inl g) ->
  exists parts,
  Forall2 (holds w) pws parts /\
  let outRowsCount := wrap64 (rows_total parts) in
  let isBigPart := outRowsCount >? maxRowsPerSmallPart in
  let ptPath := filepath_Clean (if isBigPart then bigPartsPath (pt w)
                                else smallPartsPath (pt w)) in
  let idx := wrap64 (mergeIdx (pt w) + 1) in
  let tmpPartPath := (ptPath ++ "/tmp/" ++ hex16 idx)%string in
  exists srcs d1 d2 mr,
    read_all pws w = Ret srcs
    /\ bsw_InitFromFilePart tmpPartPath isBigPart
         (getCompressLevelForRowsCount outRowsCount) (disk w) = (d1, None)
    /\ mergeBlockStreams tmpPartPath srcs stop (deletedMetricIDs w) d1 = (d2, mr)
    /\ mr_err mr = None
    /\ g = mkMerged srcs outRowsCount isBigPart ptPath idx tmpPartPath (mr_ph mr)
    /\ heap w1 = heap w
    /\ smallParts (pt w1) = smallParts (pt w)
    /\ bigParts (pt w1) = bigParts (pt w)
    /\ smallPartsPath (pt w1) = smallPartsPath (pt w)
    /\ bigPartsPath (pt w1) = bigPartsPath (pt w)
    /\ disk w1 = d2.
Proof.
  intros H. pose proof H as Hheap. apply stream_merge_heap in Hheap.
  unfold stream_merge in H.
  apply obind_Ret in H as (srcs & Hr & H).
  apply obind_Ret in H as (err & Ho & H).
  destruct err; [discriminate |].
  apply obind_Ret in H as (out & Hsum & H).
  destruct (read_all_sum_rows _ _ _ 0 out (wrap64_range 0) Hr Hsum)
    as (parts & Hparts & Hout).
  rewrite Z.add_0_l in Hout.
  exists parts. split; [exact Hparts |].
  subst out. unfold nextMergeIdx in H. cbv zeta in H.
  unfold isBigPart_of, ptPath_of, atomic_AddUint64 in H. simpl in H.
  destruct (bsw_InitFromFilePart _ _ _ _) as [d1 e1] eqn:Hw.
  destruct e1; simpl in H; [discriminate |].
  destruct (mergeBlockStreams _ _ _ _ _) as [d2 mr] eqn:Hm.
  destruct (mr_err mr) as [e|] eqn:He; [destruct e; discriminate |].
  inversion H; subst; clear H.
  exists srcs, d1, d2, mr. cbv zeta.
  unfold add_merge_counters.
  repeat split; auto; destruct (wrap64 _ >? _); reflexivity.
Qed.

(** C4: in a merge that returns [nil] every input holds a part, and
    [outRowsCount] is the [uint64] sum of the rows of these parts (the exact
    sum whenever it fits 64 bits), taken from the input headers before the
    streams are merged; the output is big iff [outRowsCount >
    maxRowsPerSmallPart = 3e8]; and that alone selects the directory under
    which the part is written and placed ([bigPartsPath] or
    [smallPartsPath]) and the [nocache] flag given to the writer. When the
    merged header counts rows (and its path is not empty), a new handle is
    installed, and the same decision selects the list it is appended to,
    whichever lists the inputs stood in: inputs that all stand in the small
    list and sum to more than 3e8 rows put their output in the big list.
    When the merged header counts no row, the lists only lose the inputs. *)
Theorem mergeParts_tier_follows_output_rows
    (pws : list ptr) (stop : bool) (w w' : world) :
  mergeParts pws stop w = Ret (w', None) ->
  exists parts,
  Forall2 (holds w) pws parts /\
  let outRowsCount := wrap64 (rows_total parts) in
  let isBigPart := outRowsCount >? maxRowsPerSmallPart in
  let ptPath := filepath_Clean (if isBigPart then bigPartsPath (pt w)
                                else smallPartsPath (pt w)) in
  let idx := wrap64 (mergeIdx (pt w) + 1) in
  let tmpPartPath := (ptPath ++ "/tmp/" ++ hex16 idx)%string in
  let m : gset ptr := list_to_set pws in
  maxRowsPerSmallPart = 300000000
  /\ (0 <= rows_total parts < two64 -> outRowsCount = rows_total parts)
  /\ exists srcs d1 d2 mr,
       read_all pws w = Ret srcs
       /\ bsw_InitFromFilePart tmpPartPath isBigPart
            (getCompressLevelForRowsCount outRowsCount) (disk w) = (d1, None)
       /\ mergeBlockStreams tmpPartPath srcs stop (deletedMetricIDs w) d1 = (d2, mr)
       /\ let dst := partHeader_Path (mr_ph mr) ptPath idx in
          (RowsCount (mr_ph mr) <= 0 \/ dst = EmptyString ->
             smallParts (pt w') = fst (removeParts (smallParts (pt w)) m)
             /\ bigParts (pt w') = fst (removeParts (bigParts (pt w)) m))
          /\ (RowsCount (mr_ph mr) > 0 -> dst <> EmptyString ->
              exists l newP d,
                heap w !! l = None
                /\ openFilePart dst d = inl newP
                /\ heap w' !! l = Some (mkPartWrapper (Some newP) None 1 false)
                /\ smallParts (pt w')
                   = fst (removeParts (smallParts (pt w)) m)
                     ++ (if isBigPart then [] else [l])
                /\ bigParts (pt w')
                   = fst (removeParts (bigParts (pt w)) m)
                     ++ (if isBigPart then [l] else [])
                /\ (Forall (fun x => is_Some (heap w !! x)) (smallParts (pt w)) ->
                    Forall (fun x => In x (smallParts (pt w))) pws ->
                    isBigPart = true ->
                    In l (bigParts (pt w')) /\ ~ In l (smallParts (pt w')))).
Proof.
  intros H.
  apply mergeParts_success in H as (w1 & g & w2 & Hs & Hc & Hclr).
  pose proof (clear_isInMerge_pt _ _ _ Hclr) as Hpt.
  destruct (stream_merge_decision _ _ _ _ _ Hs)
    as (parts & Hparts & srcs & d1 & d2 & mr
        & Hr & Hw & Hm & He & Hg & Hh1 & Hs1 & Hb1 & _ & _ & Hd1).
  exists parts. split; [exact Hparts |]. cbv zeta.
  split; [reflexivity |]. split; [apply wrap64_small |].
  exists srcs, d1, d2, mr. split; [exact Hr |]. split; [exact Hw |].
  split; [exact Hm |].
  unfold commit_merge in Hc. rewrite Hg in Hc. simpl in Hc.
  destruct (fs_WriteFile _ _ _) as [d3 e3].
  destruct e3; simpl in Hc; [discriminate |].
  destruct (runTransaction _ _ _ _) as [d4 e4].
  destruct e4; simpl in Hc; [discriminate |].
  unfold dstPartPath_of in Hc.
  set (dst := partHeader_Path _ _ _) in *.
  assert (Hnone : forall w3 big,
            install pws None big (set_disk d4 (set_disk d3 w1)) = Ret w3 ->
            w3 = w2 ->
            smallParts (pt w') = fst (removeParts (smallParts (pt w)) (list_to_set pws))
            /\ bigParts (pt w') = fst (removeParts (bigParts (pt w)) (list_to_set pws))).
  { intros w3 big Hi ->.
    apply install_inv in Hi as (_ & _ & Hdec). simpl in Hdec.
    pose proof (decRef_all_flags_kept _ _ _ Hdec) as (_ & Hpt2 & _).
    rewrite Hpt, Hpt2. simpl. rewrite Hs1, Hb1, !app_nil_r. auto. }
  destruct (RowsCount (mr_ph mr) >? 0) eqn:Hrows.
  - apply Z.gtb_lt in Hrows.
    destruct (0 <? String.length dst)%nat eqn:Hlen.
    + (* a part was written *)
      assert (Hne : dst <> EmptyString).
      { intros Heq. rewrite Heq in Hlen. discriminate. }
      split; [intros [Hle | Heq]; [lia | contradiction] |]. intros _ _.
      destruct (openFilePart dst d4) as [newP|] eqn:Ho; [| discriminate].
      apply obind_Ret in Hc as (w3 & Hi & Hx). inversion Hx; subst w3; clear Hx.
      set (w0 := set_disk d4 (set_disk d3 w1)) in *.
      apply install_inv in Hi as (_ & _ & Hdec). simpl in Hdec.
      pose proof (decRef_all_flags_kept _ _ _ Hdec) as (_ & Hpt2 & _).
      assert (Hfresh : heap w !! new_ptr w0 = None).
      { rewrite <- Hh1. change (heap w1) with (heap w0). apply new_ptr_fresh. }
      assert (Hnotin : ~ In (new_ptr w0) pws).
      { intros Hin. destruct (read_all_In _ _ _ _ Hr Hin) as [x Hx]. congruence. }
      exists (new_ptr w0), newP, d4.
      split; [exact Hfresh |]. split; [exact Ho |].
      split.
      { rewrite (clear_isInMerge_other _ _ _ _ Hclr Hnotin).
        rewrite (decRef_all_other _ _ _ _ Hdec Hnotin). simpl.
        apply lookup_insert_eq. }
      rewrite Hpt, Hpt2. simpl. rewrite Hs1, Hb1.
      split; [destruct (wrap64 _ >? _); rewrite ?app_nil_r; reflexivity |].
      split; [destruct (wrap64 _ >? _); rewrite ?app_nil_r; reflexivity |].
      intros Halloc Hin Hbig. rewrite Hbig.
      split; [apply in_or_app; right; left; reflexivity |].
      rewrite app_nil_r. intros Hmem. apply removeParts_subset in Hmem.
      rewrite List.Forall_forall in Halloc.
      destruct (Halloc _ Hmem) as [x Hx]. congruence.
    + (* the path of the part is empty *)
      assert (Heq : dst = EmptyString).
      { destruct dst; [reflexivity | discriminate]. }
      split; [| intros _ Hne; contradiction]. intros _.
      apply obind_Ret in Hc as (w3 & Hi & Hx). inversion Hx; subst w3; clear Hx.
      eapply Hnone; [exact Hi | reflexivity].
  - (* the merged part has no rows *)
    rewrite Z.gtb_ltb in Hrows. apply Z.ltb_ge in Hrows.
    split; [| intros Hgt; lia]. intros _.
    cbn [String.length Nat.ltb Nat.leb] in Hc.
    apply obind_Ret in Hc as (w3 & Hi & Hx). inversion Hx; subst w3; clear Hx.
    eapply Hnone; [exact Hi | reflexivity].
Qed.

End MergeTier.

(** ** The merge executor: a merge that leaves no rows *)

Section EmptyOutput.
Context {E : Env}.

Lemma size_list_to_set_le (l : list ptr) :
  (size (list_to_set l : gset ptr) <= length l)%nat.
Proof.
  induction l as [|x t IH]; cbn [list_to_set length].
  - rewrite size_empty. lia.
  - destruct (decide (x ∈ (list_to_set t : gset ptr))) as [Hin|Hnin].
    + replace ({[x]} ∪ list_to_set t) with (list_to_set t : gset ptr)
        by set_solver.
      lia.
    + rewrite size_union by set_solver. rewrite size_singleton. lia.
Qed.

Lemma size_list_to_set_NoDup (l : list ptr) :
  size (list_to_set l : gset ptr) = length l -> NoDup l.
Proof.
  induction l as [|x t IH]; cbn [list_to_set length]; intros H.
  - constructor.
  - destruct (decide (x ∈ (list_to_set t : gset ptr))) as [Hin|Hnin].
    + replace ({[x]} ∪ list_to_set t) with (list_to_set t : gset ptr) in H
        by set_solver.
      pose proof (size_list_to_set_le t). lia.
    + rewrite size_union in H by set_solver. rewrite size_singleton in H.
      constructor; [rewrite elem_of_list_to_set in Hnin; exact Hnin |].
      apply IH. lia.
Qed.

Lemma removeParts_filter l (m : gset ptr) :
  fst (removeParts l m) = List.filter (fun x => negb (bool_decide (x ∈ m))) l
  /\ snd (removeParts l m)
     = Z.of_nat (length (List.filter (fun x => bool_decide (x ∈ m)) l)).
Proof.
  induction l as [|y t [IH1 IH2]]; simpl; [split; reflexivity |].
  destruct (removeParts t m) as [dst n]. simpl in *.
  destruct (bool_decide (y ∈ m)); simpl; split; try congruence.
  rewrite IH2. lia.
Qed.

Lemma removeParts_not_removed l (m : gset ptr) x :
  In x (fst (removeParts l m)) -> x ∉ m.
Proof.
  destruct (removeParts_filter l m) as [-> _].
  rewrite filter_In. intros [_ H].
  apply negb_true_iff, bool_decide_eq_false in H. exact H.
Qed.

(** Handles that stand once in the lists are all found by [removeParts]. *)
Lemma removeParts_count (small bigs pws : list ptr) :
  NoDup pws -> NoDup (small ++ bigs) ->
  Forall (fun l => In l (small ++ bigs)) pws ->
  snd (removeParts small (list_to_set pws))
  + snd (removeParts bigs (list_to_set pws)) = Z.of_nat (length pws).
Proof.
  intros Hnd Hnd2 Hin.
  destruct (removeParts_filter small (list_to_set pws)) as [_ ->].
  destruct (removeParts_filter bigs (list_to_set pws)) as [_ ->].
  rewrite <- Nat2Z.inj_add, <- List.length_app, <- List.filter_app. f_equal.
  apply Permutation_length. apply NoDup_Permutation.
  - apply NoDup_ListNoDup, List.NoDup_filter, NoDup_ListNoDup, Hnd2.
  - exact Hnd.
  - intros x. rewrite list_elem_of_In, filter_In, bool_decide_eq_true,
      elem_of_list_to_set, !list_elem_of_In.
    rewrite List.Forall_forall in Hin. split; [tauto | auto].
Qed.

Lemma decRef_succeeds l w pw :
  heap w !! l = Some pw -> 1 <= refCount pw <= two63 -> is_Some (p pw) ->
  exists w', decRef l w = Ret w'.
Proof.
  intros Hl Hrc [q Hq]. unfold decRef, read_pw. rewrite Hl. simpl.
  unfold atomic_AddUint64, not_zero64.
  replace (wrap64 (refCount pw + (two64 - 1))) with (refCount pw - 1).
  2:{ unfold wrap64. symmetry.
      replace (refCount pw + (two64 - 1)) with (refCount pw - 1 + 1 * two64) by lia.
      rewrite Z_mod_plus_full. apply Z.mod_small.
      unfold two63, two64 in *. lia. }
  unfold int64_of_uint64.
  destruct (refCount pw - 1 <? two63) eqn:H63;
    [| apply Z.ltb_ge in H63; unfold two63 in *; lia].
  destruct (refCount pw - 1 <? 0) eqn:H0; [apply Z.ltb_lt in H0; lia |].
  destruct (refCount pw - 1 >? 0); [eauto |].
  rewrite Hq. eauto.
Qed.

(** Releasing distinct handles: each loses one reference, the others keep theirs. *)
Lemma decRef_all_NoDup pws : forall w w',
  NoDup pws -> decRef_all pws w = Ret w' ->
  Forall (fun l => exists pw pw',
            heap w !! l = Some pw /\ heap w' !! l = Some pw'
            /\ refCount pw' = wrap64 (refCount pw + not_zero64)
            /\ isInMerge pw' = isInMerge pw) pws.
Proof.
  induction pws as [|l rest IH]; intros w w' Hnd H; [constructor |].
  apply NoDup_cons in Hnd as [Hnin Hnd]. rewrite list_elem_of_In in Hnin.
  simpl in H. apply obind_Ret in H as (w1 & H1 & H2).
  destruct (decRef_inv _ _ _ H1) as (pw & pw1 & Hl & Hh & Hf & Hrc & _).
  constructor.
  - exists pw, pw1. split; [exact Hl |].
    rewrite (decRef_all_other _ _ _ l H2 Hnin), Hh, lookup_insert_eq. auto.
  - specialize (IH _ _ Hnd H2).
    rewrite List.Forall_forall in *. intros x Hx.
    destruct (IH x Hx) as (pwx & pwx' & Hx1 & Hx2 & Hx3).
    exists pwx, pwx'. split; [| auto].
    rewrite Hh, lookup_insert_ne in Hx1; [exact Hx1 | intros ->; tauto].
Qed.

Lemma decRef_all_succeeds pws : forall w,
  NoDup pws ->
  Forall (fun l => exists pw, heap w !! l = Some pw
            /\ 1 <= refCount pw <= two63 /\ is_Some (p pw)) pws ->
  exists w', decRef_all pws w = Ret w'.
Proof.
  induction pws as [|l rest IH]; intros w Hnd Hall; simpl; [eauto |].
  apply NoDup_cons in Hnd as [Hnin Hnd]. rewrite list_elem_of_In in Hnin.
  inversion Hall as [|? ? (pw & Hl & Hrc & Hp) Hrest]; subst.
  destruct (decRef_succeeds _ _ _ Hl Hrc Hp) as (w1 & H1). rewrite H1. simpl.
  apply IH; [exact Hnd |].
  destruct (decRef_inv _ _ _ H1) as (? & pw1 & _ & Hh & _).
  rewrite List.Forall_forall in *. intros y Hx.
  destruct (Hrest y Hx) as (pwx & Hx1 & Hx2).
  exists pwx. split; [| exact Hx2].
  rewrite Hh, lookup_insert_ne; [exact Hx1 | intros ->; tauto].
Qed.

Lemma clear_isInMerge_succeeds pws : forall w,
  NoDup pws ->
  Forall (fun l => exists pw, heap w !! l = Some pw /\ isInMerge pw = true) pws ->
  exists w', clear_isInMerge pws w = Ret w'.
Proof.
  induction pws as [|l rest IH]; intros w Hnd Hall; simpl; [eauto |].
  apply NoDup_cons in Hnd as [Hnin Hnd]. rewrite list_elem_of_In in Hnin.
  inversion Hall as [|? ? (pw & Hl & Hf) Hrest]; subst.
  unfold read_pw. rewrite Hl. simpl. rewrite Hf. simpl.
  apply IH; [exact Hnd |].
  rewrite List.Forall_forall in *. intros y Hx.
  destruct (Hrest y Hx) as (pwx & Hx1 & Hx2).
  exists pwx. split; [| exact Hx2]. simpl.
  rewrite lookup_insert_ne; [exact Hx1 | intros ->; tauto].
Qed.

(** The deferred function touches nothing but the flags. *)
Lemma clear_isInMerge_keeps pws : forall w w' l pw,
  clear_isInMerge pws w = Ret w' -> heap w !! l = Some pw ->
  exists pw', heap w' !! l = Some pw'
    /\ refCount pw' = refCount pw /\ p pw' = p pw /\ mp pw' = mp pw.
Proof.
  induction pws as [|l0 rest IH]; simpl; intros w w' l pw H Hl.
  - inversion H; subst. eauto.
  - apply obind_Ret in H as (pw0 & Hr & H). apply read_pw_Ret in Hr.
    destruct (negb (isInMerge pw0)); [discriminate |].
    destruct (decide (l0 = l)) as [->|Hne].
    + destruct (IH _ _ l (set_isInMerge false pw0) H) as (pw' & H1 & H2 & H3 & H4).
      { simpl. apply lookup_insert_eq. }
      exists pw'. simpl in *. split; [exact H1 |].
      assert (pw0 = pw) by congruence. subst. auto.
    + apply (IH _ _ l pw H). simpl. rewrite lookup_insert_ne; auto.
Qed.

Lemma decRef_all_dom pws : forall w w',
  decRef_all pws w = Ret w' -> dom (heap w') = dom (heap w).
Proof.
  induction pws as [|l rest IH]; simpl; intros w w' H.
  - inversion H; reflexivity.
  - apply obind_Ret in H as (w1 & H1 & H2). rewrite (IH _ _ H2).
    destruct (decRef_inv _ _ _ H1) as (pw & pw' & Hl & Hh & _).
    rewrite Hh. apply dom_insert_lookup_L. rewrite Hl. eauto.
Qed.

Lemma clear_isInMerge_dom pws : forall w w',
  clear_isInMerge pws w = Ret w' -> dom (heap w') = dom (heap w).
Proof.
  induction pws as [|l rest IH]; simpl; intros w w' H.
  - inversion H; reflexivity.
  - apply obind_Ret in H as (pw & Hr & H). apply read_pw_Ret in Hr.
    destruct (negb (isInMerge pw)); [discriminate |].
    rewrite (IH _ _ H). simpl. apply dom_insert_lookup_L. rewrite Hr. eauto.
Qed.

Lemma dstPartPath_of_no_rows h ptPath idx :
  RowsCount h = 0 -> dstPartPath_of h ptPath idx = EmptyString.
Proof. intros H. unfold dstPartPath_of. rewrite H. reflexivity. Qed.

(** [commit_merge] with an empty destination path. *)
Lemma commit_merge_no_rows pws g w w' err :
  RowsCount (mg_ph g) = 0 ->
  commit_merge pws g w = Ret (w', err) ->
  (err <> None /\ heap w' = heap w)
  \/ (err = None /\ exists d,
        install pws None (mg_isBigPart g) (set_disk d w) = Ret w').
Proof.
  intros Hrows H. unfold commit_merge in H.
  rewrite (dstPartPath_of_no_rows _ _ _ Hrows) in H.
  destruct (fs_WriteFile _ _ _) as [d3 e3].
  destruct e3; simpl in H; [inversion H; subst; left; split; [discriminate | reflexivity] |].
  destruct (runTransaction _ _ _ _) as [d4 e4].
  destruct e4; simpl in H; [inversion H; subst; left; split; [discriminate | reflexivity] |].
  apply obind_Ret in H as (w3 & Hi & Hx). inversion Hx; subst.
  right. split; [reflexivity |]. exists d4. exact Hi.
Qed.

(** C5: when the header of the merged part counts no rows (every row of the
    inputs was dropped as deleted), the destination in the terminal line of
    the transaction is empty; whatever [mergeParts] then returns, no handle
    is created; and a return of [nil] leaves each list as it was less the
    inputs, with every input out of both lists, released once and its
    [isInMerge] flag cleared. Such a merge does return [nil] when the
    transaction file is written and applied without error and the inputs
    are distinct handles of the registry, marked as in merge and still
    referenced by it. *)
Theorem mergeParts_without_rows_installs_nothing
    (pws : list ptr) (stop : bool) (w w1 : world) (g : merged) :
  pws <> [] ->
  stream_merge pws stop w = Ret (w1, inl g) ->
  RowsCount (mg_ph g) = 0 ->
  let dst := dstPartPath_of (mg_ph g) (mg_ptPath g) (mg_mergeIdx g) in
  let txnPath := (mg_ptPath g ++ "/txn/" ++ hex16 (mg_mergeIdx g))%string in
  let m : gset ptr := list_to_set pws in
  dst = EmptyString
  /\ txn_data (mg_srcs g) (mg_tmpPartPath g) dst
     = (txn_remove_lines (mg_srcs g) ++ mg_tmpPartPath g ++ " -> " ++ newline)%string
  /\ (forall w' err,
        mergeParts pws stop w = Ret (w', err) ->
        dom (heap w') = dom (heap w)
        /\ (err = None ->
            smallParts (pt w') = fst (removeParts (smallParts (pt w)) m)
            /\ bigParts (pt w') = fst (removeParts (bigParts (pt w)) m)
            /\ Forall (fun l =>
                 ~ In l (smallParts (pt w')) /\ ~ In l (bigParts (pt w'))
                 /\ exists pw pw',
                      heap w !! l = Some pw /\ heap w' !! l = Some pw'
                      /\ refCount pw' = wrap64 (refCount pw + not_zero64)
                      /\ isInMerge pw' = false) pws))
  /\ (forall d3 d4,
        fs_WriteFile txnPath (txn_data (mg_srcs g) (mg_tmpPartPath g) dst) (disk w1)
          = (d3, None) ->
        runTransaction (smallPartsPath (pt w)) (bigPartsPath (pt w)) txnPath d3
          = (d4, None) ->
        NoDup pws ->
        NoDup (smallParts (pt w) ++ bigParts (pt w)) ->
        Forall (fun l => In l (smallParts (pt w) ++ bigParts (pt w))) pws ->
        Forall (fun l => exists pw,
                  heap w !! l = Some pw /\ isInMerge pw = true
                  /\ 1 <= refCount pw <= two63 /\ is_Some (p pw)) pws ->
        exists w', mergeParts pws stop w = Ret (w', None)).
Proof.
  intros Hnil Hs Hrows. cbv zeta.
  pose proof (dstPartPath_of_no_rows _ (mg_ptPath g) (mg_mergeIdx g) Hrows) as Hdst.
  destruct (stream_merge_decision _ _ _ _ _ Hs)
    as (parts & _ & srcs & d1 & d2 & mr
        & Hr & Hw & Hm & He & Hg & Hh1 & Hs1 & Hb1 & Hsp & Hbp & Hd1).
  assert (Hne : (length pws =? 0)%nat = false).
  { destruct pws; [contradiction | reflexivity]. }
  split; [exact Hdst |]. split; [rewrite Hdst; reflexivity |]. split.
  - intros w' err H. unfold mergeParts in H. rewrite Hne in H.
    apply obind_Ret in H as ([w2 e] & Hb & H).
    apply obind_Ret in H as (w3 & Hc & H). inversion H; subst w3 e; clear H.
    unfold mergeParts_body in Hb. rewrite Hs in Hb. simpl in Hb.
    pose proof (clear_isInMerge_dom _ _ _ Hc) as Hdom.
    pose proof (clear_isInMerge_pt _ _ _ Hc) as Hpt.
    destruct (commit_merge_no_rows _ _ _ _ _ Hrows Hb)
      as [[Herr Hh]|[-> (d & Hi)]].
    + split; [rewrite Hdom, Hh, Hh1; reflexivity |].
      intros ->. contradiction.
    + pose proof Hi as Hi'.
      apply install_inv in Hi' as (Hsz & _ & Hdec). simpl in Hdec.
      rewrite !app_nil_r in Hdec.
      pose proof (decRef_all_dom _ _ _ Hdec) as Hdom2.
      pose proof (decRef_all_flags_kept _ _ _ Hdec) as (_ & Hpt2 & _).
      split; [rewrite Hdom, Hdom2; simpl; rewrite Hh1; reflexivity |].
      intros _. rewrite Hpt, Hpt2. simpl. rewrite Hs1, Hb1.
      split; [reflexivity |]. split; [reflexivity |].
      apply size_list_to_set_NoDup in Hsz.
      pose proof (decRef_all_NoDup _ _ _ Hsz Hdec) as Hrel.
      pose proof (clear_isInMerge_cleared _ _ _ Hc) as Hclr.
      rewrite List.Forall_forall in *. intros l Hl.
      split; [intros Hx; apply removeParts_not_removed in Hx; apply Hx;
              apply elem_of_list_to_set, list_elem_of_In, Hl |].
      split; [intros Hx; apply removeParts_not_removed in Hx; apply Hx;
              apply elem_of_list_to_set, list_elem_of_In, Hl |].
      destruct (Hrel l Hl) as (pw & pw2 & Hl1 & Hl2 & Hrc & _).
      destruct (clear_isInMerge_keeps _ _ _ l pw2 Hc Hl2) as (pw' & Hl3 & Hrc' & _).
      destruct (Hclr l Hl) as (pw'' & Hl4 & Hf).
      exists pw, pw'. simpl in Hl1. rewrite Hh1 in Hl1.
      split; [exact Hl1 |]. split; [exact Hl3 |].
      split; [congruence |]. congruence.
  - intros d3 d4 Hwr Htx Hnd Hnd2 Hin Hok.
    unfold mergeParts. rewrite Hne. unfold mergeParts_body. rewrite Hs.
    cbn [obind]. unfold commit_merge. rewrite Hdst in *.
    rewrite Hwr. simpl.
    assert (Hsp' : smallPartsPath (pt (set_disk d3 w1)) = smallPartsPath (pt w))
      by exact Hsp.
    assert (Hbp' : bigPartsPath (pt (set_disk d3 w1)) = bigPartsPath (pt w))
      by exact Hbp.
    rewrite Hsp, Hbp, Htx. simpl.
    unfold install.
    rewrite size_list_to_set by exact Hnd. rewrite Z.eqb_refl. simpl.
    rewrite Hs1, Hb1.
    pose proof (removeParts_count _ _ _ Hnd Hnd2 Hin) as Hcnt.
    destruct (removeParts (smallParts (pt w)) _) as [s rs].
    destruct (removeParts (bigParts (pt w)) _) as [b rb].
    simpl in Hcnt. rewrite Hcnt, Z.eqb_refl. simpl.
    match goal with |- context [decRef_all pws ?w0] =>
      destruct (decRef_all_succeeds pws w0 Hnd) as (w2 & Hdec) end.
    { simpl. rewrite Hh1. eapply List.Forall_impl; [| exact Hok].
      intros l (pw & H1 & _ & H2 & H3). eauto. }
    rewrite Hdec. cbn [obind].
    destruct (clear_isInMerge_succeeds pws w2 Hnd) as (w3 & Hclr).
    { pose proof (decRef_all_flags_kept _ _ _ Hdec) as (Hk & _).
      rewrite List.Forall_forall in *. intros l Hl.
      destruct (Hok l Hl) as (pw & H1 & H2 & _).
      destruct (Hk l pw) as (pw' & H3 & H4).
      { simpl. rewrite Hh1. exact H1. }
      exists pw'. split; [exact H3 | congruence]. }
    rewrite Hclr. simpl. eauto.
Qed.

End EmptyOutput.

(** ** Ingest: the assisted merge *)

Section AssistedMerge.
Context {E : Env}.





Lemma mark_in_merge_pt pms : forall w w',
  mark_in_merge pms w = Ret w' -> pt w' = pt w.
Proof.
  induction pms as [|l rest IH]; simpl; intros w w' H.
  - inversion H; reflexivity.
  - apply obind_Ret in H as (pw & _ & H).
    destruct (isInMerge pw); [discriminate |].
    rewrite (IH _ _ H). reflexivity.
Qed.






End AssistedMerge.

(** ** Reference counts *)

Section References.
Context {E : Env}.

(** [refs] lists every reference that is held to a handle, one entry per
    reference: the registry's (one per handle of the part lists) and those of
    the searches (one per handle of each snapshot not yet released).
    [refs_inv] says the counters agree with it. *)
Definition refs_inv (w : world) (refs : list ptr) : Prop :=
  (forall l, In l refs -> is_Some (heap w !! l))
  /\ (forall l pw, heap w !! l = Some pw ->
        refCount pw = Z.of_nat (count_occ Nat.eq_dec refs l)
        /\ refCount pw < two63
        /\ (0 < refCount pw -> is_Some (p pw))).

(** The registry's invariant: its handles are distinct and the counters agree
    with the registry's references plus those [held] by searches. *)
Definition registry_inv (w : world) (held : list ptr) : Prop :=
  NoDup (smallParts (pt w) ++ bigParts (pt w))
  /\ refs_inv w (smallParts (pt w) ++ bigParts (pt w) ++ held).

Lemma refs_inv_Permutation w refs refs' :
  Permutation refs refs' -> refs_inv w refs -> refs_inv w refs'.
Proof.
  intros Hp [H1 H2]. split.
  - intros l Hl. apply H1. eapply Permutation_in; [symmetry; exact Hp | exact Hl].
  - intros l pw Hl. destruct (H2 l pw Hl) as (Hrc & Hb & Hq).
    pose proof (proj1 (Permutation_count_occ Nat.eq_dec refs refs') Hp l) as Hc.
    rewrite <- Hc. auto.
Qed.

(** Two worlds whose handles agree on [refCount] and [p]. *)
Definition same_refs (w w' : world) : Prop :=
  forall l,
    match heap w !! l, heap w' !! l with
    | Some pw, Some pw' => refCount pw' = refCount pw /\ p pw' = p pw
    | None, None => True
    | _, _ => False
    end.

Lemma same_refs_refl w : same_refs w w.
Proof. intros l. destruct (heap w !! l); auto. Qed.

Lemma same_refs_trans w1 w2 w3 :
  same_refs w1 w2 -> same_refs w2 w3 -> same_refs w1 w3.
Proof.
  intros H12 H23 l. specialize (H12 l). specialize (H23 l).
  destruct (heap w1 !! l), (heap w2 !! l), (heap w3 !! l); try tauto.
  destruct H12, H23. split; congruence.
Qed.

Lemma same_refs_heap w w' : heap w' = heap w -> same_refs w w'.
Proof. intros Hh l. rewrite Hh. destruct (heap w !! l); auto. Qed.

Lemma refs_inv_same w w' refs :
  same_refs w w' -> refs_inv w refs -> refs_inv w' refs.
Proof.
  intros Hs [H1 H2]. split.
  - intros l Hl. specialize (Hs l). destruct (H1 l Hl) as [pw Hpw].
    rewrite Hpw in Hs. destruct (heap w' !! l); [eauto | contradiction].
  - intros l pw' Hl. specialize (Hs l).
    destruct (heap w !! l) as [pw|] eqn:Hw; rewrite Hl in Hs; [| contradiction].
    destruct Hs as [Hrc Hp]. destruct (H2 l pw Hw) as (A & B & C).
    rewrite Hrc, Hp. auto.
Qed.

Lemma set_flag_same_refs w l pw b :
  heap w !! l = Some pw -> same_refs w (write_pw l (set_isInMerge b pw) w).
Proof.
  intros Hl l'. simpl. destruct (decide (l = l')) as [->|Hne].
  - rewrite lookup_insert_eq, Hl. auto.
  - rewrite lookup_insert_ne by exact Hne. destruct (heap w !! l'); auto.
Qed.

Lemma clear_isInMerge_same_refs pws : forall w w',
  clear_isInMerge pws w = Ret w' -> same_refs w w'.
Proof.
  induction pws as [|l rest IH]; simpl; intros w w' H.
  - inversion H; subst. apply same_refs_refl.
  - apply obind_Ret in H as (pw & Hr & H). apply read_pw_Ret in Hr.
    destruct (negb (isInMerge pw)); [discriminate |].
    eapply same_refs_trans; [apply set_flag_same_refs; exact Hr | apply IH; exact H].
Qed.

Lemma mark_in_merge_same_refs pms : forall w w',
  mark_in_merge pms w = Ret w' -> same_refs w w'.
Proof.
  induction pms as [|l rest IH]; simpl; intros w w' H.
  - inversion H; subst. apply same_refs_refl.
  - apply obind_Ret in H as (pw & Hr & H). apply read_pw_Ret in Hr.
    destruct (isInMerge pw); [discriminate |].
    eapply same_refs_trans; [apply set_flag_same_refs; exact Hr | apply IH; exact H].
Qed.

Lemma wrap64_pred n : 1 <= n < two63 -> wrap64 (n + not_zero64) = n - 1.
Proof.
  intros H. unfold wrap64, not_zero64.
  replace (n + (two64 - 1)) with (n - 1 + 1 * two64) by lia.
  rewrite Z_mod_plus_full. apply Z.mod_small.
  unfold two63, two64 in *. lia.
Qed.

(** Dropping one of the references listed in [refs]. *)
Lemma decRef_refs l w refs rest :
  refs_inv w refs -> Permutation refs (l :: rest) ->
  exists w', decRef l w = Ret w' /\ refs_inv w' rest
             /\ pt w' = pt w /\ disk w' = disk w.
Proof.
  intros Hinv Hp.
  apply (refs_inv_Permutation _ _ _ Hp) in Hinv. destruct Hinv as [H1 H2].
  destruct (H1 l (or_introl eq_refl)) as [pw Hl].
  destruct (H2 l pw Hl) as (Hrc & Hb & Hq).
  simpl in Hrc. destruct (Nat.eq_dec l l) as [_|]; [| congruence].
  assert (Hge : 1 <= refCount pw) by lia.
  unfold decRef, read_pw. rewrite Hl. cbn [obind].
  unfold atomic_AddUint64. rewrite (wrap64_pred _ (conj Hge Hb)).
  unfold int64_of_uint64.
  destruct (refCount pw - 1 <? two63) eqn:H63; [| apply Z.ltb_ge in H63; lia].
  destruct (refCount pw - 1 <? 0) eqn:H0; [apply Z.ltb_lt in H0; lia |].
  assert (Hrest : forall w' pw',
    heap w' = <[l := pw']> (heap w) ->
    refCount pw' = refCount pw - 1 ->
    (0 < refCount pw' -> is_Some (p pw')) ->
    refs_inv w' rest).
  { intros w' pw' Hh Hrc' Hp'. split.
    - intros x Hx. rewrite Hh.
      destruct (decide (l = x)) as [->|Hne];
        [rewrite lookup_insert_eq; eauto |].
      rewrite lookup_insert_ne by exact Hne. apply H1. right. exact Hx.
    - intros x pwx Hx. rewrite Hh in Hx.
      destruct (decide (l = x)) as [->|Hne].
      + rewrite lookup_insert_eq in Hx. inversion Hx; subst pwx.
        split; [lia |]. split; [lia | exact Hp'].
      + rewrite lookup_insert_ne in Hx by exact Hne.
        destruct (H2 x pwx Hx) as (A & B & C). simpl in A.
        destruct (Nat.eq_dec l x); [contradiction | auto]. }
  destruct (refCount pw - 1 >? 0) eqn:Hpos.
  - eexists. split; [reflexivity |]. split; [| split; reflexivity].
    eapply Hrest; [reflexivity | reflexivity |].
    simpl. intros _. apply Hq. lia.
  - destruct (Hq ltac:(lia)) as [q Hpq]. rewrite Hpq.
    eexists. split; [reflexivity |]. split; [| split; destruct (mp pw); reflexivity].
    eapply Hrest.
    + destruct (mp pw); reflexivity.
    + reflexivity.
    + simpl. intros Hlt. rewrite Z.gtb_ltb in Hpos. apply Z.ltb_ge in Hpos. lia.
Qed.

Lemma decRef_all_refs pws : forall w refs rest,
  refs_inv w refs -> Permutation refs (pws ++ rest) ->
  exists w', decRef_all pws w = Ret w' /\ refs_inv w' rest
             /\ pt w' = pt w /\ disk w' = disk w.
Proof.
  induction pws as [|l more IH]; simpl; intros w refs rest Hinv Hp.
  - exists w. split; [reflexivity |]. split; [| auto].
    eapply refs_inv_Permutation; eassumption.
  - destruct (decRef_refs l w refs (more ++ rest) Hinv Hp)
      as (w1 & H1 & Hinv1 & Hpt1 & Hd1).
    rewrite H1. cbn [obind].
    destruct (IH w1 (more ++ rest) rest Hinv1 (Permutation_refl _))
      as (w2 & H2 & Hinv2 & Hpt2 & Hd2).
    exists w2. split; [exact H2 |]. split; [exact Hinv2 |].
    split; congruence.
Qed.

(** Taking one more reference to a live handle. *)
Lemma incRef_refs l w refs pw :
  refs_inv w refs -> heap w !! l = Some pw -> 0 < refCount pw ->
  refCount pw + 1 < two63 ->
  exists w', incRef l w = Ret w' /\ refs_inv w' (l :: refs)
             /\ pt w' = pt w.
Proof.
  intros [H1 H2] Hl Hpos Hb.
  unfold incRef, read_pw. rewrite Hl. cbn [obind].
  eexists. split; [reflexivity |]. split; [| reflexivity].
  destruct (H2 l pw Hl) as (Hrc & _ & Hq).
  assert (Hw : atomic_AddUint64 (refCount pw) 1 = refCount pw + 1).
  { unfold atomic_AddUint64. apply wrap64_small.
    unfold two63, two64 in *. lia. }
  split.
  - intros x [<-|Hx]; simpl.
    + rewrite lookup_insert_eq. eauto.
    + destruct (decide (l = x)) as [->|Hne];
        [rewrite lookup_insert_eq; eauto |].
      rewrite lookup_insert_ne by exact Hne. apply H1, Hx.
  - intros x pwx Hx. simpl in Hx.
    destruct (decide (l = x)) as [->|Hne].
    + rewrite lookup_insert_eq in Hx. inversion Hx; subst pwx. simpl.
      rewrite Hw. destruct (Nat.eq_dec x x); [| congruence].
      split; [lia |]. split; [lia |]. intros _. apply Hq, Hpos.
    + rewrite lookup_insert_ne in Hx by exact Hne.
      destruct (H2 x pwx Hx) as (A & B & C). simpl.
      destruct (Nat.eq_dec l x); [contradiction | auto].
Qed.

(** A new handle comes with the one reference of its creator. *)
Lemma alloc_refs w refs q m f :
  refs_inv w refs ->
  refs_inv (write_pw (new_ptr w) (mkPartWrapper (Some q) m 1 f) w)
           (new_ptr w :: refs).
Proof.
  intros [H1 H2]. pose proof (new_ptr_fresh w) as Hfresh.
  assert (Hnot : ~ In (new_ptr w) refs).
  { intros Hin. destruct (H1 _ Hin) as [x Hx]. congruence. }
  split.
  - intros x [<-|Hx]; simpl.
    + rewrite lookup_insert_eq. eauto.
    + destruct (decide (new_ptr w = x)) as [Heq|Hne];
        [rewrite Heq, lookup_insert_eq; eauto |].
      rewrite lookup_insert_ne by exact Hne. apply H1, Hx.
  - intros x pwx Hx. simpl in Hx.
    destruct (decide (new_ptr w = x)) as [Heq|Hne].
    + rewrite Heq, lookup_insert_eq in Hx. inversion Hx; subst pwx. simpl.
      destruct (Nat.eq_dec (new_ptr w) x); [| contradiction].
      rewrite <- Heq.
      rewrite (proj1 (count_occ_not_In Nat.eq_dec refs (new_ptr w)) Hnot).
      split; [reflexivity |]. split; [reflexivity | eauto].
    + rewrite lookup_insert_ne in Hx by exact Hne.
      destruct (H2 x pwx Hx) as (A & B & C). simpl.
      destruct (Nat.eq_dec (new_ptr w) x); [contradiction | auto].
Qed.

(** Every handle of the registry is referenced at least once. *)
Lemma registry_inv_refCount w held l :
  registry_inv w held -> In l (smallParts (pt w) ++ bigParts (pt w)) ->
  exists pw, heap w !! l = Some pw /\ 1 <= refCount pw /\ is_Some (p pw).
Proof.
  intros [_ [H1 H2]] Hin.
  assert (Hin' : In l (smallParts (pt w) ++ bigParts (pt w) ++ held)).
  { rewrite app_assoc. apply in_or_app. left. exact Hin. }
  destruct (H1 l Hin') as [pw Hl]. exists pw. split; [exact Hl |].
  destruct (H2 l pw Hl) as (Hrc & _ & Hq).
  assert (0 < count_occ Nat.eq_dec (smallParts (pt w) ++ bigParts (pt w) ++ held) l)%nat
    by (apply count_occ_In; exact Hin').
  split; [lia | apply Hq; lia].
Qed.

End References.

(** ** The registry invariant across a merge *)

Section RegistryMerge.
Context {E : Env}.

Lemma stream_merge_frame pws stop w w' r :
  stream_merge pws stop w = Ret (w', r) ->
  heap w' = heap w
  /\ smallParts (pt w') = smallParts (pt w)
  /\ bigParts (pt w') = bigParts (pt w)
  /\ rawRows (pt w') = rawRows (pt w).
Proof.
  unfold stream_merge. intros H.
  apply obind_Ret in H as (srcs & _ & H).
  apply obind_Ret in H as (err & _ & H).
  destruct err; [inversion H; auto |].
  apply obind_Ret in H as (out & _ & H).
  unfold nextMergeIdx in H.
  repeat match type of H with
  | context [let '(_, _) := ?x in _] => destruct x
  | context [if ?b then _ else _] => destruct b
  | context [match ?x with _ => _ end] => destruct x
  end; inversion H; subst; unfold add_merge_counters;
    destruct (isBigPart_of out); auto.
Qed.

Lemma refs_inv_heap w w' refs :
  heap w' = heap w -> refs_inv w refs -> refs_inv w' refs.
Proof. intros Hh. apply refs_inv_same, same_refs_heap, Hh. Qed.

(** The lists after the removal, counted: the handles of [pws] leave, the
    others stay. *)
Lemma removed_count (small bigs pws : list ptr) (x : ptr) :
  NoDup pws -> NoDup (small ++ bigs) ->
  (forall l, In l pws -> In l (small ++ bigs)) ->
  count_occ Nat.eq_dec (small ++ bigs) x
  = (count_occ Nat.eq_dec pws x
     + count_occ Nat.eq_dec (fst (removeParts small (list_to_set pws))) x
     + count_occ Nat.eq_dec (fst (removeParts bigs (list_to_set pws))) x)%nat.
Proof.
  intros Hnd Hnd2 Hin.
  destruct (removeParts_filter small (list_to_set pws)) as [-> _].
  destruct (removeParts_filter bigs (list_to_set pws)) as [-> _].
  rewrite <- Nat.add_assoc, <- !count_occ_app, <- List.filter_app.
  apply Permutation_count_occ. apply NoDup_Permutation.
  - exact Hnd2.
  - apply NoDup_app. split; [exact Hnd |]. split.
    + intros y Hy Hy'. rewrite list_elem_of_In, filter_In in Hy'.
      destruct Hy' as [_ Hy'].
      apply negb_true_iff, bool_decide_eq_false in Hy'. apply Hy'.
      apply elem_of_list_to_set. exact Hy.
    + apply NoDup_ListNoDup, List.NoDup_filter, NoDup_ListNoDup, Hnd2.
  - intros y. rewrite !list_elem_of_In, (in_app_iff pws), filter_In.
    split.
    + intros Hy. destruct (in_dec Nat.eq_dec y pws) as [Hp|Hp]; [left; exact Hp |].
      right. split; [exact Hy |].
      apply negb_true_iff, bool_decide_eq_false.
      rewrite elem_of_list_to_set, list_elem_of_In. exact Hp.
    + intros [Hy|[Hy _]]; [apply Hin, Hy | exact Hy].
Qed.

Lemma removed_NoDup (small bigs : list ptr) (m : gset ptr) :
  NoDup (small ++ bigs) ->
  NoDup (fst (removeParts small m) ++ fst (removeParts bigs m)).
Proof.
  intros Hnd.
  destruct (removeParts_filter small m) as [-> _].
  destruct (removeParts_filter bigs m) as [-> _].
  rewrite <- List.filter_app.
  apply NoDup_ListNoDup, List.NoDup_filter, NoDup_ListNoDup, Hnd.
Qed.

(** The two checks of the install: when it returns, the handles to remove
    were distinct and all in the part lists. *)
Lemma install_checks pws newPW big w w' :
  NoDup (smallParts (pt w) ++ bigParts (pt w)) ->
  install pws newPW big w = Ret w' ->
  NoDup pws /\ forall l, In l pws -> In l (smallParts (pt w) ++ bigParts (pt w)).
Proof.
  intros Hnd H. apply install_inv in H as (Hsz & Hrm & _). cbv zeta in *.
  split; [apply size_list_to_set_NoDup, Hsz |].
  destruct (removeParts_filter (smallParts (pt w)) (list_to_set pws)) as [_ Hs].
  destruct (removeParts_filter (bigParts (pt w)) (list_to_set pws)) as [_ Hb].
  rewrite Hs, Hb in Hrm. clear Hs Hb.
  rewrite <- Nat2Z.inj_add, <- List.length_app, <- List.filter_app in Hrm.
  apply Nat2Z.inj in Hrm.
  set (R := List.filter (fun x => bool_decide (x ∈ (list_to_set pws : gset ptr)))
              (smallParts (pt w) ++ bigParts (pt w))) in *.
  assert (HndR : NoDup R).
  { apply NoDup_ListNoDup, List.NoDup_filter, NoDup_ListNoDup, Hnd. }
  assert (Hsub : (list_to_set R : gset ptr) ⊆ list_to_set pws).
  { intros x Hx. apply elem_of_list_to_set, list_elem_of_In in Hx.
    apply filter_In in Hx as [_ Hx]. apply bool_decide_eq_true in Hx. exact Hx. }
  assert (Heq : (list_to_set R : gset ptr) = list_to_set pws).
  { apply set_subseteq_size_eq; [exact Hsub |].
    rewrite (size_list_to_set R) by exact HndR. lia. }
  intros l Hl.
  assert (Hm : l ∈ (list_to_set R : gset ptr)).
  { rewrite Heq. apply elem_of_list_to_set, list_elem_of_In. exact Hl. }
  apply elem_of_list_to_set, list_elem_of_In in Hm.
  apply filter_In in Hm as [Hm _]. exact Hm.
Qed.

Lemma install_registry_inv pws newPW big w w' held refs0 :
  NoDup (smallParts (pt w) ++ bigParts (pt w)) ->
  refs_inv w refs0 ->
  (forall x, count_occ Nat.eq_dec refs0 x
     = (match newPW with
        | Some l => if Nat.eq_dec l x then 1 else 0
        | None => 0
        end
        + count_occ Nat.eq_dec (smallParts (pt w) ++ bigParts (pt w) ++ held) x)%nat) ->
  match newPW with
  | Some l => ~ In l (smallParts (pt w) ++ bigParts (pt w))
  | None => True
  end ->
  install pws newPW big w = Ret w' ->
  registry_inv w' held /\ rawRows (pt w') = rawRows (pt w).
Proof.
  intros Hnd2 Hinv Hcount Hfresh H.
  destruct (install_checks _ _ _ _ _ Hnd2 H) as [Hnd Hin].
  apply install_inv in H as (_ & _ & Hdec). cbv zeta in Hdec.
  set (S0 := fst (removeParts (smallParts (pt w)) (list_to_set pws))) in *.
  set (B0 := fst (removeParts (bigParts (pt w)) (list_to_set pws))) in *.
  set (S' := S0 ++ match newPW with
                   | Some l => if big then [] else [l]
                   | None => []
                   end) in *.
  set (B' := B0 ++ match newPW with
                   | Some l => if big then [l] else []
                   | None => []
                   end) in *.
  match type of Hdec with decRef_all pws ?w0 = _ =>
    destruct (decRef_all_refs pws w0 refs0 (S' ++ B' ++ held))
      as (w2 & H2 & Hinv2 & Hpt2 & _) end.
  { eapply refs_inv_heap; [| exact Hinv]. reflexivity. }
  { apply Permutation_count_occ with (eq_dec := Nat.eq_dec). intros x.
    rewrite Hcount. rewrite !count_occ_app.
    pose proof (removed_count _ _ pws x Hnd Hnd2 Hin) as Hrm.
    rewrite count_occ_app in Hrm. fold S0 B0 in Hrm.
    subst S' B'. rewrite !count_occ_app.
    destruct newPW as [l|]; [destruct big |]; simpl;
      try destruct (Nat.eq_dec l x); lia. }
  rewrite H2 in Hdec. inversion Hdec; subst w2.
  split; [| rewrite Hpt2; reflexivity].
  split.
  - rewrite Hpt2. simpl. fold S' B'.
    pose proof (removed_NoDup _ _ (list_to_set pws) Hnd2) as Hnd3.
    fold S0 B0 in Hnd3.
    assert (Hsub : forall y, In y (S0 ++ B0) ->
                     In y (smallParts (pt w) ++ bigParts (pt w))).
    { intros y Hy. apply in_app_or in Hy. apply in_or_app.
      destruct Hy as [Hy|Hy]; apply removeParts_subset in Hy; auto. }
    subst S' B'. destruct newPW as [l|]; [| rewrite !app_nil_r; exact Hnd3].
    assert (Hl : ~ In l (S0 ++ B0)) by (intros Hl; apply Hfresh, Hsub, Hl).
    apply NoDup_ListNoDup. apply NoDup_ListNoDup in Hnd3.
    destruct big; rewrite ?app_nil_r.
    + rewrite app_assoc. apply NoDup_ListNoDup, NoDup_app.
      split; [apply NoDup_ListNoDup, Hnd3 |]. split.
      * intros y Hy Hy'. apply list_elem_of_In in Hy. apply list_elem_of_In in Hy'.
        destruct Hy' as [<-|[]]. contradiction.
      * apply NoDup_ListNoDup. constructor; [intros [] | constructor].
    + eapply Permutation_NoDup with (l := l :: S0 ++ B0).
      * rewrite <- app_assoc. simpl. apply Permutation_middle.
      * constructor; assumption.
  - rewrite Hpt2. simpl. fold S' B'. exact Hinv2.
Qed.

Lemma commit_merge_registry_inv pws g w w' err held :
  registry_inv w held ->
  commit_merge pws g w = Ret (w', err) ->
  registry_inv w' held /\ rawRows (pt w') = rawRows (pt w).
Proof.
  intros [Hnd2 Hrefs] H. unfold commit_merge in H.
  destruct (fs_WriteFile _ _ _) as [d1 e1].
  destruct (is_error e1);
    [inversion H; subst; split; [split |]; [exact Hnd2 | exact Hrefs | reflexivity] |].
  destruct (runTransaction _ _ _ _) as [d2 e2]. simpl in H.
  destruct (is_error e2);
    [inversion H; subst; split; [split |]; [exact Hnd2 | exact Hrefs | reflexivity] |].
  set (w0 := set_disk d2 (set_disk d1 w)) in *.
  destruct (0 <? _)%nat.
  - destruct (openFilePart _ _) as [newP|];
      [| inversion H; subst; split; [split |]; [exact Hnd2 | exact Hrefs | reflexivity]].
    apply obind_Ret in H as (w3 & Hi & Hx). inversion Hx; subst w3 err; clear Hx.
    assert (Hfresh : ~ In (new_ptr w0) (smallParts (pt w) ++ bigParts (pt w))).
    { intros Hx. destruct Hrefs as [H1 _].
      destruct (H1 (new_ptr w0)) as [y Hy].
      { rewrite app_assoc. apply in_or_app. left. exact Hx. }
      pose proof (new_ptr_fresh w0) as Hf. simpl in Hf. congruence. }
    refine (install_registry_inv pws (Some (new_ptr w0)) (mg_isBigPart g)
              (write_pw (new_ptr w0) (mkPartWrapper (Some newP) None 1 false) w0)
              w' held
              (new_ptr w0 :: smallParts (pt w) ++ bigParts (pt w) ++ held)
              Hnd2 _ _ Hfresh Hi).
    + apply (alloc_refs w0). eapply refs_inv_heap; [| exact Hrefs]. reflexivity.
    + intros x. simpl. destruct (Nat.eq_dec (new_ptr w0) x); lia.
  - apply obind_Ret in H as (w3 & Hi & Hx). inversion Hx; subst w3 err; clear Hx.
    refine (install_registry_inv pws None (mg_isBigPart g) w0 w' held
              (smallParts (pt w) ++ bigParts (pt w) ++ held)
              Hnd2 _ _ I Hi).
    + eapply refs_inv_heap; [| exact Hrefs]. reflexivity.
    + intros x. reflexivity.
Qed.

(** [mergeParts] keeps the registry invariant, whatever it returns. *)
Lemma mergeParts_registry_inv pws stop w w' err held :
  registry_inv w held ->
  mergeParts pws stop w = Ret (w', err) ->
  registry_inv w' held /\ rawRows (pt w') = rawRows (pt w).
Proof.
  intros Hinv H. unfold mergeParts in H.
  destruct (length pws =? 0)%nat; [inversion H; subst; auto |].
  apply obind_Ret in H as ([w2 e] & Hb & H).
  apply obind_Ret in H as (w3 & Hc & H). inversion H; subst w3 e; clear H.
  assert (H2 : registry_inv w2 held /\ rawRows (pt w2) = rawRows (pt w)).
  { unfold mergeParts_body in Hb.
    apply obind_Ret in Hb as ([w1 r] & Hs & Hb).
    destruct (stream_merge_frame _ _ _ _ _ Hs) as (Hh & Hsm & Hbg & Hrr).
    assert (Hinv1 : registry_inv w1 held).
    { destruct Hinv as [A B]. split; rewrite Hsm, Hbg; [exact A |].
      eapply refs_inv_heap; eassumption. }
    destruct r as [g|e0].
    - eapply commit_merge_registry_inv in Hb; [| exact Hinv1].
      destruct Hb as [A B]. split; [exact A | congruence].
    - inversion Hb; subst. auto. }
  destruct H2 as [[A B] C].
  pose proof (clear_isInMerge_pt _ _ _ Hc) as Hpt.
  split; [| rewrite Hpt; exact C].
  split; rewrite Hpt; [exact A |].
  eapply refs_inv_same; [eapply clear_isInMerge_same_refs; exact Hc | exact B].
Qed.

End RegistryMerge.

(** ** float64 arithmetic

    What the planner needs of binary64: converting a positive 64-bit integer
    gives a positive finite number, dividing by such a number never gives
    NaN, and [<] is a strict weak order on the numbers that are not
    negative. *)

Lemma fexp64 x : fexp 53 1024 x = Z.max (x - 53) (-1074).
Proof. reflexivity. Qed.

Lemma digits2_pos_size q : digits2_pos q = Pos.size q.
Proof. induction q; simpl; congruence. Qed.

Lemma Zdigits2_log2 m : 0 < m -> Zdigits2 m = Z.log2 m + 1.
Proof.
  destruct m as [|q|q]; try lia. intros _. simpl.
  rewrite digits2_pos_size. destruct q; simpl; lia.
Qed.

Lemma shr_1_m mrs : 0 <= shr_m mrs -> shr_m (shr_1 mrs) = shr_m mrs / 2.
Proof.
  destruct mrs as [m r s]. simpl. intros Hm.
  destruct m as [|q|q]; [reflexivity | | lia].
  destruct q; simpl.
  - rewrite Pos2Z.inj_xI. apply Z.div_unique with (r := 1); lia.
  - rewrite Pos2Z.inj_xO. apply Z.div_unique with (r := 0); lia.
  - reflexivity.
Qed.

Lemma iter_pos_shr_1_m k : forall mrs,
  0 <= shr_m mrs ->
  shr_m (SpecFloat.iter_pos shr_1 k mrs) = shr_m mrs / 2 ^ Zpos k.
Proof.
  assert (Hnn : forall mrs, 0 <= shr_m mrs -> 0 <= shr_m (shr_1 mrs)).
  { intros mrs H. rewrite shr_1_m by exact H. apply Z.div_pos; lia. }
  assert (Hp : forall j, 0 < 2 ^ Zpos j) by (intros j; apply Z.pow_pos_nonneg; lia).
  induction k as [k IH|k IH|]; intros mrs Hm; cbn [SpecFloat.iter_pos].
  - rewrite IH, IH, shr_1_m; auto.
    2:{ rewrite IH by auto. apply Z.div_pos; [auto | apply Hp]. }
    pose proof (Hp k).
    rewrite !Z.div_div by lia. f_equal.
    rewrite (Pos2Z.inj_xI k).
    replace (2 * Z.pos k + 1) with (Z.pos k + Z.pos k + 1) by lia.
    rewrite !Z.pow_add_r by lia. change (2 ^ 1) with 2. ring.
  - rewrite IH, IH; auto.
    2:{ rewrite IH by auto. apply Z.div_pos; [auto | apply Hp]. }
    pose proof (Hp k).
    rewrite !Z.div_div by lia. f_equal.
    rewrite (Pos2Z.inj_xO k).
    replace (2 * Z.pos k) with (Z.pos k + Z.pos k) by lia.
    rewrite !Z.pow_add_r by lia. ring.
  - rewrite shr_1_m by exact Hm. reflexivity.
Qed.

(* shr: mantissa and exponent *)
Lemma shr_spec mrs e n :
  0 <= shr_m mrs ->
  shr_m (fst (shr mrs e n)) = shr_m mrs / 2 ^ (Z.max 0 n)
  /\ snd (shr mrs e n) = e + Z.max 0 n.
Proof.
  intros Hm. destruct n as [|k|k]; simpl.
  - rewrite Z.div_1_r. split; [reflexivity | lia].
  - rewrite iter_pos_shr_1_m by exact Hm. split; [reflexivity | lia].
  - rewrite Z.div_1_r. split; [reflexivity | lia].
Qed.

Lemma shr_record_of_loc_m m l : shr_m (shr_record_of_loc m l) = m.
Proof. destruct l as [|[]]; reflexivity. Qed.

Lemma round_nearest_even_bounds m l :
  m <= round_nearest_even m l <= m + 1.
Proof. destruct l as [|[]]; simpl; try destruct (Z.even m); lia. Qed.

(** One [shr_fexp]: the mantissa stays non-negative; it stays positive when
    the number is above the smallest subnormal. *)
Lemma shr_fexp_spec m e l :
  0 <= m ->
  let k := Z.max 0 (fexp 53 1024 (Zdigits2 m + e) - e) in
  shr_m (fst (shr_fexp 53 1024 m e l)) = m / 2 ^ k
  /\ snd (shr_fexp 53 1024 m e l) = e + k.
Proof.
  intros Hm k. unfold shr_fexp.
  destruct (shr_spec (shr_record_of_loc m l) e
              (fexp 53 1024 (Zdigits2 m + e) - e)) as [A B].
  { rewrite shr_record_of_loc_m. exact Hm. }
  rewrite shr_record_of_loc_m in A. split; assumption.
Qed.

Lemma Zdigits2_nonneg m : 0 <= Zdigits2 m.
Proof. destruct m; simpl; lia. Qed.

Lemma Zdigits2_bounds m : 0 < m -> 2 ^ (Zdigits2 m - 1) <= m < 2 ^ Zdigits2 m.
Proof.
  intros Hm. rewrite Zdigits2_log2 by exact Hm.
  replace (Z.log2 m + 1 - 1) with (Z.log2 m) by lia.
  replace (Z.log2 m + 1) with (Z.succ (Z.log2 m)) by lia.
  apply Z.log2_spec. exact Hm.
Qed.

Lemma Zdigits2_le m n : 0 < m -> m < 2 ^ n -> 0 <= n -> Zdigits2 m <= n.
Proof.
  intros Hm Hlt Hn. rewrite Zdigits2_log2 by exact Hm.
  assert (Z.log2 m < n) by (apply Z.log2_lt_pow2; assumption). lia.
Qed.

Lemma Zdigits2_ge m n : 2 ^ n <= m -> 0 <= n -> n + 1 <= Zdigits2 m.
Proof.
  intros Hle Hn.
  assert (0 < m) by (pose proof (Z.pow_pos_nonneg 2 n); lia).
  rewrite Zdigits2_log2 by assumption.
  assert (n <= Z.log2 m) by (apply Z.log2_le_pow2; assumption). lia.
Qed.

Lemma div_pow2_pos m k D :
  2 ^ (D - 1) <= m -> 0 <= k <= D - 1 -> 2 ^ (D - 1 - k) <= m / 2 ^ k.
Proof.
  intros Hm Hk.
  apply Z.div_le_lower_bound; [apply Z.pow_pos_nonneg; lia |].
  rewrite <- Z.pow_add_r by lia.
  replace (k + (D - 1 - k)) with (D - 1) by lia. exact Hm.
Qed.

Lemma div_pow2_lt m k D :
  0 <= m < 2 ^ D -> 0 <= k <= D -> m / 2 ^ k < 2 ^ (D - k).
Proof.
  intros Hm Hk.
  apply Z.div_lt_upper_bound; [apply Z.pow_pos_nonneg; lia |].
  rewrite <- Z.pow_add_r by lia.
  replace (k + (D - k)) with D by lia. lia.
Qed.

(** The result of [binary_round_aux] is a number of the given sign whenever
    the mantissa is non-negative. *)
Definition f64_signed (s : bool) (x : spec_float) : Prop :=
  match x with
  | S754_nan => False
  | S754_zero s' => s' = s
  | S754_infinity s' => s' = s
  | S754_finite s' _ _ => s' = s
  end.

Lemma binary_round_aux_signed s m e l :
  0 <= m -> f64_signed s (binary_round_aux 53 1024 s m e l).
Proof.
  intros Hm. unfold binary_round_aux.
  destruct (shr_fexp_spec m e l Hm) as [A1 B1].
  destruct (shr_fexp 53 1024 m e l) as [mrs1 e1]. simpl in A1, B1.
  set (m2 := round_nearest_even (shr_m mrs1) (loc_of_shr_record mrs1)).
  assert (H1 : 0 <= shr_m mrs1).
  { rewrite A1. apply Z.div_pos; [exact Hm | apply Z.pow_pos_nonneg; lia]. }
  assert (H2 : 0 <= m2).
  { pose proof (round_nearest_even_bounds (shr_m mrs1) (loc_of_shr_record mrs1)).
    subst m2. lia. }
  destruct (shr_fexp_spec m2 e1 loc_Exact H2) as [A2 B2].
  destruct (shr_fexp 53 1024 m2 e1 loc_Exact) as [mrs2 e2]. simpl in A2, B2.
  assert (H3 : 0 <= shr_m mrs2).
  { rewrite A2. apply Z.div_pos; [exact H2 | apply Z.pow_pos_nonneg; lia]. }
  destruct (shr_m mrs2); [reflexivity | | lia].
  destruct (_ <=? _); reflexivity.
Qed.

Lemma binary_round_aux_finite s m e l :
  0 < m -> -1074 < e + Zdigits2 m -> e + Zdigits2 m <= 1023 -> e <= 970 ->
  exists m' e', binary_round_aux 53 1024 s m e l = S754_finite s m' e'.
Proof.
  intros Hm Hlo Hhi He. unfold binary_round_aux.
  destruct (shr_fexp_spec m e l ltac:(lia)) as [A1 B1].
  destruct (shr_fexp 53 1024 m e l) as [mrs1 e1]. simpl in A1, B1.
  rewrite fexp64 in A1, B1.
  set (D := Zdigits2 m) in *.
  set (k1 := Z.max 0 (Z.max (D + e - 53) (-1074) - e)) in *.
  pose proof (Zdigits2_bounds m Hm) as [Hb1 Hb2]. fold D in Hb1, Hb2.
  assert (HD : 1 <= D).
  { subst D. destruct m; simpl in *; lia. }
  assert (Hk1 : 0 <= k1 <= D - 1) by lia.
  pose proof (div_pow2_pos m k1 D Hb1 Hk1) as Hm1lo.
  pose proof (div_pow2_lt m k1 D ltac:(lia) ltac:(lia)) as Hm1hi.
  rewrite <- A1 in Hm1lo, Hm1hi.
  set (m1 := shr_m mrs1) in *.
  set (m2 := round_nearest_even m1 (loc_of_shr_record mrs1)).
  pose proof (round_nearest_even_bounds m1 (loc_of_shr_record mrs1)) as Hr.
  fold m2 in Hr.
  assert (Hp1 : 0 < 2 ^ (D - 1 - k1)) by (apply Z.pow_pos_nonneg; lia).
  assert (Hm2 : 0 < m2) by lia.
  destruct (shr_fexp_spec m2 e1 loc_Exact ltac:(lia)) as [A2 B2].
  destruct (shr_fexp 53 1024 m2 e1 loc_Exact) as [mrs2 e2]. simpl in A2, B2.
  rewrite fexp64 in A2, B2.
  set (D2 := Zdigits2 m2) in *.
  set (k2 := Z.max 0 (Z.max (D2 + e1 - 53) (-1074) - e1)) in *.
  assert (HD2lo : D - k1 <= D2).
  { subst D2. replace (D - k1) with (D - 1 - k1 + 1) by lia.
    apply Zdigits2_ge; lia. }
  assert (HD2hi : D2 <= D - k1 + 1).
  { subst D2. apply Zdigits2_le; [lia | | lia].
    rewrite Z.pow_add_r by lia. change (2 ^ 1) with 2. lia. }
  pose proof (Zdigits2_bounds m2 Hm2) as [Hc1 Hc2]. fold D2 in Hc1, Hc2.
  assert (Hk2 : 0 <= k2 <= D2 - 1) by lia.
  pose proof (div_pow2_pos m2 k2 D2 Hc1 Hk2) as Hm3lo.
  rewrite <- A2 in Hm3lo.
  assert (Hp2 : 0 < 2 ^ (D2 - 1 - k2)) by (apply Z.pow_pos_nonneg; lia).
  destruct (shr_m mrs2) as [|m3|m3]; try lia.
  assert (Hle : (e2 <=? 1024 - 53) = true) by (apply Z.leb_le; lia).
  rewrite Hle. eauto.
Qed.

Lemma digits2_pos_iter_xO m k :
  Zpos (digits2_pos (Pos.iter xO m k)) = Zpos (digits2_pos m) + Zpos k.
Proof.
  induction k using Pos.peano_ind.
  - simpl. lia.
  - rewrite Pos.iter_succ. simpl. lia.
Qed.

(** [float64(n)] is a positive finite number for every positive [n] of 64 bits. *)
Lemma f64_of_Z_finite n :
  0 < n < two64 -> exists m e, f64_of_Z n = S754_finite false m e.
Proof.
  intros [Hpos Hlt]. destruct n as [|q|q]; try lia.
  unfold f64_of_Z, binary_normalize, binary_round.
  assert (Hd : Zpos (digits2_pos q) <= 64).
  { change (Zpos (digits2_pos q)) with (Zdigits2 (Zpos q)).
    apply Zdigits2_le; [lia | exact Hlt | lia]. }
  rewrite fexp64, Z.add_0_r.
  unfold shl_align.
  destruct (Z.max (Z.pos (digits2_pos q) - 53) (-1074) - 0) as [|k|k] eqn:Hk.
  - apply binary_round_aux_finite; simpl; lia.
  - apply binary_round_aux_finite; simpl; lia.
  - apply binary_round_aux_finite; try lia.
    + change (Zdigits2 (Zpos (Pos.iter xO q k)))
        with (Zpos (digits2_pos (Pos.iter xO q k))).
      rewrite digits2_pos_iter_xO. lia.
    + change (Zdigits2 (Zpos (Pos.iter xO q k)))
        with (Zpos (digits2_pos (Pos.iter xO q k))).
      rewrite digits2_pos_iter_xO. lia.
Qed.

Lemma f64_of_Z_signed n : 0 <= n -> f64_signed false (f64_of_Z n).
Proof.
  intros Hn. destruct n as [|q|q]; try lia; [reflexivity |].
  unfold f64_of_Z, binary_normalize, binary_round.
  destruct (shl_align _ _ _) as [mz ez].
  apply binary_round_aux_signed. lia.
Qed.

Lemma f64_div_signed x y mx ex :
  f64_signed false x -> y = S754_finite false mx ex ->
  f64_signed false (f64_div x y).
Proof.
  intros Hx ->. unfold f64_div, SFdiv.
  destruct x as [s|s| |s m e]; simpl in Hx; subst; try contradiction;
    try reflexivity.
  unfold SFdiv_core_binary.
  set (s := _ - _ - _). 
  set (m' := match s with Z0 => Z.pos m | Zpos _ => Z.shiftl (Z.pos m) s | Zneg _ => 0 end).
  assert (Hm' : 0 <= m').
  { subst m'. destruct s; try lia. apply Z.shiftl_nonneg. lia. }
  pose proof (Z_div_mod m' (Zpos mx) ltac:(lia)) as Hdm.
  destruct (Z.div_eucl m' (Z.pos mx)) as [q r].
  apply binary_round_aux_signed. destruct Hdm as [Heq Hr]. nia.
Qed.

(** *** The order of non-negative numbers *)

Ltac float_cases :=
  repeat match goal with
  | H : context [Z.compare ?a ?b] |- _ => destruct (Z.compare_spec a b)
  | |- context [Z.compare ?a ?b] => destruct (Z.compare_spec a b)
  | H : context [Pos.compare_cont Eq ?a ?b] |- _ =>
      change (Pos.compare_cont Eq a b) with (Pos.compare a b) in H;
      destruct (Pos.compare_spec a b)
  | |- context [Pos.compare_cont Eq ?a ?b] =>
      change (Pos.compare_cont Eq a b) with (Pos.compare a b);
      destruct (Pos.compare_spec a b)
  end.

Lemma f64_ltb_asym x y : f64_ltb x y = true -> f64_ltb y x = false.
Proof.
  unfold f64_ltb, SFltb, SFcompare.
  destruct x as [[]|[]| |[] mx ex], y as [[]|[]| |[] my ey]; simpl;
    try discriminate; try reflexivity;
    intros H; float_cases; subst; try discriminate; try reflexivity; try lia.
Qed.

Lemma f64_ltb_negtrans x y z :
  f64_signed false x -> f64_signed false y -> f64_signed false z ->
  f64_ltb x y = false -> f64_ltb y z = false -> f64_ltb x z = false.
Proof.
  unfold f64_ltb, SFltb, SFcompare.
  destruct x as [[]|[]| |[] mx ex], y as [[]|[]| |[] my ey],
           z as [[]|[]| |[] mz ez]; simpl;
    intros Hx Hy Hz; try discriminate; try contradiction; try reflexivity;
    intros H1 H2; float_cases; subst; try discriminate; try reflexivity; try lia.
Qed.

Lemma f64_not_ltb_leb x y :
  f64_signed false x -> f64_signed false y ->
  f64_ltb x y = false -> f64_leb y x = true.
Proof.
  unfold f64_ltb, f64_leb, SFltb, SFleb, SFcompare.
  destruct x as [[]|[]| |[] mx ex], y as [[]|[]| |[] my ey]; simpl;
    intros Hx Hy; try discriminate; try contradiction; try reflexivity;
    intros H1; float_cases; subst; try discriminate; try reflexivity; try lia.
Qed.

Lemma f64_ltb_zero x : f64_signed false x -> f64_ltb x f64_zero = false.
Proof.
  unfold f64_ltb, SFltb, SFcompare, f64_zero.
  destruct x as [[]|[]| |[] mx ex]; simpl; intros Hx;
    try discriminate; try contradiction; reflexivity.
Qed.

(** ** The merge planner: what it selects *)

Section PlannerProps.
Context {E : Env}.
Variable hdr : ptr -> partHeader.

(** The exact total of the row counts of a list of handles. *)
Definition total_rows (w : list ptr) : Z :=
  fold_right (fun pw acc => RowsCount (hdr pw) + acc) 0 w.

Lemma planner_less_strict_weak : strict_weak (planner_less hdr).
Proof.
  unfold strict_weak, planner_less. repeat split; intros;
  repeat match goal with
  | H : context [?a >? ?b] |- _ => rewrite (Z.gtb_ltb a b) in H
  | |- context [?a >? ?b] => rewrite (Z.gtb_ltb a b)
  end;
  repeat match goal with
  | H : context [?a <? ?b] |- _ => destruct (Z.ltb_spec a b)
  | |- context [?a <? ?b] => destruct (Z.ltb_spec a b)
  end; try congruence; try lia.
Qed.

Lemma planner_less_rows a b :
  planner_less hdr b a = false -> RowsCount (hdr a) <= RowsCount (hdr b).
Proof.
  unfold planner_less. destruct (Z.ltb_spec (RowsCount (hdr b)) (RowsCount (hdr a)));
    [discriminate | lia].
Qed.

Lemma in_search_order n srclen i j :
  In (i, j) (search_order n srclen) <->
  (2 <= i)%nat /\ Z.of_nat i <= n /\ (j + i <= srclen)%nat.
Proof.
  unfold search_order. rewrite in_flat_map. split.
  - intros (i0 & Hi & Hj). apply in_map_iff in Hj as (j0 & Heq & Hj).
    inversion Heq; subst. apply in_seq in Hi. apply in_seq in Hj. lia.
  - intros (H2 & Hn & Hl). exists i. split.
    + apply in_seq. lia.
    + apply in_map_iff. exists j. split; [reflexivity |]. apply in_seq. lia.
Qed.

Lemma rowsSum_acc w : forall acc,
  0 <= acc < two64 ->
  0 <= fold_left (fun s pw => wrap64 (s + RowsCount (hdr pw))) w acc < two64.
Proof.
  induction w as [|x w IH]; intros acc Hacc; simpl; [exact Hacc |].
  apply IH. unfold wrap64. apply Z.mod_pos_bound. reflexivity.
Qed.

Lemma rowsSum_range w : 0 <= rowsSum hdr w < two64.
Proof. apply rowsSum_acc. unfold two64. lia. Qed.

Lemma total_rows_nonneg w :
  Forall (fun pw => 0 <= RowsCount (hdr pw)) w -> 0 <= total_rows w.
Proof. induction 1; simpl; lia. Qed.

Lemma rowsSum_exact_acc w : forall acc,
  Forall (fun pw => 0 <= RowsCount (hdr pw)) w ->
  0 <= acc -> acc + total_rows w < two64 ->
  fold_left (fun s pw => wrap64 (s + RowsCount (hdr pw))) w acc = acc + total_rows w.
Proof.
  induction w as [|x w IH]; intros acc Hw Hacc Hlt; simpl in *; [lia |].
  inversion Hw as [|? ? Hx Hw']; subst.
  pose proof (total_rows_nonneg w Hw') as Hn.
  unfold wrap64 at 2. rewrite Z.mod_small by lia.
  rewrite IH; [lia | assumption | lia | lia].
Qed.

(** Without overflow the machine sum of a window is its exact total. *)
Lemma rowsSum_exact w :
  Forall (fun pw => 0 <= RowsCount (hdr pw)) w -> total_rows w < two64 ->
  rowsSum hdr w = total_rows w.
Proof.
  intros Hw Hlt. unfold rowsSum. rewrite rowsSum_exact_acc; auto; lia.
Qed.

Lemma total_rows_app a b : total_rows (a ++ b) = total_rows a + total_rows b.
Proof. induction a; simpl; lia. Qed.

Lemma total_rows_Permutation a b : Permutation a b -> total_rows a = total_rows b.
Proof. induction 1; simpl; lia. Qed.

Lemma total_rows_firstn_le i w :
  Forall (fun pw => 0 <= RowsCount (hdr pw)) w ->
  total_rows (firstn i w) <= total_rows w.
Proof.
  intros Hw. rewrite <- (firstn_skipn i w) at 2. rewrite total_rows_app.
  assert (0 <= total_rows (skipn i w)); [| lia].
  apply total_rows_nonneg. rewrite <- (firstn_skipn i w) in Hw.
  apply Forall_app in Hw. tauto.
Qed.

Lemma total_rows_skipn_le j w :
  Forall (fun pw => 0 <= RowsCount (hdr pw)) w ->
  total_rows (skipn j w) <= total_rows w.
Proof.
  intros Hw. rewrite <- (firstn_skipn j w) at 2. rewrite total_rows_app.
  assert (0 <= total_rows (firstn j w)); [| lia].
  apply total_rows_nonneg. rewrite <- (firstn_skipn j w) in Hw.
  apply Forall_app in Hw. tauto.
Qed.

Lemma Forall_skipn_rows (P : ptr -> Prop) j w : Forall P w -> Forall P (skipn j w).
Proof.
  intros Hw. rewrite <- (firstn_skipn j w) in Hw. apply Forall_app in Hw. tauto.
Qed.

Lemma Forall_firstn_rows (P : ptr -> Prop) j w : Forall P w -> Forall P (firstn j w).
Proof.
  intros Hw. rewrite <- (firstn_skipn j w) in Hw. apply Forall_app in Hw. tauto.
Qed.

Lemma Forall_window (P : ptr -> Prop) src j i : Forall P src -> Forall P (window src j i).
Proof. intros. unfold window. apply Forall_firstn_rows, Forall_skipn_rows. assumption. Qed.

Lemma total_rows_window_le src j i :
  Forall (fun pw => 0 <= RowsCount (hdr pw)) src ->
  total_rows (window src j i) <= total_rows src.
Proof.
  intros Hw. unfold window.
  pose proof (total_rows_firstn_le i (skipn j src) (Forall_skipn_rows _ j src Hw)).
  pose proof (total_rows_skipn_le j src Hw). lia.
Qed.

Lemma total_rows_filter_le maxRows src :
  Forall (fun pw => 0 <= RowsCount (hdr pw)) src ->
  total_rows (filter_small hdr src maxRows) <= total_rows src.
Proof.
  unfold filter_small. induction 1 as [|x l Hx Hl IH]; simpl; [lia |].
  destruct (negb _); simpl; lia.
Qed.

Lemma filter_small_Forall (P : ptr -> Prop) maxRows src :
  Forall P src -> Forall P (filter_small hdr src maxRows).
Proof.
  unfold filter_small. induction 1 as [|x l Hx Hl IH]; simpl; [constructor |].
  destruct (negb _); [constructor |]; assumption.
Qed.

Lemma filter_small_all_large maxRows src :
  Forall (fun pw => RowsCount (hdr pw) > maxRows / 2) src ->
  filter_small hdr src maxRows = [].
Proof.
  unfold filter_small. induction 1 as [|x l Hx Hl IH]; simpl; [reflexivity |].
  destruct (Z.gtb_spec (RowsCount (hdr x)) (maxRows / 2)); simpl; [assumption | lia].
Qed.

Lemma window_length src j i :
  (j + i <= length src)%nat -> length (window src j i) = i.
Proof.
  intros H. unfold window. rewrite length_firstn, length_skipn. lia.
Qed.

(** The elements of a window, by position. *)
Lemma window_In src j i x :
  In x (window src j i) ->
  exists k, (j <= k < j + i)%nat /\ (k < length src)%nat /\ nth k src 0%nat = x.
Proof.
  unfold window. intros Hin.
  apply (In_nth _ _ 0%nat) in Hin as (k & Hk & Hnth).
  rewrite length_firstn, length_skipn in Hk.
  rewrite nth_firstn in Hnth.
  destruct (Nat.ltb_spec k i); [| lia].
  rewrite nth_skipn in Hnth.
  exists (j + k)%nat. repeat split; try lia; try exact Hnth.
Qed.

Lemma sorted_nth_le (R : ptr -> ptr -> Prop) l :
  StronglySorted R l ->
  forall a b, (a < b)%nat -> (b < length l)%nat -> R (nth a l 0%nat) (nth b l 0%nat).
Proof.
  induction 1 as [|x l Hs IH Hall]; intros a b Hab Hb; simpl in *; [lia |].
  destruct b as [|b]; [lia |]. destruct a as [|a].
  - rewrite List.Forall_forall in Hall. apply Hall. apply nth_In. lia.
  - apply IH; lia.
Qed.

(** In the sorted candidates the last handle of a window has the most rows. *)
Lemma window_last_largest cand j i :
  StronglySorted (fun a b => planner_less hdr b a = false) cand ->
  (j + i <= length cand)%nat ->
  Forall (fun pw => RowsCount (hdr pw) <= RowsCount (hdr (nth (j + i - 1) cand 0%nat)))
         (window cand j i).
Proof.
  intros Hs Hl. apply List.Forall_forall. intros x Hx.
  apply window_In in Hx as (k & Hk & Hkl & <-).
  destruct (Nat.eq_dec k (j + i - 1)%nat) as [-> | Hne]; [lia |].
  pose proof (sorted_nth_le _ _ Hs k (j + i - 1)%nat ltac:(lia) ltac:(lia)) as Hr.
  apply planner_less_rows in Hr.
  (* [Hr] orders the later handle after the earlier one *)
  exact Hr.
Qed.

(** *** The shape of the result *)

Lemma search_fold_shape src maxRows (P : nat -> nat -> Prop) l : forall st,
  (snd st = [] \/ exists j i, P i j /\ snd st = window src j i) ->
  (forall i j, In (i, j) l -> P i j) ->
  snd (fold_left (search_step hdr src maxRows) l st) = [] \/
  exists j i, P i j /\
    snd (fold_left (search_step hdr src maxRows) l st) = window src j i.
Proof.
  induction l as [|[i j] l IH]; intros st Hst Hl; simpl; [exact Hst |].
  apply IH.
  - unfold search_step.
    destruct (rowsSum hdr (window src j i) >? maxRows); [exact Hst |].
    destruct (f64_ltb _ _); [exact Hst |].
    right. exists j, i. split; [apply Hl; left; reflexivity | reflexivity].
  - intros i' j' Hin. apply Hl. right. exact Hin.
Qed.

(** Whatever the row counts are, the planner returns [dst] followed by
    nothing or by one window of the sorted candidates. *)
Lemma appendPartsToMerge_shape dst src maxPartsToMerge maxRows :
  (exists msg, appendPartsToMerge hdr dst src maxPartsToMerge maxRows = Panic msg) \/
  appendPartsToMerge hdr dst src maxPartsToMerge maxRows = Ret dst \/
  exists j i,
    (j + i <= length (sort_Slice (planner_less hdr) (filter_small hdr src maxRows)))%nat /\
    (2 <= i)%nat /\ Z.of_nat i <= maxPartsToMerge /\
    appendPartsToMerge hdr dst src maxPartsToMerge maxRows =
      Ret (dst ++ window (sort_Slice (planner_less hdr) (filter_small hdr src maxRows)) j i).
Proof.
  unfold appendPartsToMerge.
  destruct (Z.of_nat (length src) <? 2); [right; left; reflexivity |].
  destruct (maxPartsToMerge <? 2); [left; eexists; reflexivity |].
  right.
  set (cand := sort_Slice (planner_less hdr) (filter_small hdr src maxRows)).
  set (n := if Z.of_nat (length cand) <? maxPartsToMerge
            then Z.of_nat (length cand) else maxPartsToMerge).
  pose proof (search_fold_shape cand maxRows
    (fun i j => (j + i <= length cand)%nat /\ (2 <= i)%nat /\ Z.of_nat i <= maxPartsToMerge)
    (search_order n (length cand)) (f64_zero, []) (or_introl eq_refl)) as Hs.
  fold (search hdr cand n maxRows) in Hs.
  destruct (search hdr cand n maxRows) as [maxM pws]. simpl in Hs.
  destruct (f64_ltb maxM (minM maxPartsToMerge)); [left; reflexivity |].
  destruct Hs as [-> | (j & i & (H1 & H2 & H3) & ->)].
  - intros i j Hin. apply in_search_order in Hin. subst n.
    destruct (Z.ltb_spec (Z.of_nat (length cand)) maxPartsToMerge); lia.
  - left. rewrite app_nil_r. reflexivity.
  - right. exists j, i. auto.
Qed.


(** *** The window that is kept *)

Lemma f64_ltb_irrefl x : f64_ltb x x = false.
Proof.
  destruct (f64_ltb x x) eqn:Hx; [| reflexivity].
  pose proof (f64_ltb_asym _ _ Hx). congruence.
Qed.

(** What the search has found after the pairs [vis]: nothing, as no window
    seen fits [maxRows]; or a window seen that fits and that no other such
    window beats. *)
Definition best_of (src : list ptr) (maxRows : Z) (vis : list (nat * nat))
    (st : float64 * list ptr) : Prop :=
  (st = (f64_zero, []) /\
   forall i j, In (i, j) vis -> rowsSum hdr (window src j i) > maxRows) \/
  (exists i j, In (i, j) vis /\ rowsSum hdr (window src j i) <= maxRows /\
     st = (score hdr src j i, window src j i) /\
     forall i' j', In (i', j') vis -> rowsSum hdr (window src j' i') <= maxRows ->
       f64_ltb (score hdr src j i) (score hdr src j' i') = false).

Lemma search_step_best src maxRows vis st i j :
  (forall i' j', In (i', j') (vis ++ [(i, j)]) -> f64_signed false (score hdr src j' i')) ->
  best_of src maxRows vis st ->
  best_of src maxRows (vis ++ [(i, j)]) (search_step hdr src maxRows st (i, j)).
Proof.
  intros Hsg Hb. unfold search_step.
  assert (Hsij : f64_signed false (score hdr src j i)).
  { apply Hsg. apply in_or_app. right. left. reflexivity. }
  assert (Hsv : forall i' j', In (i', j') vis -> f64_signed false (score hdr src j' i')).
  { intros i' j' Hin. apply Hsg. apply in_or_app. left. exact Hin. }
  destruct (Z.gtb_spec (rowsSum hdr (window src j i)) maxRows) as [Hgt | Hle].
  - destruct Hb as [[-> Hnone] | (i0 & j0 & Hin & Hfit & -> & Hmax)].
    + left. split; [reflexivity |]. intros i' j' Hin.
      apply in_app_or in Hin as [Hin | [Heq | []]]; [auto |]. inversion Heq; subst. lia.
    + right. exists i0, j0. repeat split; auto.
      * apply in_or_app. left. exact Hin.
      * intros i' j' Hin' Hfit'.
        apply in_app_or in Hin' as [Hin' | [Heq | []]]; [auto |]. inversion Heq; subst. lia.
  - destruct Hb as [[-> Hnone] | (i0 & j0 & Hin & Hfit & -> & Hmax)]; simpl.
    + rewrite f64_ltb_zero by exact Hsij.
      right. exists i, j. repeat split; auto.
      * apply in_or_app. right. left. reflexivity.
      * intros i' j' Hin' Hfit'.
        apply in_app_or in Hin' as [Hin' | [Heq | []]].
        -- specialize (Hnone _ _ Hin'). lia.
        -- inversion Heq; subst. apply f64_ltb_irrefl.
    + destruct (f64_ltb (score hdr src j i) (score hdr src j0 i0)) eqn:Hlt.
      * right. exists i0, j0. repeat split; auto.
        -- apply in_or_app. left. exact Hin.
        -- intros i' j' Hin' Hfit'.
           apply in_app_or in Hin' as [Hin' | [Heq | []]]; [auto |].
           inversion Heq; subst. apply f64_ltb_asym. exact Hlt.
      * right. exists i, j. repeat split; auto.
        -- apply in_or_app. right. left. reflexivity.
        -- intros i' j' Hin' Hfit'.
           apply in_app_or in Hin' as [Hin' | [Heq | []]].
           ++ apply (f64_ltb_negtrans _ (score hdr src j0 i0)); auto.
           ++ inversion Heq; subst. apply f64_ltb_irrefl.
Qed.

Lemma search_fold_best src maxRows l : forall vis st,
  (forall i j, In (i, j) (vis ++ l) -> f64_signed false (score hdr src j i)) ->
  best_of src maxRows vis st ->
  best_of src maxRows (vis ++ l) (fold_left (search_step hdr src maxRows) l st).
Proof.
  induction l as [|[i j] l IH]; intros vis st Hsg Hb; simpl.
  - rewrite app_nil_r. exact Hb.
  - change ((i, j) :: l) with ([(i, j)] ++ l) in *. rewrite app_assoc in *.
    apply IH; [exact Hsg |].
    apply search_step_best; [| exact Hb].
    intros i' j' Hin. apply Hsg. apply in_or_app. left. exact Hin.
Qed.

(** The score of a window of handles that all hold rows is a number that is
    not negative. *)
Lemma score_signed src j i :
  Forall (fun pw => 1 <= RowsCount (hdr pw) < two64) src ->
  (1 <= i)%nat -> (j + i <= length src)%nat ->
  f64_signed false (score hdr src j i).
Proof.
  intros Hrows Hi Hl. unfold score.
  assert (Hlast : 0 < RowsCount (hdr (nth (j + i - 1) src 0%nat)) < two64).
  { rewrite List.Forall_forall in Hrows.
    specialize (Hrows (nth (j + i - 1) src 0%nat) ltac:(apply nth_In; lia)). lia. }
  destruct (f64_of_Z_finite _ Hlast) as (m & e & Hfin).
  eapply f64_div_signed; [| exact Hfin].
  apply f64_of_Z_signed. apply rowsSum_range.
Qed.

Lemma minM_signed k : 2 <= k -> f64_signed false (minM k).
Proof.
  intros Hk. unfold minM.
  assert (0 <= Z.quot k 2) by (apply Z.quot_pos; lia).
  destruct (f64_ltb _ _); apply f64_of_Z_signed; lia.
Qed.

(** The sorted candidates of a call. *)
Definition candidates (src : list ptr) (maxRows : Z) : list ptr :=
  sort_Slice (planner_less hdr) (filter_small hdr src maxRows).

(** The windows the search may keep: [i] handles from position [j] of the
    candidates, at least two and at most [maxPartsToMerge], holding at most
    [maxRows] rows in total. *)
Definition admissible (cand : list ptr) (maxPartsToMerge maxRows : Z) (j i : nat) : Prop :=
  (2 <= i)%nat /\
  Z.of_nat i <= Z.min maxPartsToMerge (Z.of_nat (length cand)) /\
  (j + i <= length cand)%nat /\
  total_rows (window cand j i) <= maxRows.

(** The score of a window: its total of rows over the rows of its last
    handle, as a [float64] quotient. *)
Definition amplification (cand : list ptr) (j i : nat) : float64 :=
  f64_div (f64_of_Z (total_rows (window cand j i)))
          (f64_of_Z (RowsCount (hdr (nth (j + i - 1) cand 0%nat)))).

Lemma candidates_Forall (P : ptr -> Prop) src maxRows :
  Forall P src -> Forall P (candidates src maxRows).
Proof.
  intros H. unfold candidates.
  eapply Permutation_Forall; [symmetry; apply sort_Slice_Permutation |].
  apply filter_small_Forall. exact H.
Qed.

Lemma candidates_total src maxRows :
  Forall (fun pw => 0 <= RowsCount (hdr pw)) src ->
  total_rows (candidates src maxRows) <= total_rows src.
Proof.
  intros H. unfold candidates.
  rewrite (total_rows_Permutation _ _ (sort_Slice_Permutation _ _)).
  apply total_rows_filter_le. exact H.
Qed.

Lemma rowsSum_window_exact src maxRows j i :
  Forall (fun pw => 1 <= RowsCount (hdr pw)) src ->
  total_rows src < two64 ->
  rowsSum hdr (window (candidates src maxRows) j i)
  = total_rows (window (candidates src maxRows) j i).
Proof.
  intros Hrows Htot.
  assert (H0 : Forall (fun pw => 0 <= RowsCount (hdr pw)) src).
  { eapply List.Forall_impl; [| exact Hrows]. simpl. intros. lia. }
  apply rowsSum_exact.
  - apply Forall_window, candidates_Forall. exact H0.
  - pose proof (total_rows_window_le (candidates src maxRows) j i
                  (candidates_Forall _ _ maxRows H0)).
    pose proof (candidates_total src maxRows H0). lia.
Qed.

Lemma score_amplification src maxRows j i :
  Forall (fun pw => 1 <= RowsCount (hdr pw)) src ->
  total_rows src < two64 ->
  score hdr (candidates src maxRows) j i = amplification (candidates src maxRows) j i.
Proof.
  intros Hrows Htot. unfold score, amplification.
  rewrite rowsSum_window_exact by assumption. reflexivity.
Qed.

Lemma rows_below_total src x :
  Forall (fun pw => 0 <= RowsCount (hdr pw)) src -> In x src ->
  RowsCount (hdr x) <= total_rows src.
Proof.
  induction 1 as [|y l Hy Hl IH]; intros Hin; simpl in *; [contradiction |].
  pose proof (total_rows_nonneg l Hl).
  destruct Hin as [-> | Hin]; [lia |]. specialize (IH Hin). lia.
Qed.

(** C2, amended: the planner on handles that all hold rows, the rows of the
    whole list staying below 2^64. It selects nothing from fewer than two
    handles, or when every handle has more than [maxRows / 2] rows. What it
    selects is a window of the candidates sorted by rows (ascending, ties by
    [MinTimestamp] descending): from 2 to min(maxPartsToMerge, candidates)
    handles with at most [maxRows] rows in total, the last handle being the
    largest; no admissible window has a greater score (total rows over the
    rows of the last handle, in [float64]), and the score reaches the
    threshold [minM]. When every admissible window scores below the
    threshold, nothing is selected; and when some admissible window reaches
    the threshold, a window is selected: an admissible window that no
    admissible window beats, and whose score reaches the threshold. *)
Theorem appendPartsToMerge_selects_best_window
    (dst src : list ptr) (maxPartsToMerge maxRows : Z) :
  2 <= maxPartsToMerge ->
  Forall (fun pw => 1 <= RowsCount (hdr pw)) src ->
  total_rows src < two64 ->
  exists r,
    appendPartsToMerge hdr dst src maxPartsToMerge maxRows = Ret r /\
    ((length src < 2)%nat -> r = dst) /\
    (Forall (fun pw => RowsCount (hdr pw) > maxRows / 2) src -> r = dst) /\
    (r = dst \/
     exists j i,
       r = dst ++ window (candidates src maxRows) j i /\
       admissible (candidates src maxRows) maxPartsToMerge maxRows j i /\
       StronglySorted (fun a b => planner_less hdr b a = false) (candidates src maxRows) /\
       Permutation (candidates src maxRows) (filter_small hdr src maxRows) /\
       Forall (fun pw => RowsCount (hdr pw)
                         <= RowsCount (hdr (nth (j + i - 1) (candidates src maxRows) 0%nat)))
              (window (candidates src maxRows) j i) /\
       (forall j' i',
          admissible (candidates src maxRows) maxPartsToMerge maxRows j' i' ->
          f64_ltb (amplification (candidates src maxRows) j i)
                  (amplification (candidates src maxRows) j' i') = false) /\
       f64_leb (minM maxPartsToMerge) (amplification (candidates src maxRows) j i) = true) /\
    ((forall j i,
        admissible (candidates src maxRows) maxPartsToMerge maxRows j i ->
        f64_ltb (amplification (candidates src maxRows) j i) (minM maxPartsToMerge) = true) ->
     r = dst) /\
    ((exists j i,
        admissible (candidates src maxRows) maxPartsToMerge maxRows j i /\
        f64_ltb (amplification (candidates src maxRows) j i) (minM maxPartsToMerge) = false) ->
     exists j i,
       r = dst ++ window (candidates src maxRows) j i /\
       length (window (candidates src maxRows) j i) = i /\
       admissible (candidates src maxRows) maxPartsToMerge maxRows j i /\
       (forall j' i',
          admissible (candidates src maxRows) maxPartsToMerge maxRows j' i' ->
          f64_ltb (amplification (candidates src maxRows) j i)
                  (amplification (candidates src maxRows) j' i') = false) /\
       f64_leb (minM maxPartsToMerge) (amplification (candidates src maxRows) j i) = true).
Proof.
  intros Hk Hrows Htot.
  assert (H0 : Forall (fun pw => 0 <= RowsCount (hdr pw)) src).
  { eapply List.Forall_impl; [| exact Hrows]. simpl. intros. lia. }
  assert (Hrange : Forall (fun pw => 1 <= RowsCount (hdr pw) < two64) src).
  { rewrite List.Forall_forall in *. intros x Hx.
    pose proof (rows_below_total src x ltac:(rewrite List.Forall_forall; exact H0) Hx).
    specialize (Hrows x Hx). lia. }
  unfold appendPartsToMerge.
  destruct (Z.ltb_spec (Z.of_nat (length src)) 2) as [Hshort | Hlong].
  { exists dst. split; [reflexivity |]. split; [auto |]. split; [auto |].
    split; [auto |]. split; [auto |].
    intros (j & i & (H2 & Hi & Hl & _) & _). exfalso.
    assert (Hcl : (length (candidates src maxRows) <= length src)%nat).
    { unfold candidates. rewrite (Permutation_length (sort_Slice_Permutation _ _)).
      unfold filter_small. apply List.filter_length_le. }
    lia. }
  destruct (Z.ltb_spec maxPartsToMerge 2) as [Hbad | _]; [lia |].
  fold (candidates src maxRows).
  set (cand := candidates src maxRows).
  set (n := if Z.of_nat (length cand) <? maxPartsToMerge
            then Z.of_nat (length cand) else maxPartsToMerge).
  assert (Hn : n = Z.min maxPartsToMerge (Z.of_nat (length cand))).
  { subst n. destruct (Z.ltb_spec (Z.of_nat (length cand)) maxPartsToMerge); lia. }
  assert (Hcr : Forall (fun pw => 1 <= RowsCount (hdr pw) < two64) cand).
  { apply candidates_Forall. exact Hrange. }
  assert (Hadm : forall i j,
            In (i, j) (search_order n (length cand)) /\
            rowsSum hdr (window cand j i) <= maxRows <->
            admissible cand maxPartsToMerge maxRows j i).
  { intros i j. unfold admissible. rewrite in_search_order.
    unfold cand at 2. rewrite rowsSum_window_exact by assumption. fold cand.
    rewrite Hn. tauto. }
  pose proof (search_fold_best cand maxRows (search_order n (length cand)) []
                (f64_zero, [])) as Hbest.
  simpl in Hbest. fold (search hdr cand n maxRows) in Hbest.
  specialize (Hbest
    ltac:(intros i j Hin; apply in_search_order in Hin;
          apply score_signed; [exact Hcr | lia | lia])
    ltac:(left; split; [reflexivity | intros ? ? []])).
  destruct (search hdr cand n maxRows) as [maxM pws].
  assert (Hsorted : StronglySorted (fun a b => planner_less hdr b a = false) cand).
  { apply sort_Slice_Sorted, planner_less_strict_weak. }
  destruct Hbest as [[Heq Hnone] | (i & j & Hin & Hfit & Heq & Hmax)].
  - (* no window fits *)
    inversion Heq; subst maxM pws.
    exists dst. split.
    { destruct (f64_ltb _ _); [reflexivity | rewrite app_nil_r; reflexivity]. }
    split; [auto |]. split; [auto |]. split; [auto |]. split; [auto |].
    intros (j & i & Had & _). exfalso.
    apply Hadm in Had as [Hin Hfit]. specialize (Hnone _ _ Hin). lia.
  - inversion Heq; subst maxM pws. clear Heq.
    assert (Had : admissible cand maxPartsToMerge maxRows j i).
    { apply Hadm. split; assumption. }
    assert (Hsc : score hdr cand j i = amplification cand j i).
    { apply score_amplification; assumption. }
    assert (Hbeats : forall j' i',
              admissible cand maxPartsToMerge maxRows j' i' ->
              f64_ltb (amplification cand j i) (amplification cand j' i') = false).
    { intros j' i' Had'. apply Hadm in Had' as [Hin' Hfit'].
      rewrite <- Hsc.
      unfold cand at 2. rewrite <- score_amplification by assumption. fold cand.
      apply Hmax; assumption. }
    assert (Hsigned : forall j' i',
              admissible cand maxPartsToMerge maxRows j' i' ->
              f64_signed false (amplification cand j' i')).
    { intros j' i' Had'. unfold cand.
      rewrite <- score_amplification by assumption. fold cand.
      destruct Had' as (H2 & _ & Hl & _).
      apply score_signed; [exact Hcr | lia | lia]. }
    destruct (f64_ltb (score hdr cand j i) (minM maxPartsToMerge)) eqn:Hlt.
    + exists dst. split; [reflexivity |]. split; [auto |]. split; [auto |].
      split; [auto |]. split; [auto |].
      intros (j' & i' & Had' & Hge). exfalso.
      rewrite Hsc in Hlt.
      rewrite (f64_ltb_negtrans _ (amplification cand j' i') _
                 (Hsigned _ _ Had) (Hsigned _ _ Had') (minM_signed _ Hk)
                 (Hbeats _ _ Had') Hge) in Hlt.
      discriminate.
    + exists (dst ++ window cand j i). split; [reflexivity |].
      assert (Hwin : window cand j i <> []).
      { intros Hnil. apply (f_equal (@length _)) in Hnil.
        destruct Had as (H2 & _ & Hl & _).
        rewrite window_length in Hnil by exact Hl. simpl in Hnil. lia. }
      split; [| split; [| split; [| split]]].
      * intros Hshort. lia.
      * intros Hlarge. exfalso.
        apply (filter_small_all_large maxRows) in Hlarge.
        assert (Hc : cand = []).
        { apply Permutation_nil. symmetry.
          unfold cand, candidates. rewrite Hlarge.
          apply sort_Slice_Permutation. }
        apply Hwin. rewrite Hc. unfold window. destruct j, i; reflexivity.
      * right. exists j, i. split; [reflexivity |].
        split; [exact Had |]. split; [exact Hsorted |].
        split; [apply sort_Slice_Permutation |].
        split; [apply window_last_largest; [exact Hsorted | apply Had] |].
        split.
        -- intros j' i' Had'. apply Hadm in Had' as [Hin' Hfit'].
           rewrite <- Hsc.
           unfold cand at 2. rewrite <- score_amplification by assumption. fold cand.
           apply Hmax; assumption.
        -- rewrite <- Hsc. apply f64_not_ltb_leb.
           ++ apply in_search_order in Hin.
              apply score_signed; [exact Hcr | lia | lia].
           ++ apply minM_signed. exact Hk.
           ++ exact Hlt.
      * intros Hall. specialize (Hall j i Had). rewrite <- Hsc in Hall. congruence.
      * intros _. exists j, i. split; [reflexivity |].
        split; [apply window_length, Had |].
        split; [exact Had |]. split; [exact Hbeats |].
        rewrite <- Hsc. apply f64_not_ltb_leb.
        -- rewrite Hsc. apply Hsigned, Had.
        -- apply minM_signed. exact Hk.
        -- exact Hlt.
Qed.

End PlannerProps.

(** Handles [0], [1], ... whose parts hold the given numbers of rows. *)
Definition hdr_rows (rows : list Z) (pw : ptr) : partHeader :=
  mkPartHeader (nth pw rows 0) 1 0 0.

Lemma appendPartsToMerge_selects_best_window_witness :
  exists j i,
    @appendPartsToMerge (refEnv 0) (hdr_rows [1; 1; 1; 1; 1; 10; 10; 10]) []
      [0; 1; 2; 3; 4; 5; 6; 7]%nat 4 30
    = Ret ([] ++ @window
                   (@candidates (refEnv 0) (hdr_rows [1; 1; 1; 1; 1; 10; 10; 10])
                      [0; 1; 2; 3; 4; 5; 6; 7]%nat 30) j i)
    /\ (2 <= i)%nat.
Proof.
  destruct (@appendPartsToMerge_selects_best_window (refEnv 0)
              (hdr_rows [1; 1; 1; 1; 1; 10; 10; 10]) []
              [0; 1; 2; 3; 4; 5; 6; 7]%nat 4 30)
    as (r & Hr & _ & _ & _ & _ & Hsel).
  - lia.
  - repeat constructor; simpl; lia.
  - vm_compute. reflexivity.
  - destruct Hsel as (j & i & Hsel & _ & Had & _).
    + exists 0%nat, 4%nat. split; [| vm_compute; reflexivity].
      assert (Hc : @candidates (refEnv 0) (hdr_rows [1; 1; 1; 1; 1; 10; 10; 10])
                     [0; 1; 2; 3; 4; 5; 6; 7]%nat 30
                   = [0; 1; 2; 3; 4; 5; 6; 7]%nat) by (vm_compute; reflexivity).
      unfold admissible. rewrite Hc. cbn. lia.
    + exists j, i. split; [rewrite Hr, Hsel; reflexivity | apply Had].
Defined.

Lemma appendPartsToMerge_counterexample :
  (@appendPartsToMerge (refEnv 0) (hdr_rows [0; 0]) [] [0; 1]%nat 2 100 = Ret [0; 1]%nat
   /\ @score (hdr_rows [0; 0]) [0; 1]%nat 0 2 = S754_nan
   /\ f64_leb (minM 2) (@score (hdr_rows [0; 0]) [0; 1]%nat 0 2) = false)
  /\
  (@appendPartsToMerge (refEnv 0) (hdr_rows (repeat (2 ^ 61) 15)) [] (seq 0 15) 15 (two64 - 1)
     = Ret (seq 0 15)
   /\ total_rows (hdr_rows (repeat (2 ^ 61) 15)) (seq 0 15) > two64 - 1).
Proof. vm_compute. repeat split; reflexivity. Qed.

(** ** The registry invariant across the partition's operations *)

Section RegistrySteps.
Context {E : Env}.

Lemma registry_inv_frame w w' held :
  same_refs w w' ->
  smallParts (pt w') = smallParts (pt w) ->
  bigParts (pt w') = bigParts (pt w) ->
  registry_inv w held -> registry_inv w' held.
Proof.
  intros Hs H1 H2 [A B]. split; rewrite H1, H2; [exact A |].
  eapply refs_inv_same; eassumption.
Qed.

Lemma registry_inv_pt w w' held :
  heap w' = heap w -> pt w' = pt w ->
  registry_inv w held -> registry_inv w' held.
Proof.
  intros Hh Hp. apply registry_inv_frame;
    [apply same_refs_heap, Hh | rewrite Hp; reflexivity | rewrite Hp; reflexivity].
Qed.

Ltac inv_frame H :=
  eapply registry_inv_frame;
    [apply same_refs_heap; reflexivity | reflexivity | reflexivity | exact H].

Lemma getPartsToMerge_frame pws maxRows isFinal w pms w' :
  getPartsToMerge pws maxRows isFinal w = Ret (pms, w') ->
  same_refs w w' /\ pt w' = pt w.
Proof.
  unfold getPartsToMerge. intros H.
  apply obind_Ret in H as (pms0 & _ & H).
  apply obind_Ret in H as (w1 & Hm & H). inversion H; subst.
  split; [eapply mark_in_merge_same_refs | eapply mark_in_merge_pt]; eassumption.
Qed.

Lemma mergeSmallParts_registry_inv isFinal w w' err held :
  registry_inv w held -> mergeSmallParts isFinal w = Ret (w', err) ->
  registry_inv w' held.
Proof.
  unfold mergeSmallParts. intros Hinv H.
  apply obind_Ret in H as ([pws w1] & Hg & H).
  apply getPartsToMerge_frame in Hg as [Hs Hpt].
  assert (H1 : registry_inv w1 held).
  { eapply registry_inv_frame; [exact Hs | | | exact Hinv]; rewrite Hpt; reflexivity. }
  destruct (length pws =? 0)%nat; [inversion H; subst; exact H1 |].
  apply obind_Ret in H as ([w2 e] & Hm & H). inversion H; subst.
  apply mergeParts_registry_inv with (held := held) in Hm as [Hm _].
  - inv_frame Hm.
  - inv_frame H1.
Qed.

Lemma mergeBigParts_registry_inv maxOut isFinal w w' err held :
  registry_inv w held -> mergeBigParts maxOut isFinal w = Ret (w', err) ->
  registry_inv w' held.
Proof.
  unfold mergeBigParts. intros Hinv H.
  apply obind_Ret in H as ([pws w1] & Hg & H).
  apply getPartsToMerge_frame in Hg as [Hs Hpt].
  assert (H1 : registry_inv w1 held).
  { eapply registry_inv_frame; [exact Hs | | | exact Hinv]; rewrite Hpt; reflexivity. }
  destruct (length pws =? 0)%nat; [inversion H; subst; exact H1 |].
  apply obind_Ret in H as ([w2 e] & Hm & H). inversion H; subst.
  apply mergeParts_registry_inv with (held := held) in Hm as [Hm _].
  - inv_frame Hm.
  - inv_frame H1.
Qed.

(** Appending a new handle to the small parts. *)
Lemma new_part_registry_inv w held q m :
  registry_inv w held ->
  registry_inv
    (upd_pt (fun x => pt_set_smallParts (smallParts x ++ [new_ptr w]) x)
       (write_pw (new_ptr w) (mkPartWrapper (Some q) m 1 false) w)) held.
Proof.
  intros [Hnd Hrefs].
  assert (Hfresh : ~ In (new_ptr w) (smallParts (pt w) ++ bigParts (pt w))).
  { intros Hx. destruct Hrefs as [H1 _].
    destruct (H1 (new_ptr w)) as [y Hy].
    { rewrite app_assoc. apply in_or_app. left. exact Hx. }
    pose proof (new_ptr_fresh w) as Hf. congruence. }
  split; simpl.
  - apply NoDup_ListNoDup.
    eapply Permutation_NoDup with (l := new_ptr w :: smallParts (pt w) ++ bigParts (pt w)).
    + rewrite <- app_assoc. simpl. apply Permutation_middle.
    + constructor; [exact Hfresh | apply NoDup_ListNoDup, Hnd].
  - eapply refs_inv_Permutation
      with (refs := new_ptr w :: smallParts (pt w) ++ bigParts (pt w) ++ held).
    + rewrite <- app_assoc. simpl. apply Permutation_middle.
    + eapply refs_inv_heap; [| apply (alloc_refs w); exact Hrefs]. reflexivity.
Qed.

Lemma addRowsPart_registry_inv rows w w' held :
  registry_inv w held -> addRowsPart rows w = Ret w' -> registry_inv w' held.
Proof.
  unfold addRowsPart. intros Hinv H.
  destruct (length rows =? 0)%nat; [inversion H; subst; exact Hinv |].
  cbv zeta in H.
  repeat match type of H with
         | (if ?b then Panic _ else _) = _ => destruct b; [discriminate |]
         end.
  destruct (inmemoryPart_NewPart _) as [q|]; [| discriminate].
  assert (H0 : registry_inv (getInmemoryPart w) held).
  { inv_frame Hinv. }
  pose proof (new_part_registry_inv (getInmemoryPart w) held q
                (Some (inmemoryPart_InitFromRows rows (clock (getInmemoryPart w)))) H0)
    as H1.
  match type of H with (if ?b then _ else _) = _ => destruct b end;
    [inversion H; subst; exact H1 |].
  apply obind_Ret in H as ([w2 e] & Hm & H).
  eapply mergeSmallParts_registry_inv in Hm; [| exact H1].
  destruct e as [[| |msg]|]; inversion H; subst; exact Hm.
Qed.

Lemma getRawRowsMaxSize_frame w rr w' :
  getRawRowsMaxSize w = (rr, w') -> heap w' = heap w /\ pt w' = pt w.
Proof.
  unfold getRawRowsMaxSize. destruct (getRawRowsWithSize _ _) as [r pools].
  intros H. inversion H; subst. auto.
Qed.

Lemma AddRows_fill_frame fuel : forall rows rrs w rrs' w',
  AddRows_fill fuel rows rrs w = Some (rrs', w') ->
  heap w' = heap w
  /\ smallParts (pt w') = smallParts (pt w)
  /\ bigParts (pt w') = bigParts (pt w).
Proof.
  induction fuel as [|fuel IH]; simpl; intros rows rrs w rrs' w' H; [discriminate |].
  destruct (_ >=? _).
  - inversion H; subst. auto.
  - destruct (getRawRowsMaxSize _) as [rr w1] eqn:Hg.
    apply getRawRowsMaxSize_frame in Hg as [Hh Hp].
    apply IH in H as (A & B & C). simpl in *.
    rewrite A, B, C, Hh, Hp. auto.
Qed.

Lemma add_swapped_out_registry_inv rrs : forall w w' held,
  registry_inv w held -> add_swapped_out rrs w = Ret w' -> registry_inv w' held.
Proof.
  induction rrs as [|rr rest IH]; simpl; intros w w' held Hinv H.
  - inversion H; subst. exact Hinv.
  - apply obind_Ret in H as (w1 & Ha & H).
    eapply IH; [| exact H].
    pose proof (addRowsPart_registry_inv _ _ _ _ Hinv Ha) as H1.
    inv_frame H1.
Qed.

Lemma AddRows_registry_inv rows w w' held :
  registry_inv w held -> AddRows rows w = Some (Ret w') -> registry_inv w' held.
Proof.
  unfold AddRows. intros Hinv H.
  destruct (length rows =? 0)%nat; [inversion H; subst; exact Hinv |].
  destruct (negb _); [discriminate |].
  destruct (AddRows_fill _ _ _ _) as [[rrs w1]|] eqn:Hf; [| discriminate].
  inversion H as [H']. clear H.
  apply AddRows_fill_frame in Hf as (A & B & C).
  eapply add_swapped_out_registry_inv; [| exact H'].
  eapply registry_inv_frame; [apply same_refs_heap, A | exact B | exact C | exact Hinv].
Qed.

Lemma flushRawRows_registry_inv newRawRows isFinal w old w' held :
  registry_inv w held -> flushRawRows newRawRows isFinal w = Ret (old, w') ->
  registry_inv w' held.
Proof.
  unfold flushRawRows. intros Hinv H.
  destruct (_ || _); [| inversion H; subst; exact Hinv].
  apply obind_Ret in H as (w1 & Ha & H). inversion H; subst.
  eapply addRowsPart_registry_inv; [| exact Ha].
  inv_frame Hinv.
Qed.

Lemma collect_aged_frame force now smalls : forall dst w dst' w',
  collect_aged force now smalls dst w = Ret (dst', w') ->
  same_refs w w' /\ pt w' = pt w.
Proof.
  induction smalls as [|l rest IH]; simpl; intros dst w dst' w' H.
  - inversion H; subst. split; [apply same_refs_refl | reflexivity].
  - apply obind_Ret in H as (pw & Hr & H). apply read_pw_Ret in Hr.
    destruct (mp pw) as [m|]; [| eapply IH; exact H].
    destruct (isInMerge pw); [eapply IH; exact H |].
    destruct (_ || _); [| eapply IH; exact H].
    apply IH in H as [A B]. split.
    + eapply same_refs_trans; [apply set_flag_same_refs; exact Hr | exact A].
    + rewrite B. reflexivity.
Qed.

Lemma collect_inmemory_frame smalls : forall pws w pws' w',
  collect_inmemory smalls pws w = Ret (pws', w') ->
  same_refs w w' /\ pt w' = pt w.
Proof.
  induction smalls as [|l rest IH]; simpl; intros pws w pws' w' H.
  - inversion H; subst. split; [apply same_refs_refl | reflexivity].
  - apply obind_Ret in H as (pw & Hr & H). apply read_pw_Ret in Hr.
    destruct (mp pw) as [m|]; [| eapply IH; exact H].
    destruct (isInMerge pw); [discriminate |].
    apply IH in H as [A B]. split.
    + eapply same_refs_trans; [apply set_flag_same_refs; exact Hr | exact A].
    + rewrite B. reflexivity.
Qed.

Lemma mergePartsOptimal_loop_registry_inv fuel : forall pws w w' err held,
  registry_inv w held -> mergePartsOptimal_loop fuel pws w = Ret (w', err) ->
  registry_inv w' held.
Proof.
  induction fuel as [|fuel IH]; intros pws w w' err held Hinv H; simpl in H.
  - destruct (_ >? _); [discriminate |].
    destruct (0 <? _)%nat; [| inversion H; subst; exact Hinv].
    apply obind_Ret in H as ([w1 e] & Hm & H).
    apply mergeParts_registry_inv with (held := held) in Hm as [Hm _]; [| exact Hinv].
    destruct (is_error e); inversion H; subst; exact Hm.
  - destruct (_ >? _).
    + apply obind_Ret in H as ([w1 e] & Hm & H).
      apply mergeParts_registry_inv with (held := held) in Hm as [Hm _]; [| exact Hinv].
      destruct (is_error e); [inversion H; subst; exact Hm |].
      eapply IH; eassumption.
    + destruct (0 <? _)%nat; [| inversion H; subst; exact Hinv].
      apply obind_Ret in H as ([w1 e] & Hm & H).
      apply mergeParts_registry_inv with (held := held) in Hm as [Hm _]; [| exact Hinv].
      destruct (is_error e); inversion H; subst; exact Hm.
Qed.

Lemma flushInmemoryParts_registry_inv dstPws force w dst' w' err held :
  registry_inv w held ->
  flushInmemoryParts dstPws force w = Ret (dst', w', err) ->
  registry_inv w' held.
Proof.
  unfold flushInmemoryParts. intros Hinv H.
  apply obind_Ret in H as ([d1 w1] & Hc & H).
  apply collect_aged_frame in Hc as [A B].
  apply obind_Ret in H as ([w2 e] & Hm & H).
  apply mergePartsOptimal_loop_registry_inv with (held := held) in Hm.
  - destruct (is_error e); inversion H; subst; exact Hm.
  - eapply registry_inv_frame; [exact A | | | exact Hinv]; rewrite B; reflexivity.
Qed.

(** Taking references to handles that are alive. *)
Lemma incRef_all_refs pws : forall w refs,
  refs_inv w refs ->
  (forall l, In l pws -> In l refs) ->
  Z.of_nat (length refs) + Z.of_nat (length pws) < two63 ->
  exists w', incRef_all pws w = Ret w' /\ refs_inv w' (pws ++ refs) /\ pt w' = pt w.
Proof.
  induction pws as [|l rest IH]; simpl; intros w refs Hinv Hin Hb.
  - exists w. auto.
  - destruct Hinv as [H1 H2] eqn:Hd. clear Hd.
    destruct (H1 l (Hin l (or_introl eq_refl))) as [pw Hpw].
    destruct (H2 l pw Hpw) as (Hc & _ & _).
    pose proof (count_occ_bound Nat.eq_dec l refs) as Hle.
    assert (Hpos : (0 < count_occ Nat.eq_dec refs l)%nat).
    { apply count_occ_In. apply Hin. left. reflexivity. }
    destruct (incRef_refs l w refs pw (conj H1 H2) Hpw ltac:(lia) ltac:(lia))
      as (w1 & Hi & Hinv1 & Hpt1).
    rewrite Hi. simpl.
    destruct (IH w1 (l :: refs) Hinv1) as (w2 & Hi2 & Hinv2 & Hpt2).
    + intros x Hx. right. apply Hin. right. exact Hx.
    + simpl length. lia.
    + exists w2. split; [exact Hi2 |]. split; [| congruence].
      eapply refs_inv_Permutation; [| exact Hinv2].
      symmetry. apply Permutation_middle.
Qed.

(** [GetParts] hands out one reference to every part of the registry. *)
Lemma GetParts_registry_inv dst w held :
  registry_inv w held ->
  Z.of_nat (length held)
  + 2 * Z.of_nat (length (smallParts (pt w) ++ bigParts (pt w))) < two63 ->
  exists w',
    GetParts dst w = Ret (dst ++ smallParts (pt w) ++ bigParts (pt w), w')
    /\ registry_inv w' ((smallParts (pt w) ++ bigParts (pt w)) ++ held)
    /\ pt w' = pt w.
Proof.
  intros [Hnd Hrefs] Hb. unfold GetParts.
  rewrite length_app in Hb.
  destruct (incRef_all_refs (smallParts (pt w)) w _ Hrefs) as (w1 & H1 & Hinv1 & Hpt1).
  { intros l Hl. apply in_or_app. left. exact Hl. }
  { rewrite !length_app. lia. }
  rewrite H1. simpl.
  destruct (incRef_all_refs (bigParts (pt w1)) w1 _ Hinv1) as (w2 & H2 & Hinv2 & Hpt2).
  { rewrite Hpt1. intros l Hl. apply in_or_app. right. apply in_or_app. right.
    apply in_or_app. left. exact Hl. }
  { rewrite Hpt1, !length_app. lia. }
  rewrite H2. simpl. exists w2. rewrite ?Hpt2, ?Hpt1, <- app_assoc.
  split; [reflexivity |]. split; [| congruence].
  split; rewrite Hpt2, Hpt1; [exact Hnd |].
  eapply refs_inv_Permutation; [| exact Hinv2]. rewrite Hpt1.
  set (S0 := smallParts (pt w)). set (B0 := bigParts (pt w)).
  rewrite <- !app_assoc.
  apply Permutation_trans with (l' := S0 ++ B0 ++ S0 ++ B0 ++ held).
  - rewrite !app_assoc. do 2 apply Permutation_app_tail.
    rewrite <- !app_assoc. apply Permutation_app_swap_app.
  - apply Permutation_app_head. reflexivity.
Qed.

(** [PutParts] gives back the references of one snapshot. *)
Lemma PutParts_registry_inv snap rest w held :
  registry_inv w held -> Permutation held (snap ++ rest) ->
  exists w', PutParts snap w = Ret w' /\ registry_inv w' rest /\ pt w' = pt w.
Proof.
  intros [Hnd Hrefs] Hp. unfold PutParts.
  destruct (decRef_all_refs snap w _ (smallParts (pt w) ++ bigParts (pt w) ++ rest) Hrefs)
    as (w' & Hd & Hinv & Hpt & _).
  { rewrite Hp.
    apply Permutation_trans
      with (l' := snap ++ (smallParts (pt w) ++ bigParts (pt w)) ++ rest).
    - rewrite (app_assoc (smallParts (pt w))). apply Permutation_app_swap_app.
    - rewrite <- app_assoc. reflexivity. }
  exists w'. split; [exact Hd |]. split; [| exact Hpt].
  split; rewrite Hpt; assumption.
Qed.

Lemma decRef_all_app a : forall b w,
  decRef_all (a ++ b) w = (w1 <-- decRef_all a w ;; decRef_all b w1).
Proof.
  induction a as [|l a IH]; simpl; intros b w; [reflexivity |].
  destruct (decRef l w); simpl; [apply IH | reflexivity].
Qed.

(** The release at the end of [MustClose]: both lists become empty and each
    of their handles loses the registry's reference. *)
Lemma release_parts_registry_inv w held :
  registry_inv w held ->
  exists w',
    release_parts w = Ret w'
    /\ smallParts (pt w') = [] /\ bigParts (pt w') = []
    /\ refs_inv w' held
    /\ disk w' = disk w.
Proof.
  intros [Hnd Hrefs]. unfold release_parts.
  destruct (decRef_all_refs (smallParts (pt w))
              (upd_pt (pt_set_smallParts []) w)
              (smallParts (pt w) ++ bigParts (pt w) ++ held)
              (bigParts (pt w) ++ held))
    as (w1 & H1 & Hinv1 & Hpt1 & Hd1).
  { eapply refs_inv_heap; [| exact Hrefs]. reflexivity. }
  { reflexivity. }
  rewrite H1. simpl.
  destruct (decRef_all_refs (bigParts (pt w1))
              (upd_pt (pt_set_bigParts []) w1) (bigParts (pt w) ++ held) held)
    as (w2 & H2 & Hinv2 & Hpt2 & Hd2).
  { eapply refs_inv_heap; [| exact Hinv1]. reflexivity. }
  { rewrite Hpt1. reflexivity. }
  exists w2. split; [exact H2 |].
  rewrite Hpt2, Hd2. simpl. rewrite Hpt1, Hd1. simpl. auto.
Qed.


Lemma decRef_all_pt pws : forall w w',
  decRef_all pws w = Ret w' -> pt w' = pt w.
Proof.
  induction pws as [|l rest IH]; simpl; intros w w' H.
  - inversion H; reflexivity.
  - apply obind_Ret in H as (w1 & H1 & H2). rewrite (IH _ _ H2).
    destruct (decRef_inv _ _ _ H1) as (pw & pw' & _ & _ & _ & _ & Hpt & _).
    exact Hpt.
Qed.

Lemma release_parts_lists w w' :
  release_parts w = Ret w' -> smallParts (pt w') = [] /\ bigParts (pt w') = [].
Proof.
  unfold release_parts. intros H.
  apply obind_Ret in H as (w1 & H1 & H2).
  apply decRef_all_pt in H1. apply decRef_all_pt in H2.
  rewrite H2. simpl. rewrite H1. simpl. auto.
Qed.

(** What [MustClose] does before the release keeps the invariant. *)
Lemma MustClose_release w w' held :
  registry_inv w held -> MustClose w = Ret w' ->
  exists w1, registry_inv w1 held /\ release_parts w1 = Ret w'.
Proof.
  unfold MustClose. intros Hinv H.
  apply obind_Ret in H as ([old w1] & Hf & H).
  apply flushRawRows_registry_inv with (held := held) in Hf; [| exact Hinv].
  apply obind_Ret in H as ([pws w2] & Hc & H).
  apply collect_inmemory_frame in Hc as [A B].
  apply obind_Ret in H as ([w3 e] & Hm & H).
  apply mergePartsOptimal_loop_registry_inv with (held := held) in Hm.
  - destruct (is_error e); [discriminate |]. exists w3. auto.
  - eapply registry_inv_frame; [exact A | | | exact Hf]; rewrite B; reflexivity.
Qed.

Lemma MustClose_lists w w' :
  MustClose w = Ret w' -> smallParts (pt w') = [] /\ bigParts (pt w') = [].
Proof.
  unfold MustClose. intros H.
  apply obind_Ret in H as ([old w1] & _ & H).
  apply obind_Ret in H as ([pws w2] & _ & H).
  apply obind_Ret in H as ([w3 e] & _ & H).
  destruct (is_error e); [discriminate |].
  apply release_parts_lists in H. exact H.
Qed.

Lemma MustClose_registry_inv w w' held :
  registry_inv w held -> MustClose w = Ret w' -> registry_inv w' held.
Proof.
  intros Hinv H.
  destruct (MustClose_lists _ _ H) as [Hs Hb].
  destruct (MustClose_release _ _ _ Hinv H) as (w1 & Hinv1 & Hr).
  destruct (release_parts_registry_inv _ _ Hinv1) as (w2 & Hr2 & _ & _ & Hrefs & _).
  rewrite Hr in Hr2. inversion Hr2; subst w2.
  split; rewrite Hs, Hb; [constructor | exact Hrefs].
Qed.

(** The registry's reference counted: one for a handle of the part lists,
    none for any other. *)
Definition registry_refs (w : world) (l : ptr) : Z :=
  if in_dec Nat.eq_dec l (smallParts (pt w) ++ bigParts (pt w)) then 1 else 0.

Lemma registry_refs_count w l :
  NoDup (smallParts (pt w) ++ bigParts (pt w)) ->
  Z.of_nat (count_occ Nat.eq_dec (smallParts (pt w) ++ bigParts (pt w)) l)
  = registry_refs w l.
Proof.
  intros Hnd. unfold registry_refs.
  destruct (in_dec _ _ _) as [Hin | Hnin].
  - apply NoDup_ListNoDup in Hnd.
    rewrite (proj1 (NoDup_count_occ' Nat.eq_dec _) Hnd l Hin). reflexivity.
  - apply (count_occ_not_In Nat.eq_dec) in Hnin. rewrite Hnin. reflexivity.
Qed.

(** C6: after [MustClose] returns both part lists are empty; it ends with
    the release of the part lists, reached in a state that keeps the
    registry invariant; and that release, which always returns from such a
    state, lowers the reference count of every handle of the two lists by
    exactly one and leaves every other count as it was, so that the counts
    that remain are those of the references handed out by [GetParts]. *)
Theorem MustClose_empties_part_lists :
  (forall w w', MustClose w = Ret w' ->
     smallParts (pt w') = [] /\ bigParts (pt w') = [])
  /\ (forall w w' held, registry_inv w held -> MustClose w = Ret w' ->
        exists w1, registry_inv w1 held /\ release_parts w1 = Ret w')
  /\ (forall w held, registry_inv w held ->
        exists w',
          release_parts w = Ret w'
          /\ smallParts (pt w') = [] /\ bigParts (pt w') = []
          /\ refs_inv w' held
          /\ forall l pw, heap w !! l = Some pw ->
               exists pw', heap w' !! l = Some pw'
                           /\ refCount pw' = refCount pw - registry_refs w l).
Proof.
  split; [exact MustClose_lists |]. split; [exact MustClose_release |].
  intros w held Hinv.
  destruct (release_parts_registry_inv _ _ Hinv) as (w' & Hr & Hs & Hb & Hrefs & _).
  exists w'. split; [exact Hr |]. split; [exact Hs |]. split; [exact Hb |].
  split; [exact Hrefs |].
  intros l pw Hl.
  assert (Hdom : dom (heap w') = dom (heap w)).
  { unfold release_parts in Hr.
    apply obind_Ret in Hr as (w1 & H1 & H2).
    apply decRef_all_dom in H1. apply decRef_all_dom in H2.
    rewrite H2. simpl. rewrite H1. reflexivity. }
  assert (Hin : is_Some (heap w' !! l)).
  { apply elem_of_dom. rewrite Hdom. apply elem_of_dom. eauto. }
  destruct Hin as [pw' Hl']. exists pw'. split; [exact Hl' |].
  destruct Hinv as [Hnd [_ Hc]]. destruct Hrefs as [_ Hc'].
  destruct (Hc l pw Hl) as (-> & _). destruct (Hc' l pw' Hl') as (-> & _).
  rewrite app_assoc, count_occ_app, Nat2Z.inj_add, registry_refs_count by exact Hnd.
  lia.
Qed.

(** *** The operations as steps *)

(** One step of the partition: an operation that returns. [held] lists the
    references handed out by [GetParts] and not yet given back, one entry per
    reference; a search gives back a snapshot it holds. Fewer than 2^63
    references live at a time. The last step stands for what the rest of
    the process does to the clock, the disk and the pools. *)
Inductive pt_step : world * list ptr -> world * list ptr -> Prop :=
| step_AddRows rows w w' held :
    AddRows rows w = Some (Ret w') -> pt_step (w, held) (w', held)
| step_GetParts w w' snap held :
    Z.of_nat (length held)
    + 2 * Z.of_nat (length (smallParts (pt w) ++ bigParts (pt w))) < two63 ->
    GetParts [] w = Ret (snap, w') -> pt_step (w, held) (w', snap ++ held)
| step_PutParts snap rest w w' held :
    Permutation held (snap ++ rest) ->
    PutParts snap w = Ret w' -> pt_step (w, held) (w', rest)
| step_flushRawRows newRawRows isFinal old w w' held :
    flushRawRows newRawRows isFinal w = Ret (old, w') -> pt_step (w, held) (w', held)
| step_flushInmemoryParts dstPws force dst' err w w' held :
    flushInmemoryParts dstPws force w = Ret (dst', w', err) ->
    pt_step (w, held) (w', held)
| step_mergeSmallParts isFinal err w w' held :
    mergeSmallParts isFinal w = Ret (w', err) -> pt_step (w, held) (w', held)
| step_mergeBigParts maxOutPartRows isFinal err w w' held :
    mergeBigParts maxOutPartRows isFinal w = Ret (w', err) ->
    pt_step (w, held) (w', held)
| step_MustClose w w' held :
    MustClose w = Ret w' -> pt_step (w, held) (w', held)
| step_elsewhere w w' held :
    heap w' = heap w -> pt w' = pt w -> pt_step (w, held) (w', held).

Lemma pt_step_registry_inv s s' :
  pt_step s s' -> registry_inv (fst s) (snd s) -> registry_inv (fst s') (snd s').
Proof.
  intros Hstep. destruct Hstep; simpl; intros Hinv.
  - eapply AddRows_registry_inv; eassumption.
  - destruct (GetParts_registry_inv [] w held Hinv) as (w1 & Hg & Hinv1 & _);
      [assumption |].
    match goal with H : GetParts [] w = Ret (snap, w') |- _ =>
      rewrite Hg in H; inversion H; subst end.
    exact Hinv1.
  - destruct (PutParts_registry_inv snap rest w held Hinv) as (w1 & Hp & Hinv1 & _);
      [assumption |].
    match goal with H : PutParts snap w = Ret w' |- _ =>
      rewrite Hp in H; inversion H; subst end.
    exact Hinv1.
  - eapply flushRawRows_registry_inv; eassumption.
  - eapply flushInmemoryParts_registry_inv; eassumption.
  - eapply mergeSmallParts_registry_inv; eassumption.
  - eapply mergeBigParts_registry_inv; eassumption.
  - eapply MustClose_registry_inv; eassumption.
  - eapply registry_inv_pt; eassumption.
Qed.

Lemma pt_steps_registry_inv s s' :
  rtc pt_step s s' -> registry_inv (fst s) (snd s) -> registry_inv (fst s') (snd s').
Proof.
  induction 1 as [|s1 s2 s3 Hstep _ IH]; [auto |].
  intros Hinv. apply IH. eapply pt_step_registry_inv; eassumption.
Qed.

(** A partition without parts, as [createPartition] makes it, satisfies the
    invariant when no handle exists yet. *)
Lemma registry_inv_empty w :
  heap w = ∅ -> smallParts (pt w) = [] -> bigParts (pt w) = [] ->
  registry_inv w [].
Proof.
  intros Hh Hs Hb. split; rewrite Hs, Hb; simpl; [constructor |].
  split; [intros l [] |]. intros l pw Hl. rewrite Hh, lookup_empty in Hl. discriminate.
Qed.

(** C7: [decRef] panics on a count of 0 (and on one that reads as negative);
    on a count of 1 it writes 0, returns the in-memory part, if any, to its
    pool, closes the part and clears both pointers; on a greater count it
    only writes the count less one, so the part stays open. And along every
    run of the partition's operations from a state that satisfies the
    registry invariant, every handle of the part lists exists with a count
    of at least 1 and an open part. *)
Theorem decRef_guards_reference_count :
  (forall l w pw, heap w !! l = Some pw ->
     refCount pw = 0 \/ two63 < refCount pw < two64 ->
     exists msg, decRef l w = Panic msg)
  /\ (forall l w pw q, heap w !! l = Some pw ->
        refCount pw = 1 -> p pw = Some q ->
        decRef l w
        = Ret (write_pw l (mkPartWrapper None None 0 (isInMerge pw))
                 (part_MustClose q
                    match mp pw with
                    | Some m => putInmemoryPart m w
                    | None => w
                    end)))
  /\ (forall l w pw, heap w !! l = Some pw ->
        2 <= refCount pw <= two63 ->
        decRef l w = Ret (write_pw l (set_refCount (refCount pw - 1) pw) w))
  /\ (forall s s', rtc pt_step s s' -> registry_inv (fst s) (snd s) ->
        forall l, In l (smallParts (pt (fst s')) ++ bigParts (pt (fst s'))) ->
          exists pw, heap (fst s') !! l = Some pw
                     /\ 1 <= refCount pw /\ is_Some (p pw)).
Proof.
  split; [| split; [| split]].
  - intros l w pw Hl Hc. unfold decRef, read_pw. rewrite Hl. simpl.
    unfold atomic_AddUint64, wrap64, not_zero64, int64_of_uint64.
    destruct Hc as [-> | Hc].
    + eexists. reflexivity.
    + assert (0 < two63 /\ two63 < two64) as [? ?] by (split; reflexivity).
      replace (refCount pw + (two64 - 1)) with (refCount pw - 1 + 1 * two64) by lia.
      rewrite Z.mod_add by (unfold two64; lia).
      rewrite Z.mod_small by lia.
      destruct (Z.ltb_spec (refCount pw - 1) two63); [lia |].
      destruct (Z.ltb_spec (refCount pw - 1 - two64) 0); [| lia].
      eexists. reflexivity.
  - intros l w pw q Hl Hc Hp. unfold decRef, read_pw. rewrite Hl. cbn [obind].
    rewrite Hc, Hp. reflexivity.
  - intros l w pw Hl Hc. unfold decRef, read_pw. rewrite Hl. simpl.
    unfold atomic_AddUint64, wrap64, not_zero64, int64_of_uint64.
    replace (refCount pw + (two64 - 1)) with (refCount pw - 1 + 1 * two64) by lia.
    rewrite Z.mod_add by (unfold two64; lia).
    assert (0 < two63 /\ two63 < two64) as [? ?] by (split; reflexivity).
    rewrite Z.mod_small by lia.
    destruct (Z.ltb_spec (refCount pw - 1) two63); [| lia].
    destruct (Z.ltb_spec (refCount pw - 1) 0); [lia |].
    destruct (Z.gtb_spec (refCount pw - 1) 0); [reflexivity | lia].
  - intros s s' Hs Hinv l Hl.
    eapply registry_inv_refCount; [| exact Hl].
    eapply pt_steps_registry_inv; eassumption.
Qed.

End RegistrySteps.

(** ** Buffer swaps in [AddRows] *)

Section BufferSwaps.
Context {E : Env}.

(** The value [getMaxRawRowsPerPartition()] returns. *)
Definition maxRawRowsPerPartition : Z :=
  getMaxRawRowsPerPartition memory_Allowed sizeof_rawRow.

Lemma maxRawRowsPerPartition_range : 10000 <= maxRawRowsPerPartition <= 500000.
Proof.
  unfold maxRawRowsPerPartition, getMaxRawRowsPerPartition.
  destruct (Z.ltb_spec (memory_Allowed / 256 / sizeof_rawRow) 10000);
    [simpl; lia |].
  destruct (Z.gtb_spec (memory_Allowed / 256 / sizeof_rawRow) 500000); lia.
Qed.

(** Up to 2^18 rows the pool's bucket holds buffers of the rounded size,
    which is not below the size asked for. *)
Lemma getRawRowsPool_rounds size :
  1 < size <= 2 ^ 18 ->
  exists idx, getRawRowsPool size = (idx, 2 ^ idx) /\ 0 <= idx <= 18 /\ size <= 2 ^ idx.
Proof.
  intros Hs. unfold getRawRowsPool, bits_LeadingZeros64, bits_Len64, rawRowsPools_len.
  destruct (Z.ltb_spec (size - 1) 0); [lia |].
  destruct (Z.leb_spec (size - 1) 0); [lia |].
  pose proof (Z.log2_spec (size - 1) ltac:(lia)) as [Hlo Hhi].
  pose proof (Z.log2_nonneg (size - 1)) as Hnn.
  assert (Hlt : Z.log2 (size - 1) < 18).
  { apply Z.log2_lt_pow2; lia. }
  replace (64 - (64 - (Z.log2 (size - 1) + 1))) with (Z.log2 (size - 1) + 1) by lia.
  destruct (Z.geb_spec (Z.log2 (size - 1) + 1) 19); [lia |].
  exists (Z.log2 (size - 1) + 1). rewrite Z.shiftl_1_l.
  replace (Z.succ (Z.log2 (size - 1))) with (Z.log2 (size - 1) + 1) in Hhi by lia.
  repeat split; lia.
Qed.

(** The buffers a bucket may hold: empty, with room for [n] rows. *)
Definition bucket_ok (n : Z) (b : list rowSlice) : Prop :=
  Forall (fun rr => elems rr = [] /\ n <= cap rr) b.

(** The buffers the pool may hand out for [maxRawRowsPerPartition] rows. *)
Definition pools_ok (pools : rowPools) : Prop :=
  forall b,
    nth_error pools (Z.to_nat (fst (getRawRowsPool maxRawRowsPerPartition))) = Some b ->
    bucket_ok maxRawRowsPerPartition b.

Lemma getRawRowsMaxSize_fresh w rr w' :
  maxRawRowsPerPartition <= 2 ^ 18 ->
  pools_ok (rawRowsPools w) ->
  getRawRowsMaxSize w = (rr, w') ->
  elems rr = [] /\ maxRawRowsPerPartition <= cap rr
  /\ pt w' = pt w /\ heap w' = heap w.
Proof.
  intros Hn Hok. unfold getRawRowsMaxSize, getRawRowsWithSize.
  fold maxRawRowsPerPartition.
  pose proof maxRawRowsPerPartition_range as Hr.
  destruct (getRawRowsPool_rounds maxRawRowsPerPartition ltac:(lia))
    as (idx & Hp & Hidx & Hle).
  unfold pools_ok in Hok. rewrite Hp in *. simpl in Hok.
  unfold pool_get.
  destruct (nth_error (rawRowsPools w) (Z.to_nat idx)) as [[|v rest]|] eqn:Hb.
  - intros H. inversion H; subst. simpl. auto.
  - intros H. inversion H; subst. simpl.
    specialize (Hok _ eq_refl). inversion Hok as [|? ? [Hv1 Hv2] _]; subst. auto.
  - intros H. inversion H; subst. simpl. auto.
Qed.

(** The two branches of the loop of [AddRows]. *)
Lemma AddRows_fill_fast fuel rows rrs w :
  Z.of_nat (length rows) <= cap (rawRows (pt w)) - len (rawRows (pt w)) ->
  AddRows_fill (S fuel) rows rrs w
  = Some (rrs, upd_pt (fun q => pt_set_rawRows (append_rows (rawRows q) rows) q) w).
Proof.
  intros H. cbn [AddRows_fill].
  destruct (Z.geb_spec (cap (rawRows (pt w)) - len (rawRows (pt w)))
              (Z.of_nat (length rows))); [reflexivity | lia].
Qed.

(** The state after a swap: the buffer filled, taken out and replaced. *)
Definition swap_out (rows : list rawRow) (w : world) : world * rowSlice :=
  let capacity := cap (rawRows (pt w)) - len (rawRows (pt w)) in
  let w := upd_pt (fun q =>
             pt_set_rawRows
               (append_rows (rawRows q) (firstn (Z.to_nat capacity) rows)) q) w in
  let '(rr, w) := getRawRowsMaxSize w in
  let full := rawRows (pt w) in
  let w := upd_pt (pt_set_rawRows rr) w in
  (upd_pt (pt_set_rawRowsLastFlushTime (clock w)) w, full).

Lemma AddRows_fill_slow fuel rows rrs w :
  cap (rawRows (pt w)) - len (rawRows (pt w)) < Z.of_nat (length rows) ->
  AddRows_fill (S fuel) rows rrs w
  = AddRows_fill fuel
      (skipn (Z.to_nat (cap (rawRows (pt w)) - len (rawRows (pt w)))) rows)
      (rrs ++ [snd (swap_out rows w)]) (fst (swap_out rows w)).
Proof.
  intros H. cbn [AddRows_fill]. unfold swap_out.
  destruct (Z.geb_spec (cap (rawRows (pt w)) - len (rawRows (pt w)))
              (Z.of_nat (length rows))); [lia |].
  destruct (getRawRowsMaxSize _) as [rr w1]. reflexivity.
Qed.

Lemma swap_out_spec rows w :
  maxRawRowsPerPartition <= 2 ^ 18 ->
  pools_ok (rawRowsPools w) ->
  slice_wf (rawRows (pt w)) ->
  cap (rawRows (pt w)) - len (rawRows (pt w)) < Z.of_nat (length rows) ->
  elems (snd (swap_out rows w))
    = elems (rawRows (pt w))
      ++ firstn (Z.to_nat (cap (rawRows (pt w)) - len (rawRows (pt w)))) rows
  /\ cap (snd (swap_out rows w)) = cap (rawRows (pt w))
  /\ len (snd (swap_out rows w)) = cap (rawRows (pt w))
  /\ elems (rawRows (pt (fst (swap_out rows w)))) = []
  /\ maxRawRowsPerPartition <= cap (rawRows (pt (fst (swap_out rows w))))
  /\ heap (fst (swap_out rows w)) = heap w
  /\ smallParts (pt (fst (swap_out rows w))) = smallParts (pt w)
  /\ bigParts (pt (fst (swap_out rows w))) = bigParts (pt w).
Proof.
  intros Hn Hok Hwf Hlt. unfold swap_out.
  destruct (getRawRowsMaxSize _) as [rr w1] eqn:Hg.
  apply getRawRowsMaxSize_fresh in Hg as (He & Hc & Hpt & Hh); [| exact Hn | exact Hok].
  simpl. rewrite Hpt, Hh. simpl.
  unfold slice_wf, len in *.
  assert (Hl : length (elems (rawRows (pt w))
                       ++ firstn (Z.to_nat (cap (rawRows (pt w))
                                            - Z.of_nat (length (elems (rawRows (pt w))))))
                            rows)
               = Z.to_nat (cap (rawRows (pt w)))).
  { rewrite length_app, length_firstn. lia. }
  repeat split; auto.
  - rewrite Hl. lia.
  - cbn [append_rows elems]. rewrite Hl. lia.
Qed.

(** C8, amended: when [maxRawRowsPerPartition] is at most 2^18, the largest
    size the pool rounds to, and the buffers pooled for that size are empty
    with room for that many rows, [AddRows] of a valid batch of at most
    [maxRawRowsPerPartition] rows swaps the buffer at most once, whatever the
    buffer holds: the batch fits what is left of the buffer and nothing is
    swapped, or the buffer is filled to its capacity and swapped out once
    and the rest of the batch is all in the fresh buffer. *)
Theorem AddRows_swaps_at_most_once (rows : list rawRow) (w : world) :
  maxRawRowsPerPartition <= 2 ^ 18 ->
  pools_ok (rawRowsPools w) ->
  slice_wf (rawRows (pt w)) ->
  rows <> [] ->
  forallb (valid_row (pt w)) rows = true ->
  Z.of_nat (length rows) <= maxRawRowsPerPartition ->
  exists rrs w1,
    AddRows_fill (length rows + 2) rows [] w = Some (rrs, w1)
    /\ AddRows rows w = Some (add_swapped_out rrs w1)
    /\ (Z.of_nat (length rows) <= cap (rawRows (pt w)) - len (rawRows (pt w)) ->
          rrs = []
          /\ rawRows (pt w1) = append_rows (rawRows (pt w)) rows
          /\ cap (rawRows (pt w1)) = cap (rawRows (pt w)))
    /\ (cap (rawRows (pt w)) - len (rawRows (pt w)) < Z.of_nat (length rows) ->
          exists full,
            rrs = [full]
            /\ elems full
               = elems (rawRows (pt w))
                 ++ firstn (Z.to_nat (cap (rawRows (pt w)) - len (rawRows (pt w)))) rows
            /\ len full = cap full
            /\ elems (rawRows (pt w1))
               = skipn (Z.to_nat (cap (rawRows (pt w)) - len (rawRows (pt w)))) rows
            /\ len (rawRows (pt w1)) <= cap (rawRows (pt w1))).
Proof.
  intros Hn Hok Hwf Hne Hvalid Hlen.
  assert (Hadd : forall rrs w1,
            AddRows_fill (length rows + 2) rows [] w = Some (rrs, w1) ->
            AddRows rows w = Some (add_swapped_out rrs w1)).
  { intros rrs w1 Hf. unfold AddRows.
    destruct (length rows =? 0)%nat eqn:Hz.
    { apply Nat.eqb_eq in Hz. destruct rows; [contradiction | discriminate]. }
    rewrite Hvalid. cbn [negb]. rewrite Hf. reflexivity. }
  rewrite Nat.add_comm. cbn [Nat.add].
  rewrite Nat.add_comm in Hadd. cbn [Nat.add] in Hadd.
  destruct (Z_le_gt_dec (Z.of_nat (length rows))
              (cap (rawRows (pt w)) - len (rawRows (pt w)))) as [Hfit | Hno].
  - eexists _, _. split; [apply AddRows_fill_fast; exact Hfit |].
    split; [apply Hadd, AddRows_fill_fast; exact Hfit |].
    split; [| lia]. intros _. split; [reflexivity |]. split; [reflexivity |].
    cbn [upd_pt set_pt pt pt_set_rawRows rawRows append_rows cap elems].
    rewrite length_app. unfold len in Hfit. lia.
  - assert (Hlt : cap (rawRows (pt w)) - len (rawRows (pt w)) < Z.of_nat (length rows))
      by lia.
    destruct (swap_out_spec rows w Hn Hok Hwf Hlt)
      as (He & Hc & Hl & He' & Hc' & _).
    assert (Hrest : Z.of_nat (length (skipn (Z.to_nat (cap (rawRows (pt w))
                                                       - len (rawRows (pt w)))) rows))
                    <= cap (rawRows (pt (fst (swap_out rows w))))
                       - len (rawRows (pt (fst (swap_out rows w))))).
    { unfold len at 2. rewrite He'. cbn [length]. rewrite length_skipn. lia. }
    assert (Hrun : AddRows_fill (S (S (length rows))) rows [] w
                   = Some ([snd (swap_out rows w)],
                           upd_pt (fun q =>
                             pt_set_rawRows
                               (append_rows (rawRows q)
                                  (skipn (Z.to_nat (cap (rawRows (pt w))
                                                    - len (rawRows (pt w)))) rows)) q)
                             (fst (swap_out rows w)))).
    { rewrite AddRows_fill_slow by exact Hlt.
      rewrite AddRows_fill_fast by exact Hrest. reflexivity. }
    eexists _, _. split; [exact Hrun |]. split; [apply Hadd, Hrun |].
    split; [lia |]. intros _.
    exists (snd (swap_out rows w)). split; [reflexivity |].
    split; [exact He |]. split; [lia |].
    unfold len.
    cbn [upd_pt set_pt pt pt_set_rawRows rawRows append_rows cap elems].
    rewrite He'. cbn [app]. split; [reflexivity |].
    rewrite length_skipn. lia.
Qed.


(** *** Above 2^18 rows *)

(** With [maxRawRowsPerPartition] at its upper bound the pool rounds to its
    last bucket, whose buffers hold 2^18 rows. *)
Lemma getRawRowsMaxSize_large w :
  maxRawRowsPerPartition = 500000 ->
  rawRowsPools w = repeat [] 19 ->
  getRawRowsMaxSize w = (make_rows 262144, set_rawRowsPools (repeat [] 19) w).
Proof.
  intros Hn Hp. unfold getRawRowsMaxSize. fold maxRawRowsPerPartition.
  rewrite Hn, Hp. reflexivity.
Qed.

Lemma swap_out_large rows w :
  maxRawRowsPerPartition = 500000 ->
  rawRowsPools w = repeat [] 19 ->
  rawRows (pt (fst (swap_out rows w))) = make_rows 262144
  /\ rawRowsPools (fst (swap_out rows w)) = repeat [] 19.
Proof.
  intros Hn Hp. unfold swap_out.
  rewrite getRawRowsMaxSize_large by assumption. split; reflexivity.
Qed.

(** From a buffer with room for [c] rows a batch of 500000 rows, of which
    more than 2^18 are left once the buffer is full, is added with two
    swaps. *)
Lemma AddRows_fill_swaps_twice (rows : list rawRow) (w : world) :
  maxRawRowsPerPartition = 500000 ->
  rawRowsPools w = repeat [] 19 ->
  slice_wf (rawRows (pt w)) ->
  Z.of_nat (length rows) = 500000 ->
  262144 < 500000 - (cap (rawRows (pt w)) - len (rawRows (pt w))) ->
  exists full1 full2 w',
    AddRows_fill (length rows + 2) rows [] w = Some ([full1; full2], w').
Proof.
  intros Hn Hp Hwf Hlen Hc.
  rewrite Nat.add_comm. cbn [Nat.add].
  assert (Hgen : forall fuel, exists full1 full2 w',
            AddRows_fill (S (S (S fuel))) rows [] w = Some ([full1; full2], w'));
    [| destruct (length rows) as [|n]; [lia | apply Hgen]].
  intros fuel. unfold slice_wf in Hwf.
  rewrite AddRows_fill_slow by lia.
  destruct (swap_out_large rows w Hn Hp) as [Hr1 Hp1].
  set (w1 := fst (swap_out rows w)) in *.
  set (rows1 := skipn (Z.to_nat (cap (rawRows (pt w)) - len (rawRows (pt w)))) rows).
  assert (Hl1 : Z.of_nat (length rows1)
                = 500000 - (cap (rawRows (pt w)) - len (rawRows (pt w)))).
  { subst rows1. rewrite length_skipn. lia. }
  rewrite AddRows_fill_slow
    by (rewrite Hr1; change (len (make_rows 262144)) with 0;
        change (cap (make_rows 262144)) with 262144; lia).
  destruct (swap_out_large rows1 w1 Hn Hp1) as [Hr2 Hp2].
  rewrite AddRows_fill_fast.
  - eexists _, _, _. reflexivity.
  - rewrite Hr2, length_skipn, Hr1. change (len (make_rows 262144)) with 0.
    change (cap (make_rows 262144)) with 262144. lia.
Qed.

End BufferSwaps.

(** A partition of the reference environment with memory for 500000 rows:
    its buffer holds [fill] rows of [capacity]. *)
Definition sample_row : rawRow := mkRawRow 1 0 0 64.

Definition buffer_world (capacity fill : Z) : @world (refEnv (2 ^ 33)) :=
  @mkWorld (refEnv (2 ^ 33))
    (mkPartition "/small" "/big" "p" 0 1000 [] []
       (mkSlice (repeat sample_row (Z.to_nat fill)) capacity)
       0 0 0 0 0 0 0 0 0 0 0)
    ∅ [] [] (repeat [] 19) [] 0 [].

Lemma AddRows_fill_counterexample_at capacity fill :
  0 <= fill <= capacity ->
  262144 < 500000 - (capacity - fill) ->
  exists full1 full2 w',
    AddRows_fill (length (repeat sample_row (Z.to_nat 500000)) + 2)
      (repeat sample_row (Z.to_nat 500000)) [] (buffer_world capacity fill)
    = Some ([full1; full2], w').
Proof.
  intros Hf Hc. apply AddRows_fill_swaps_twice.
  - reflexivity.
  - reflexivity.
  - unfold slice_wf, len. cbn [buffer_world pt rawRows elems cap].
    rewrite repeat_length. lia.
  - rewrite repeat_length. lia.
  - unfold len. cbn [buffer_world pt rawRows elems cap].
    rewrite repeat_length. lia.
Qed.

Lemma AddRows_counterexample :
  @maxRawRowsPerPartition (refEnv (2 ^ 33)) = 500000
  /\ cap (rawRows (pt (buffer_world 524288 300000))) = 524288
  /\ (exists full1 full2 w',
        AddRows_fill (length (repeat sample_row (Z.to_nat 500000)) + 2)
          (repeat sample_row (Z.to_nat 500000)) [] (buffer_world 524288 300000)
        = Some ([full1; full2], w'))
  /\ fst (getRawRowsMaxSize (buffer_world 524288 300000)) = make_rows 262144
  /\ (exists full1 full2 w',
        AddRows_fill (length (repeat sample_row (Z.to_nat 500000)) + 2)
          (repeat sample_row (Z.to_nat 500000)) [] (buffer_world 262144 100000)
        = Some ([full1; full2], w')).
Proof.
  split; [reflexivity |]. split; [reflexivity |].
  split; [apply AddRows_fill_counterexample_at; lia |].
  split; [rewrite getRawRowsMaxSize_large by reflexivity; reflexivity |].
  apply AddRows_fill_counterexample_at; lia.
Qed.

(** A partition of the reference environment with memory for 10000 rows,
    without parts, its buffer empty. *)
Definition sample_world : @world (refEnv 0) :=
  @mkWorld (refEnv 0)
    (mkPartition "/data/small/2023_07" "/data/big/2023_07" "2023_07" 0 1000 [] []
       (mkSlice [] 16384) 0 0 0 0 0 0 0 0 0 0 0)
    ∅ [] [] (repeat [] 19) [] 0 [].

(** The same partition with 16380 rows in its buffer of 16384, and one
    empty buffer of 16384 rows in the pool. *)
Definition nearly_full_world : @world (refEnv 0) :=
  @mkWorld (refEnv 0)
    (mkPartition "/data/small/2023_07" "/data/big/2023_07" "2023_07" 0 1000 [] []
       (mkSlice (repeat sample_row (Z.to_nat 16380)) 16384) 0 0 0 0 0 0 0 0 0 0 0)
    ∅ [] [] (repeat [] 14 ++ [[mkSlice [] 16384]] ++ repeat [] 4) [] 0 [].

Lemma AddRows_swaps_at_most_once_witness :
  exists full w1,
    @AddRows (refEnv 0) (repeat sample_row 10) nearly_full_world
    = Some (add_swapped_out [full] w1)
    /\ len full = cap full
    /\ elems (rawRows (pt w1)) = repeat sample_row 6.
Proof.
  destruct (@AddRows_swaps_at_most_once (refEnv 0) (repeat sample_row 10)
              nearly_full_world)
    as (rrs & w1 & _ & H & _ & Hswap).
  - vm_compute. discriminate.
  - intros b Hb. vm_compute in Hb. inversion Hb.
    repeat constructor. vm_compute. discriminate.
  - vm_compute. discriminate.
  - discriminate.
  - reflexivity.
  - vm_compute. discriminate.
  - destruct Hswap as (full & -> & _ & Hfull & Hrest & _).
    + vm_compute. reflexivity.
    + exists full, w1. split; [exact H |]. split; [exact Hfull |].
      assert (Hsk : skipn (Z.to_nat (cap (rawRows (pt nearly_full_world))
                                     - len (rawRows (pt nearly_full_world))))
                      (repeat sample_row 10)
                    = repeat sample_row 6) by (vm_compute; reflexivity).
      rewrite Hsk in Hrest. exact Hrest.
Defined.

(** ** Splitting strings *)

(** No occurrence of [sep] starts inside [a] when [a] is followed by [rest]. *)
Fixpoint no_occ (sep a rest : string) : Prop :=
  match a with
  | EmptyString => True
  | String c a' =>
      String.prefix sep (String c (a' ++ rest)%string) = false /\ no_occ sep a' rest
  end.

(** [s] holds no line feed. *)
Fixpoint no_newline (s : string) : Prop :=
  match s with
  | EmptyString => True
  | String c s' => c <> ascii_of_nat 10 /\ no_newline s'
  end.

Lemma append_nil s : (EmptyString ++ s)%string = s.
Proof. reflexivity. Qed.

Lemma append_cons c a b : (String c a ++ b)%string = String c (a ++ b)%string.
Proof. reflexivity. Qed.

Lemma prefix_app sep b : String.prefix sep (sep ++ b)%string = true.
Proof.
  induction sep as [|c sep IH]; [destruct b; reflexivity |].
  rewrite append_cons. cbn [String.prefix].
  destruct (ascii_dec c c); [exact IH | contradiction].
Qed.

Lemma split_from_skip sep t : forall cur b,
  split_from sep (String.length t) cur (t ++ b)%string = split_from sep O cur b.
Proof.
  induction t as [|c t IH]; intros cur b; [reflexivity |].
  rewrite append_cons. cbn [String.length split_from]. apply IH.
Qed.

(** The first field ends at the first occurrence of the separator. *)
Lemma split_from_first c0 sep' a : forall cur b,
  no_occ (String c0 sep') a (String c0 sep' ++ b)%string ->
  split_from (String c0 sep') O cur (a ++ String c0 sep' ++ b)%string
  = string_rev_append cur a :: split_from (String c0 sep') O EmptyString b.
Proof.
  induction a as [|c a IH]; intros cur b Hno.
  - pose proof (prefix_app (String c0 sep') b) as Hp.
    rewrite append_nil. rewrite append_cons in *. cbn [split_from]. rewrite Hp.
    cbn [String.length Nat.sub]. rewrite ?Nat.sub_0_r.
    rewrite split_from_skip. reflexivity.
  - destruct Hno as [Hp Hno]. rewrite append_cons. cbn [split_from].
    rewrite Hp. rewrite IH by exact Hno. reflexivity.
Qed.

(** Without an occurrence of the separator there is one field. *)
Lemma split_from_none sep a : forall cur,
  no_occ sep a EmptyString ->
  split_from sep O cur a = [string_rev_append cur a].
Proof.
  induction a as [|c a IH]; intros cur Hno; [reflexivity |].
  destruct Hno as [Hp Hno]. cbn [split_from].
  assert (Ha : (a ++ EmptyString)%string = a).
  { clear. induction a as [|x a IH]; [reflexivity |].
    rewrite append_cons, IH. reflexivity. }
  rewrite Ha in Hp. rewrite Hp. rewrite IH by exact Hno. reflexivity.
Qed.

Lemma no_newline_no_occ a rest : no_newline a -> no_occ newline a rest.
Proof.
  induction a as [|c a IH]; [intros; exact I |].
  cbn [no_newline no_occ]. intros [Hc Ha]. split; [| auto].
  unfold newline. cbn [String.prefix].
  destruct (ascii_dec (ascii_of_nat 10) c) as [<- |]; [contradiction |].
  reflexivity.
Qed.

Lemma no_newline_app a b : no_newline a -> no_newline b -> no_newline (a ++ b)%string.
Proof.
  induction a as [|x a IH]; [auto |]. rewrite append_cons.
  intros [? ?] ?. split; auto.
Qed.

Lemma strip_last_newline_cons c s :
  s <> EmptyString ->
  strip_last_newline (String c s) = String c (strip_last_newline s).
Proof. destruct s; [contradiction | reflexivity]. Qed.

Lemma append_not_nil t c b : (t ++ String c b)%string <> EmptyString.
Proof. destruct t; discriminate. Qed.

Lemma strip_last_newline_app t : strip_last_newline (t ++ newline)%string = t.
Proof.
  induction t as [|c t IH]; [reflexivity |].
  rewrite append_cons, strip_last_newline_cons by apply append_not_nil.
  rewrite IH. reflexivity.
Qed.

Lemma strip_last_newline_none t b c :
  c <> ascii_of_nat 10 -> no_newline b ->
  strip_last_newline (t ++ String c b)%string = (t ++ String c b)%string.
Proof.
  intros Hc Hb.
  assert (H : forall s x, x <> ascii_of_nat 10 -> no_newline s ->
            strip_last_newline (String x s) = String x s).
  { induction s as [|y s IH]; intros x Hx Hs.
    - cbn [strip_last_newline].
      destruct (Ascii.eqb_spec x (ascii_of_nat 10)); [contradiction | reflexivity].
    - destruct Hs as [Hy Hs].
      rewrite strip_last_newline_cons by discriminate.
      rewrite IH by assumption. reflexivity. }
  induction t as [|x t IH].
  - apply H; assumption.
  - rewrite append_cons, strip_last_newline_cons by apply append_not_nil.
    rewrite IH. reflexivity.
Qed.

(** The text of a transaction: one line per path to remove, then the line
    of the move. *)
Fixpoint txn_lines (rmPaths : list string) (last : string) : string :=
  match rmPaths with
  | [] => last
  | q :: rest => (q ++ newline ++ txn_lines rest last)%string
  end.

Lemma split_txn_lines rmPaths last :
  Forall no_newline rmPaths -> no_newline last ->
  strings_Split (txn_lines rmPaths last) newline = rmPaths ++ [last].
Proof.
  intros Hrm Hl. unfold strings_Split.
  induction Hrm as [|q rest Hq Hrest IH]; cbn [txn_lines app].
  - rewrite split_from_none by (apply no_newline_no_occ; exact Hl). reflexivity.
  - unfold newline at 1 2.
    rewrite split_from_first by (apply no_newline_no_occ; exact Hq).
    fold newline. rewrite IH. reflexivity.
Qed.

Lemma split_arrow src dst :
  no_occ arrow src (arrow ++ dst)%string -> no_occ arrow dst EmptyString ->
  strings_Split (src ++ arrow ++ dst)%string arrow = [src; dst].
Proof.
  intros Hs Hd. unfold strings_Split, arrow in *.
  rewrite split_from_first by exact Hs.
  rewrite split_from_none by exact Hd. reflexivity.
Qed.

Lemma append_assoc a b c : (a ++ (b ++ c))%string = ((a ++ b) ++ c)%string.
Proof.
  induction a as [|x a IH]; [reflexivity |].
  rewrite !append_cons, IH. reflexivity.
Qed.

Lemma txn_lines_app rmPaths a b :
  txn_lines rmPaths (a ++ b)%string = (txn_lines rmPaths a ++ b)%string.
Proof.
  induction rmPaths as [|q rest IH]; cbn [txn_lines]; [reflexivity |].
  rewrite IH. rewrite <- !append_assoc. reflexivity.
Qed.

(** ** Transactions *)

Section TransactionProps.
Context {E : Env}.

(** The canonical form of a listed path and whether it passes the check. *)
Definition canonical (pathPrefix1 pathPrefix2 q : string) : string :=
  fst (validatePath pathPrefix1 pathPrefix2 q).

Definition path_valid (pathPrefix1 pathPrefix2 q : string) : bool :=
  negb (is_error (snd (validatePath pathPrefix1 pathPrefix2 q))).

(** The absolute form of a path, and the check on absolute forms: the two
    prefixes and the path have absolute forms, and that of the path starts
    with that of a prefix followed by a slash. *)
Definition abs_path (q : string) : string := fst (filepath_Abs q).

Definition under_prefixes (pathPrefix1 pathPrefix2 q : string) : Prop :=
  exists a1 a2 a,
    filepath_Abs pathPrefix1 = (a1, None)
    /\ filepath_Abs pathPrefix2 = (a2, None)
    /\ filepath_Abs q = (a, None)
    /\ (strings_HasPrefix a (a1 ++ slash)%string = true
        \/ strings_HasPrefix a (a2 ++ slash)%string = true).

(** The paths a transaction lists: those to remove, the source and, when it
    is not empty, the destination. *)
Definition listed (rmPaths : list string) (src dst : string) : list string :=
  rmPaths ++ src :: match dst with EmptyString => [] | _ => [dst] end.

(** A path passes the check exactly when its absolute form starts with one
    of the two absolute prefixes followed by a slash. *)
Lemma path_valid_spec p1 p2 q :
  path_valid p1 p2 q = true <->
  exists a1 a2 a,
    filepath_Abs p1 = (a1, None) /\ filepath_Abs p2 = (a2, None)
    /\ filepath_Abs q = (a, None)
    /\ canonical p1 p2 q = a
    /\ (strings_HasPrefix a (a1 ++ slash)%string = true
        \/ strings_HasPrefix a (a2 ++ slash)%string = true).
Proof.
  unfold path_valid, canonical, validatePath.
  destruct (filepath_Abs p1) as [a1 [e1|]]; simpl.
  { split; [discriminate | intros (? & ? & ? & H & _); discriminate]. }
  destruct (filepath_Abs p2) as [a2 [e2|]]; simpl.
  { split; [discriminate | intros (? & ? & ? & _ & H & _); discriminate]. }
  destruct (filepath_Abs q) as [a [e|]]; simpl.
  { split; [discriminate | intros (? & ? & ? & _ & _ & H & _); discriminate]. }
  destruct (strings_HasPrefix a (a1 ++ slash)%string) eqn:H1;
    destruct (strings_HasPrefix a (a2 ++ slash)%string) eqn:H2; simpl;
    (split;
     [intros H; try discriminate; exists a1, a2, a; repeat split; auto
     | intros (b1 & b2 & b & Hb1 & Hb2 & Hb & _ & Hor);
       inversion Hb1; inversion Hb2; inversion Hb; subst;
       try reflexivity;
       destruct Hor; congruence]).
Qed.

Lemma under_prefixes_valid p1 p2 q :
  under_prefixes p1 p2 q <-> path_valid p1 p2 q = true.
Proof.
  rewrite path_valid_spec. unfold under_prefixes. split.
  - intros (a1 & a2 & a & H1 & H2 & H3 & H4). exists a1, a2, a.
    repeat split; auto.
    unfold canonical, validatePath. rewrite H1, H2, H3. simpl.
    destruct H4 as [-> | ->]; simpl; [reflexivity |].
    destruct (strings_HasPrefix a (a1 ++ slash)%string); reflexivity.
  - intros (a1 & a2 & a & H1 & H2 & H3 & _ & H4). exists a1, a2, a. auto.
Qed.

Lemma canonical_abs p1 p2 q :
  path_valid p1 p2 q = true -> canonical p1 p2 q = abs_path q.
Proof.
  intros H. apply path_valid_spec in H as (a1 & a2 & a & _ & _ & Ha & Hc & _).
  unfold abs_path. rewrite Ha, Hc. reflexivity.
Qed.

(** [os.RemoveAll] on each path in turn, up to the first failure. *)
Fixpoint remove_all (paths : list string) (d : FS) : FS * option error :=
  match paths with
  | [] => (d, None)
  | q :: rest =>
      let '(d, err) := os_RemoveAll q d in
      if is_error err then (d, Some (errOther "cannot remove"))
      else remove_all rest d
  end.

(** The end of a transaction: both directories synced, the file deleted. *)
Definition finish_transaction (pathPrefix1 pathPrefix2 txnPath : string) (d : FS)
  : FS * option error :=
  let d := fs_SyncPath pathPrefix1 d in
  let d := fs_SyncPath pathPrefix2 d in
  let '(d, err) := os_Remove txnPath d in
  if is_error err then (d, Some (errOther "cannot remove transaction file"))
  else (d, None).

(** What a transaction with valid paths does, in the words of the
    specification, on the absolute forms of its paths: remove every path to
    remove; with an empty destination remove the source; otherwise rename
    the source when it exists, and when it does not, require the
    destination to exist and change nothing; then delete the transaction
    file. *)
Definition transaction_effect (pathPrefix1 pathPrefix2 txnPath : string)
    (rmPaths : list string) (src dst : string) (d : FS) : FS * option error :=
  let '(d, err) := remove_all (map abs_path rmPaths) d in
  if is_error err then (d, err)
  else
    let src' := abs_path src in
    let dst' := abs_path dst in
    match dst with
    | EmptyString =>
        let '(d, err) := os_RemoveAll src' d in
        if is_error err then (d, Some (errOther "cannot remove"))
        else finish_transaction pathPrefix1 pathPrefix2 txnPath d
    | _ =>
        if fs_IsPathExist src' d then
          let '(d, err) := os_Rename src' dst' d in
          if is_error err then (d, Some (errOther "cannot rename"))
          else finish_transaction pathPrefix1 pathPrefix2 txnPath d
        else if fs_IsPathExist dst' d then
          finish_transaction pathPrefix1 pathPrefix2 txnPath d
        else (d, Some (errOther "cannot find both source and destination paths"))
    end.

Lemma remove_old_paths_valid p1 p2 rmPaths : forall d,
  (forall q, In q rmPaths -> path_valid p1 p2 q = true) ->
  remove_old_paths p1 p2 rmPaths d = remove_all (map (canonical p1 p2) rmPaths) d.
Proof.
  induction rmPaths as [|q rest IH]; intros d Hv; [reflexivity |].
  cbn [remove_old_paths map remove_all].
  pose proof (Hv q (or_introl eq_refl)) as Hq.
  unfold path_valid in Hq. unfold canonical at 1.
  destruct (validatePath p1 p2 q) as [q' e]. simpl in Hq |- *.
  destruct (is_error e); [discriminate |].
  destruct (os_RemoveAll q' d) as [d1 e1].
  destruct (is_error e1); [reflexivity |].
  apply IH. intros x Hx. apply Hv. right. exact Hx.
Qed.

(** Whatever the paths are, the removal loop has removed a prefix of them,
    all valid, when it stops. *)
Lemma remove_old_paths_prefix p1 p2 rmPaths : forall d,
  exists k,
    (forall q, In q (firstn k rmPaths) -> path_valid p1 p2 q = true)
    /\ fst (remove_old_paths p1 p2 rmPaths d)
       = fst (remove_all (map (canonical p1 p2) (firstn k rmPaths)) d).
Proof.
  induction rmPaths as [|q rest IH]; intros d.
  - exists O. split; [intros q [] | reflexivity].
  - cbn [remove_old_paths].
    destruct (validatePath p1 p2 q) as [q' e] eqn:Hq.
    destruct (is_error e) eqn:He.
    + exists O. split; [intros x [] | reflexivity].
    + destruct (os_RemoveAll q' d) as [d1 e1] eqn:Hr.
      destruct (is_error e1) eqn:He1.
      * exists 1%nat. split.
        -- intros x [<- | []]. unfold path_valid. rewrite Hq. simpl. rewrite He.
           reflexivity.
        -- cbn [firstn map remove_all]. unfold canonical. rewrite Hq. simpl.
           rewrite Hr, He1. reflexivity.
      * destruct (IH d1) as (k & Hk & Heq). exists (S k). split.
        -- intros x [<- | Hx]; [| apply Hk, Hx].
           unfold path_valid. rewrite Hq. simpl. rewrite He. reflexivity.
        -- cbn [firstn map remove_all]. unfold canonical at 1. rewrite Hq. simpl.
           rewrite Hr, He1. exact Heq.
Qed.

Lemma remove_old_paths_invalid p1 p2 rmPaths : forall d q,
  In q rmPaths -> path_valid p1 p2 q = false ->
  is_error (snd (remove_old_paths p1 p2 rmPaths d)) = true.
Proof.
  induction rmPaths as [|x rest IH]; intros d q Hin Hq; [destruct Hin |].
  cbn [remove_old_paths].
  destruct (validatePath p1 p2 x) as [x' e] eqn:Hx.
  destruct (is_error e) eqn:He; [reflexivity |].
  destruct (os_RemoveAll x' d) as [d1 e1].
  destruct (is_error e1); [reflexivity |].
  destruct Hin as [-> | Hin]; [| eapply IH; eassumption].
  unfold path_valid in Hq. rewrite Hx in Hq. simpl in Hq. rewrite He in Hq.
  discriminate.
Qed.

(** The text of a transaction file is read back as its lines. *)
Lemma transaction_parsed data rmPaths src dst :
  data = txn_lines rmPaths (src ++ arrow ++ dst)%string
  \/ data = (txn_lines rmPaths (src ++ arrow ++ dst) ++ newline)%string ->
  Forall no_newline rmPaths -> no_newline src -> no_newline dst ->
  strings_Split (strip_last_newline data) newline
  = rmPaths ++ [(src ++ arrow ++ dst)%string].
Proof.
  intros Hd Hrm Hs Hdst.
  assert (Hstrip : strip_last_newline data
                   = txn_lines rmPaths (src ++ arrow ++ dst)%string).
  { destruct Hd as [-> | ->]; [| apply strip_last_newline_app].
    change arrow with (" ->" ++ String " " EmptyString)%string.
    rewrite <- (append_assoc " ->"), append_assoc.
    change (String " " EmptyString ++ dst)%string with (String " " dst).
    rewrite txn_lines_app.
    apply strip_last_newline_none; [discriminate | exact Hdst]. }
  rewrite Hstrip. apply split_txn_lines; [exact Hrm |].
  apply no_newline_app; [exact Hs |].
  apply no_newline_app; [| exact Hdst].
  unfold arrow. cbn [no_newline]. repeat split; discriminate.
Qed.

Lemma removelast_snoc (l : list string) x : List.removelast (l ++ [x]) = l.
Proof. apply removelast_last. Qed.

(** C1: on a transaction file that lists paths to remove, one per line, and
    ends with the line of its source and destination, [runTransaction]
    fails when a listed path has no absolute form that starts with the
    absolute form of [pathPrefix1] or of [pathPrefix2] followed by a slash,
    having only removed paths that precede the failure among those to
    remove, each of which passes that test; and when every listed path
    passes, it removes the absolute form of every path to remove, then
    removes the source if the destination is empty, renames the source to
    the destination if the source exists, requires the destination to exist
    and changes nothing if it does not, and at the end deletes the
    transaction file. *)
Theorem runTransaction_applies_valid_transactions
    (pathPrefix1 pathPrefix2 txnPath : string) (d : FS)
    (data : string) (rmPaths : list string) (src dst : string) :
  ioutil_ReadFile txnPath d = inl data ->
  data = txn_lines rmPaths (src ++ arrow ++ dst)%string
  \/ data = (txn_lines rmPaths (src ++ arrow ++ dst) ++ newline)%string ->
  Forall no_newline rmPaths -> no_newline src -> no_newline dst ->
  no_occ arrow src (arrow ++ dst)%string -> no_occ arrow dst EmptyString ->
  ((exists q, In q (listed rmPaths src dst)
              /\ ~ under_prefixes pathPrefix1 pathPrefix2 q) ->
     is_error (snd (runTransaction pathPrefix1 pathPrefix2 txnPath d)) = true
     /\ exists k,
          (forall q, In q (firstn k rmPaths) ->
                     under_prefixes pathPrefix1 pathPrefix2 q)
          /\ fst (runTransaction pathPrefix1 pathPrefix2 txnPath d)
             = fst (remove_all (map abs_path (firstn k rmPaths)) d))
  /\ ((forall q, In q (listed rmPaths src dst) ->
                 under_prefixes pathPrefix1 pathPrefix2 q) ->
        runTransaction pathPrefix1 pathPrefix2 txnPath d
        = transaction_effect pathPrefix1 pathPrefix2 txnPath rmPaths src dst d).
Proof.
  intros Hread Hdata Hrm Hsrc Hdst Hno1 Hno2.
  pose proof (transaction_parsed data rmPaths src dst Hdata Hrm Hsrc Hdst) as Hparse.
  pose proof (split_arrow src dst Hno1 Hno2) as Harrow.
  assert (Hrun : runTransaction pathPrefix1 pathPrefix2 txnPath d
    = let '(d, err) := remove_old_paths pathPrefix1 pathPrefix2 rmPaths d in
      if is_error err then (d, err)
      else
      let '(srcPath, err) := validatePath pathPrefix1 pathPrefix2 src in
      if is_error err then (d, Some (errOther "invalid source path to rename"))
      else
      let '(d, err) :=
        if (0 <? String.length dst)%nat then
          let '(dstPath, err) := validatePath pathPrefix1 pathPrefix2 dst in
          if is_error err then (d, Some (errOther "invalid destination path to rename"))
          else if fs_IsPathExist srcPath d then
            let '(d, err) := os_Rename srcPath dstPath d in
            if is_error err then (d, Some (errOther "cannot rename")) else (d, None)
          else if negb (fs_IsPathExist dstPath d) then
            (d, Some (errOther "cannot find both source and destination paths"))
          else (d, None)
        else
          let '(d, err) := os_RemoveAll srcPath d in
          if is_error err then (d, Some (errOther "cannot remove")) else (d, None)
      in
      if is_error err then (d, err)
      else finish_transaction pathPrefix1 pathPrefix2 txnPath d).
  { unfold runTransaction. rewrite Hread. cbv zeta. rewrite Hparse.
    rewrite length_app, Nat.add_comm. cbn [length Nat.add Nat.eqb].
    rewrite removelast_snoc, last_last, Harrow. reflexivity. }
  rewrite Hrun. clear Hrun Hparse Harrow Hread Hdata.
  split.
  - intros (q & Hin & Hq).
    assert (Hq' : path_valid pathPrefix1 pathPrefix2 q = false).
    { destruct (path_valid pathPrefix1 pathPrefix2 q) eqn:Hv; [| reflexivity].
      exfalso. apply Hq, under_prefixes_valid, Hv. }
    clear Hq. rename Hq' into Hq.
    destruct (remove_old_paths_prefix pathPrefix1 pathPrefix2 rmPaths d)
      as (k & Hk & Hfst).
    assert (Hall : forall d1,
              fst (remove_old_paths pathPrefix1 pathPrefix2 rmPaths d) = d1 ->
              exists k0,
                (forall q0, In q0 (firstn k0 rmPaths) ->
                            under_prefixes pathPrefix1 pathPrefix2 q0)
                /\ d1 = fst (remove_all (map abs_path (firstn k0 rmPaths)) d)).
    { intros d1 <-. exists k. split.
      - intros q0 Hq0. apply under_prefixes_valid, Hk, Hq0.
      - rewrite Hfst. f_equal. f_equal. apply map_ext_in.
        intros q0 Hq0. apply canonical_abs, Hk, Hq0. }
    unfold listed in Hin. apply in_app_or in Hin.
    destruct Hin as [Hin | Hin].
    + pose proof (remove_old_paths_invalid _ _ _ d q Hin Hq) as Herr.
      destruct (remove_old_paths pathPrefix1 pathPrefix2 rmPaths d) as [d1 e1].
      simpl in Herr. rewrite Herr. simpl. split; [exact Herr | apply Hall; reflexivity].
    + destruct (remove_old_paths pathPrefix1 pathPrefix2 rmPaths d) as [d1 e1].
      destruct (is_error e1) eqn:He1; [simpl; split; [exact He1 | apply Hall; reflexivity] |].
      destruct Hin as [<- | Hin].
      * unfold path_valid in Hq.
        destruct (validatePath pathPrefix1 pathPrefix2 src) as [s' es].
        simpl in Hq. destruct (is_error es); [| discriminate].
        simpl. split; [reflexivity | apply Hall; reflexivity].
      * destruct dst as [|c dst']; [destruct Hin |].
        destruct Hin as [<- | []].
        destruct (validatePath pathPrefix1 pathPrefix2 src) as [s' es].
        destruct (is_error es); [simpl; split; [reflexivity | apply Hall; reflexivity] |].
        cbn [String.length Nat.ltb Nat.leb].
        unfold path_valid in Hq.
        destruct (validatePath pathPrefix1 pathPrefix2 (String c dst')) as [d' ed].
        simpl in Hq. destruct (is_error ed); [| discriminate].
        simpl. split; [reflexivity | apply Hall; reflexivity].
  - intros Hu.
    assert (Hv : forall q, In q (listed rmPaths src dst) ->
                   path_valid pathPrefix1 pathPrefix2 q = true).
    { intros q Hq. apply under_prefixes_valid, Hu, Hq. }
    clear Hu. unfold transaction_effect.
    rewrite remove_old_paths_valid
      by (intros q Hq; apply Hv; unfold listed; apply in_or_app; left; exact Hq).
    rewrite (map_ext_in (canonical pathPrefix1 pathPrefix2) abs_path rmPaths)
      by (intros q Hq; apply canonical_abs, Hv; unfold listed;
          apply in_or_app; left; exact Hq).
    destruct (remove_all _ d) as [d1 e1].
    destruct (is_error e1); [reflexivity |].
    pose proof (Hv src ltac:(unfold listed; apply in_or_app; right; left; reflexivity))
      as Hs.
    pose proof (canonical_abs _ _ _ Hs) as Hcs.
    unfold path_valid in Hs. unfold canonical in Hcs.
    destruct (validatePath pathPrefix1 pathPrefix2 src) as [s' es].
    simpl in Hs, Hcs |- *. destruct (is_error es); [discriminate |].
    rewrite <- Hcs. clear Hcs.
    destruct dst as [|c dst'].
    + cbn [String.length Nat.ltb Nat.leb].
      destruct (os_RemoveAll s' d1) as [d2 e2].
      destruct (is_error e2); reflexivity.
    + cbn [String.length Nat.ltb Nat.leb].
      pose proof (Hv (String c dst')
                    ltac:(unfold listed; apply in_or_app; right; right; left; reflexivity))
        as Hd.
      pose proof (canonical_abs _ _ _ Hd) as Hcd.
      unfold path_valid in Hd. unfold canonical in Hcd.
      destruct (validatePath pathPrefix1 pathPrefix2 (String c dst')) as [d' ed].
      simpl in Hd, Hcd |- *. destruct (is_error ed); [discriminate |].
      rewrite <- Hcd. clear Hcd.
      destruct (fs_IsPathExist s' d1).
      * destruct (os_Rename s' d' d1) as [d2 e2].
        destruct (is_error e2); reflexivity.
      * destruct (fs_IsPathExist d' d1); reflexivity.
Qed.

End TransactionProps.

(** A transaction of the reference file system: it removes one part and
    moves the merged part from the temporary directory to its place. *)
Definition sample_txn_data : string :=
  (txn_lines ["/data/small/p/part_a"]
     ("/data/small/p/tmp/0001" ++ arrow ++ "/data/small/p/part_b")
   ++ newline)%string.

Definition sample_txn_fs : ref_fs :=
  [("/data/small/p/txn/0001", RefFile sample_txn_data);
   ("/data/small/p/part_a", RefPartDir (mkPartHeader 5 1 0 9));
   ("/data/small/p/tmp/0001", RefPartDir (mkPartHeader 5 1 0 9))].

Lemma runTransaction_applies_valid_transactions_witness :
  @runTransaction (refEnv 0) "/data/small/p" "/data/big/p"
    "/data/small/p/txn/0001" sample_txn_fs
  = ([("/data/small/p/part_b", RefPartDir (mkPartHeader 5 1 0 9))], None).
Proof.
  destruct (@runTransaction_applies_valid_transactions (refEnv 0)
              "/data/small/p" "/data/big/p" "/data/small/p/txn/0001"
              sample_txn_fs sample_txn_data ["/data/small/p/part_a"]
              "/data/small/p/tmp/0001" "/data/small/p/part_b") as [_ H].
  - reflexivity.
  - right. reflexivity.
  - repeat constructor; discriminate.
  - cbn [no_newline]. repeat split; discriminate.
  - cbn [no_newline]. repeat split; discriminate.
  - cbn [no_occ]. repeat split; reflexivity.
  - cbn [no_occ]. repeat split; reflexivity.
  - rewrite H.
    + vm_compute. reflexivity.
    + intros q Hq. apply under_prefixes_valid.
      cbn in Hq. destruct Hq as [<- | [<- | [<- | []]]]; reflexivity.
Defined.

(** ** Runs of the reference environment *)

(** The result of a run that returns, [w] otherwise. *)
Definition returned {E : Env} (o : outcome world) (w : world) : world :=
  match o with Ret w' => w' | Panic _ => w end.

(** Two in-memory parts, both marked as in merge. *)
Definition two_parts_world (dmis : list Z) : @world (refEnv 0) :=
  let w0 := @mkWorld (refEnv 0) (pt sample_world) ∅ [] [] (repeat [] 19) [] 0 dmis in
  let w1 := returned (@addRowsPart (refEnv 0) [mkRawRow 1 1 0 64; mkRawRow 1 2 0 64] w0) w0 in
  let w2 := returned (@addRowsPart (refEnv 0) [mkRawRow 1 3 0 64] w1) w0 in
  returned (@mark_in_merge (refEnv 0) [0; 1]%nat w2) w0.


(** Whether a merge returned [nil], and whether the streams were merged
    into a part without rows. *)
Definition returned_nil {E : Env} (o : outcome (world * option error)) : bool :=
  match o with Ret (_, None) => true | _ => false end.

Definition merged_no_rows {E : Env} (o : outcome (world * (merged + error))) : bool :=
  match o with
  | Ret (_, inl g) => RowsCount (mg_ph g) =? 0
  | _ => false
  end.

(** Two file parts of the small list with 2e8 rows each, both marked as
    in merge and both on the disk. *)
Definition large_part (q : string) : part :=
  mkPart (mkPartHeader 200000000 1 0 9) q.

Definition large_parts_world : @world (refEnv 0) :=
  @mkWorld (refEnv 0)
    (mkPartition "/data/small/2023_07" "/data/big/2023_07" "2023_07" 0 1000
       [0; 1]%nat [] (mkSlice [] 16384) 0 0 0 0 0 0 0 0 0 0 0)
    (list_to_map
       [(0%nat, mkPartWrapper (Some (large_part "/data/small/2023_07/a")) None 1 true);
        (1%nat, mkPartWrapper (Some (large_part "/data/small/2023_07/b")) None 1 true)])
    [] [] (repeat [] 19)
    [("/data/small/2023_07/a", RefPartDir (mkPartHeader 200000000 1 0 9));
     ("/data/small/2023_07/b", RefPartDir (mkPartHeader 200000000 1 0 9))]
    0 [].

Lemma mergeParts_tier_follows_output_rows_witness :
  exists w' l,
    @mergeParts (refEnv 0) [0; 1]%nat false large_parts_world = Ret (w', None)
    /\ smallParts (pt w') = []
    /\ bigParts (pt w') = [l].
Proof.
  assert (Hok : returned_nil
                  (@mergeParts (refEnv 0) [0; 1]%nat false large_parts_world)
                = true) by (vm_compute; reflexivity).
  destruct (@mergeParts (refEnv 0) [0; 1]%nat false large_parts_world)
    as [[w' [e|]]|msg] eqn:Hm; try discriminate Hok.
  destruct (@mergeParts_tier_follows_output_rows (refEnv 0) [0; 1]%nat false
              large_parts_world w' Hm)
    as (parts & Hparts & _ & _ & srcs & d1 & d2 & mr & Hr & _ & Hmr & _ & Hnew).
  assert (Hparts0 : Forall2 (holds large_parts_world) [0; 1]%nat
                      [large_part "/data/small/2023_07/a";
                       large_part "/data/small/2023_07/b"]).
  { repeat constructor; eexists; split; vm_compute; reflexivity. }
  rewrite (holds_unique _ _ _ _ Hparts Hparts0) in Hmr, Hnew. clear Hparts.
  assert (Hr0 : @read_all (refEnv 0) [0; 1]%nat large_parts_world
                = Ret [mkPartWrapper (Some (large_part "/data/small/2023_07/a")) None 1 true;
                       mkPartWrapper (Some (large_part "/data/small/2023_07/b")) None 1 true])
    by (vm_compute; reflexivity).
  rewrite Hr0 in Hr. inversion Hr; subst srcs. clear Hr Hr0.
  apply (f_equal snd) in Hmr. cbn [snd] in Hmr. subst mr.
  destruct Hnew as (l & newP & d & _ & _ & _ & Hs & Hb & _).
  - vm_compute. reflexivity.
  - vm_compute. discriminate.
  - exists w', l. split; [reflexivity |]. split; [exact Hs | exact Hb].
Defined.

Lemma mergeParts_without_rows_installs_nothing_witness :
  exists w1 g,
    @stream_merge (refEnv 0) [0; 1]%nat false (two_parts_world [7]) = Ret (w1, inl g)
    /\ @dstPartPath_of (refEnv 0) (mg_ph g) (mg_ptPath g) (mg_mergeIdx g) = EmptyString.
Proof.
  assert (Hok : merged_no_rows
                  (@stream_merge (refEnv 0) [0; 1]%nat false (two_parts_world [7]))
                = true) by (vm_compute; reflexivity).
  destruct (@stream_merge (refEnv 0) [0; 1]%nat false (two_parts_world [7]))
    as [[w1 [g|e]]|msg] eqn:Hs; try discriminate Hok.
  cbn [merged_no_rows] in Hok. apply Z.eqb_eq in Hok.
  destruct (@mergeParts_without_rows_installs_nothing (refEnv 0) [0; 1]%nat false
              (two_parts_world [7]) w1 g ltac:(discriminate) Hs Hok)
    as (H & _).
  exists w1, g. split; [reflexivity | exact H].
Defined.

(** *** An assist that merges nothing *)

Section NothingToAssist.
Context {E : Env}.




End NothingToAssist.



(* ================================================================= *)
(** * Part III: further properties of partition.go *)
(* ================================================================= *)

(** ** The planner on any input *)

Section PlannerSound.
Context {E : Env}.
Variable hdr : ptr -> partHeader.

Lemma search_fold_inv src maxRows (P : nat -> nat -> Prop) l : forall st,
  (snd st = [] \/ exists j i, P i j /\ snd st = window src j i) ->
  (forall i j, In (i, j) l -> rowsSum hdr (window src j i) <= maxRows -> P i j) ->
  snd (fold_left (search_step hdr src maxRows) l st) = [] \/
  exists j i, P i j /\
    snd (fold_left (search_step hdr src maxRows) l st) = window src j i.
Proof.
  induction l as [|[i j] l IH]; intros st Hst Hl; cbn [fold_left]; [exact Hst |].
  apply IH.
  - unfold search_step.
    destruct (Z.gtb_spec (rowsSum hdr (window src j i)) maxRows); [exact Hst |].
    destruct (f64_ltb _ _); [exact Hst |].
    right. exists j, i. split; [apply Hl; [left; reflexivity | lia] | reflexivity].
  - intros i' j' Hin. apply Hl. right. exact Hin.
Qed.

Lemma window_sublist (src : list ptr) j i : window src j i `sublist_of` src.
Proof.
  unfold window. etransitivity; [apply sublist_take | apply sublist_drop].
Qed.

Lemma filter_small_In src maxRows l :
  In l (filter_small hdr src maxRows) <->
  In l src /\ RowsCount (hdr l) <= maxRows / 2.
Proof.
  unfold filter_small. rewrite filter_In.
  destruct (Z.gtb_spec (RowsCount (hdr l)) (maxRows / 2)); simpl;
    intuition (try discriminate; try lia).
Qed.

(** With [maxPartsToMerge] at least 2 the planner returns, and what it
    adds to [dst] is empty or a window of the candidates. *)
Lemma appendPartsToMerge_selection
    (dst src : list ptr) (maxPartsToMerge maxRows : Z) :
  2 <= maxPartsToMerge ->
  exists sel,
    appendPartsToMerge hdr dst src maxPartsToMerge maxRows = Ret (dst ++ sel)
    /\ (sel = [] \/
        (2 <= Z.of_nat (length sel) <= maxPartsToMerge
         /\ rowsSum hdr sel <= maxRows))
    /\ (forall l, In l sel -> In l src /\ RowsCount (hdr l) <= maxRows / 2)
    /\ (NoDup src -> NoDup sel).
Proof.
  unfold appendPartsToMerge. intros Hk.
  destruct (Z.ltb_spec (Z.of_nat (length src)) 2).
  { exists []. rewrite app_nil_r. split; [reflexivity |]. split; [left; reflexivity |].
    split; [intros l [] | intros _; constructor]. }
  destruct (Z.ltb_spec maxPartsToMerge 2); [lia |].
  set (cand := sort_Slice (planner_less hdr) (filter_small hdr src maxRows)).
  set (n := if Z.of_nat (length cand) <? maxPartsToMerge
            then Z.of_nat (length cand) else maxPartsToMerge).
  pose proof (search_fold_inv cand maxRows
    (fun i j => (j + i <= length cand)%nat /\ (2 <= i)%nat
                /\ Z.of_nat i <= maxPartsToMerge
                /\ rowsSum hdr (window cand j i) <= maxRows)
    (search_order n (length cand)) (f64_zero, []) (or_introl eq_refl)) as Hs.
  fold (search hdr cand n maxRows) in Hs.
  destruct (search hdr cand n maxRows) as [maxM pws]. cbn [snd] in Hs.
  assert (Hcand : forall l, In l cand -> In l src /\ RowsCount (hdr l) <= maxRows / 2).
  { intros l Hl. apply filter_small_In.
    eapply Permutation_in; [apply sort_Slice_Permutation | exact Hl]. }
  assert (Hnd : NoDup src -> NoDup cand).
  { intros Hsrc. unfold cand. rewrite sort_Slice_Permutation.
    unfold filter_small. apply NoDup_ListNoDup, List.NoDup_filter, NoDup_ListNoDup, Hsrc. }
  destruct (f64_ltb maxM (minM maxPartsToMerge)).
  { exists []. rewrite app_nil_r. split; [reflexivity |]. split; [left; reflexivity |].
    split; [intros l [] | intros _; constructor]. }
  exists pws. split; [reflexivity |].
  destruct Hs as [-> | (j & i & (H1 & H2 & H3 & H4) & ->)].
  + intros i j Hin Hfit. apply in_search_order in Hin. subst n.
    destruct (Z.ltb_spec (Z.of_nat (length cand)) maxPartsToMerge); repeat split; lia.
  + split; [left; reflexivity |]. split; [intros l [] | intros _; constructor].
  + split; [right; rewrite window_length by exact H1; lia |].
    split.
    * intros l Hl. apply Hcand.
      apply list_elem_of_In. eapply elem_of_sublist; [| apply window_sublist].
      apply list_elem_of_In. exact Hl.
    * intros Hsrc. exact (sublist_NoDup _ _ (Hnd Hsrc) (window_sublist cand j i)).
Qed.

(** X1: whatever the headers hold, [appendPartsToMerge] returns [dst] alone
    for fewer than two source handles, panics for two or more when
    [maxPartsToMerge] is below 2, and otherwise returns [dst] followed by a
    selection that is empty or has from 2 to [maxPartsToMerge] handles with a
    64-bit row total of at most [maxRows]; every selected handle comes from
    [src] and has at most [maxRows / 2] rows, and no handle is selected
    twice when [src] has none twice. *)
Theorem appendPartsToMerge_selection_is_sound
    (dst src : list ptr) (maxPartsToMerge maxRows : Z) :
  (Z.of_nat (length src) < 2 ->
     appendPartsToMerge hdr dst src maxPartsToMerge maxRows = Ret dst)
  /\ (2 <= Z.of_nat (length src) -> maxPartsToMerge < 2 ->
        exists msg, appendPartsToMerge hdr dst src maxPartsToMerge maxRows = Panic msg)
  /\ (2 <= maxPartsToMerge ->
        exists sel,
          appendPartsToMerge hdr dst src maxPartsToMerge maxRows = Ret (dst ++ sel)
          /\ (sel = [] \/
              (2 <= Z.of_nat (length sel) <= maxPartsToMerge
               /\ rowsSum hdr sel <= maxRows))
          /\ (forall l, In l sel -> In l src /\ RowsCount (hdr l) <= maxRows / 2)
          /\ (NoDup src -> NoDup sel)).
Proof.
  split; [| split].
  - intros H. unfold appendPartsToMerge.
    destruct (Z.ltb_spec (Z.of_nat (length src)) 2); [reflexivity | lia].
  - intros H1 H2. unfold appendPartsToMerge.
    destruct (Z.ltb_spec (Z.of_nat (length src)) 2); [lia |].
    destruct (Z.ltb_spec maxPartsToMerge 2); [eexists; reflexivity | lia].
  - apply appendPartsToMerge_selection.
Qed.

End PlannerSound.

Lemma appendPartsToMerge_selection_is_sound_witness :
  exists sel,
    @appendPartsToMerge (refEnv 0) (hdr_rows [1; 1; 1; 1; 1; 10; 10; 10]) [9%nat]
      [0; 1; 2; 3; 4; 5; 6; 7]%nat 4 30 = Ret (9%nat :: sel).
Proof.
  destruct (@appendPartsToMerge_selection_is_sound (refEnv 0)
              (hdr_rows [1; 1; 1; 1; 1; 10; 10; 10]) [9%nat]
              [0; 1; 2; 3; 4; 5; 6; 7]%nat 4 30) as (_ & _ & H).
  destruct (H ltac:(lia)) as (sel & Hsel & _).
  exists sel. exact Hsel.
Defined.

(** ** Choosing and marking the parts to merge *)

Section Marking.
Context {E : Env}.

(** The reads of the planner succeed on handles that all hold a part, and
    stop at the first handle that holds none. *)
Lemma read_headers_returns src : forall w,
  (forall l, In l src -> exists q, holds w l q) ->
  exists hs, read_headers src w = Ret hs.
Proof.
  induction src as [|x src IH]; intros w Hall; cbn [read_headers].
  - exists []. reflexivity.
  - destruct (Hall x (or_introl eq_refl)) as (q & pw & Hpw & Hq).
    destruct (IH w (fun l Hl => Hall l (or_intror Hl))) as (hs & Hhs).
    unfold read_ph, read_pw, must_part. rewrite Hpw. cbn [obind]. rewrite Hq.
    cbn [obind]. rewrite Hhs. cbn [obind]. eauto.
Qed.

(** The planner sees, for every handle it was given, the header of the part
    that the handle holds. *)
Lemma read_headers_header_in src : forall w hs,
  read_headers src w = Ret hs ->
  forall l, In l src -> exists q, holds w l q /\ header_in hs l = ph q.
Proof.
  induction src as [|x src IH]; intros w hs H l Hin; [destruct Hin |].
  cbn [read_headers] in H.
  apply obind_Ret in H as (h & Hh & H).
  apply obind_Ret in H as (hs' & Hhs & H). inversion H; subst hs. clear H.
  unfold read_ph in Hh.
  apply obind_Ret in Hh as (pw & Hpw & Hh). apply read_pw_Ret in Hpw.
  apply obind_Ret in Hh as (q & Hq & Hh). inversion Hh; subst h. clear Hh.
  unfold must_part in Hq. destruct (p pw) as [q0|] eqn:Hp; inversion Hq; subst q0.
  unfold header_in. cbn [List.find fst snd].
  destruct (Nat.eqb_spec x l) as [-> | Hne].
  - exists q. split; [exists pw; auto | reflexivity].
  - destruct Hin as [Heq | Hin]; [contradiction |].
    exact (IH w hs' Hhs l Hin).
Qed.

Lemma read_headers_panics src : forall w l,
  In l src -> (forall q, ~ holds w l q) ->
  read_headers src w = Panic "invalid memory address or nil pointer dereference".
Proof.
  induction src as [|x src IH]; intros w l Hin Hno; [destruct Hin |].
  cbn [read_headers]. unfold read_ph, read_pw, must_part.
  destruct (heap w !! x) as [pw|] eqn:Hpw; cbn [obind]; [| reflexivity].
  destruct (p pw) as [q|] eqn:Hq; cbn [obind]; [| reflexivity].
  destruct Hin as [-> | Hin].
  - exfalso. apply (Hno q). exists pw. auto.
  - rewrite (IH w l Hin Hno). reflexivity.
Qed.

Lemma appendPartsToMerge_pws_selection w dst src maxPartsToMerge maxRows :
  2 <= maxPartsToMerge ->
  (forall l, In l src -> exists q, holds w l q) ->
  exists sel,
    appendPartsToMerge_pws w dst src maxPartsToMerge maxRows = Ret (dst ++ sel)
    /\ (forall l, In l sel ->
          In l src /\ exists q, holds w l q /\ RowsCount (ph q) <= maxRows / 2)
    /\ (NoDup src -> NoDup sel).
Proof.
  intros Hk Hall. unfold appendPartsToMerge_pws.
  destruct (Z.ltb_spec (Z.of_nat (length src)) 2).
  { exists []. rewrite app_nil_r. split; [reflexivity |].
    split; [intros l [] | intros _; constructor]. }
  destruct (Z.ltb_spec maxPartsToMerge 2); [lia |].
  destruct (read_headers_returns src w Hall) as (hs & Hhs). rewrite Hhs.
  cbn [obind].
  destruct (appendPartsToMerge_selection (header_in hs) dst src maxPartsToMerge
              maxRows Hk) as (sel & Hs & _ & Hin & Hnd).
  exists sel. split; [exact Hs |].
  split; [| exact Hnd].
  intros l Hl. destruct (Hin l Hl) as [Hsrc Hrows]. split; [exact Hsrc |].
  destruct (read_headers_header_in src w hs Hhs l Hsrc) as (q & Hq & Heq).
  exists q. split; [exact Hq |]. rewrite <- Heq. exact Hrows.
Qed.

Lemma final_search_selection k : forall w remaining maxRows,
  (forall l, In l remaining -> exists q, holds w l q) ->
  exists sel,
    final_search k w remaining maxRows = Ret sel
    /\ (forall l, In l sel ->
          In l remaining /\ exists q, holds w l q /\ RowsCount (ph q) <= maxRows / 2)
    /\ (NoDup remaining -> NoDup sel).
Proof.
  induction k as [|k IH]; intros w remaining maxRows Hall; cbn [final_search].
  - destruct (appendPartsToMerge_pws_selection w [] remaining
                (finalPartsToMerge + Z.of_nat 0) maxRows
                ltac:(unfold finalPartsToMerge; lia) Hall)
      as (sel & Hs & Hin & Hnd).
    rewrite Hs. cbn [obind app]. exists sel.
    split; [destruct sel; reflexivity |].
    split; [exact Hin | exact Hnd].
  - destruct (appendPartsToMerge_pws_selection w [] remaining
                (finalPartsToMerge + Z.of_nat (S k)) maxRows
                ltac:(unfold finalPartsToMerge; lia) Hall)
      as (sel & Hs & Hin & Hnd).
    rewrite Hs. cbn [obind app].
    destruct sel as [|x sel]; [apply IH; exact Hall |].
    exists (x :: sel). split; [reflexivity |].
    split; [exact Hin | exact Hnd].
Qed.

Lemma mark_in_merge_marks pms : forall w,
  NoDup pms ->
  (forall l, In l pms -> exists pw, heap w !! l = Some pw /\ isInMerge pw = false) ->
  exists w',
    mark_in_merge pms w = Ret w'
    /\ pt w' = pt w
    /\ (forall l, ~ In l pms -> heap w' !! l = heap w !! l)
    /\ (forall l pw, In l pms -> heap w !! l = Some pw ->
          heap w' !! l = Some (set_isInMerge true pw)).
Proof.
  induction pms as [|x pms IH]; intros w Hnd Hall; cbn [mark_in_merge].
  - exists w. repeat split; auto. intros l pw [].
  - apply NoDup_cons in Hnd as [Hx Hnd].
    destruct (Hall x (or_introl eq_refl)) as (pw & Hpw & Hfl).
    unfold read_pw. rewrite Hpw. cbn [obind]. rewrite Hfl.
    destruct (IH (write_pw x (set_isInMerge true pw) w) Hnd) as (w' & Hm & Hpt & Hother & Hsel).
    { intros l Hl. destruct (Hall l (or_intror Hl)) as (pw' & Hpw' & Hfl').
      exists pw'. split; [| exact Hfl']. cbn [write_pw set_heap heap].
      rewrite lookup_insert_ne; [exact Hpw' |].
      intros ->. apply Hx. apply list_elem_of_In. exact Hl. }
    exists w'. split; [exact Hm |]. split; [rewrite Hpt; reflexivity |]. split.
    + intros l Hl. rewrite Hother by (intros H; apply Hl; right; exact H).
      cbn [write_pw set_heap heap]. apply lookup_insert_ne.
      intros ->. apply Hl. left. reflexivity.
    + intros l pw' [<- | Hl] Hpw'.
      * rewrite Hother by (intros H; apply Hx, list_elem_of_In, H).
        cbn [write_pw set_heap heap]. rewrite lookup_insert_eq. congruence.
      * apply Hsel; [exact Hl |]. cbn [write_pw set_heap heap].
        rewrite lookup_insert_ne; [exact Hpw' |].
        intros ->. apply Hx, list_elem_of_In, Hl.
Qed.

(** X2: on distinct handles that all exist and hold a part,
    [getPartsToMerge] returns. The handles it returns are distinct handles
    of its input that were not being merged, each holding a part of at most
    [maxRows / 2] rows; it sets the [isInMerge] flag of each of them and
    changes nothing else: no other handle, no field of the partition. *)
Theorem getPartsToMerge_marks_selected
    (pws : list ptr) (maxRows : Z) (isFinal : bool) (w : world) :
  NoDup pws ->
  (forall l, In l pws -> exists q, holds w l q) ->
  exists pms w',
    getPartsToMerge pws maxRows isFinal w = Ret (pms, w')
    /\ NoDup pms
    /\ (forall l, In l pms -> In l pws /\ flag_of w l = false /\ flag_of w' l = true)
    /\ (forall l, In l pms ->
          exists q, holds w l q /\ RowsCount (ph q) <= maxRows / 2)
    /\ (forall l pw, In l pms -> heap w !! l = Some pw ->
          heap w' !! l = Some (set_isInMerge true pw))
    /\ (forall l, ~ In l pms -> heap w' !! l = heap w !! l)
    /\ pt w' = pt w.
Proof.
  intros Hnd Hall. unfold getPartsToMerge.
  set (rem := List.filter (fun l => negb (flag_of w l)) pws).
  assert (Hrem : forall l, In l rem -> In l pws /\ flag_of w l = false).
  { intros l Hl. apply filter_In in Hl as [H1 H2].
    apply negb_true_iff in H2. auto. }
  assert (Hndrem : NoDup rem).
  { apply NoDup_ListNoDup, List.NoDup_filter, NoDup_ListNoDup, Hnd. }
  assert (Hsel : exists sel,
            (if isFinal
             then final_search (Z.to_nat (defaultPartsToMerge - finalPartsToMerge))
                    w rem maxRows
             else appendPartsToMerge_pws w [] rem defaultPartsToMerge maxRows)
            = Ret sel
            /\ (forall l, In l sel ->
                  In l rem /\ exists q, holds w l q /\ RowsCount (ph q) <= maxRows / 2)
            /\ NoDup sel).
  { assert (Hremp : forall l, In l rem -> exists q, holds w l q).
    { intros l Hl. apply Hall, Hrem, Hl. }
    destruct isFinal.
    - destruct (final_search_selection
                  (Z.to_nat (defaultPartsToMerge - finalPartsToMerge)) w rem maxRows
                  Hremp)
        as (sel & Hs & Hin & Hn).
      exists sel. auto.
    - destruct (appendPartsToMerge_pws_selection w [] rem defaultPartsToMerge
                  maxRows ltac:(unfold defaultPartsToMerge; lia) Hremp)
        as (sel & Hs & Hin & Hn).
      exists sel. split; [exact Hs |].
      split; [exact Hin | auto]. }
  destruct Hsel as (sel & -> & Hin & Hn). cbn [obind].
  destruct (mark_in_merge_marks sel w Hn) as (w' & Hm & Hpt & Hother & Hmarked).
  { intros l Hl. destruct (Hrem l (proj1 (Hin l Hl))) as [Hp Hf].
    destruct (Hall l Hp) as (q & pw & Hpw & _). exists pw. split; [exact Hpw |].
    unfold flag_of in Hf. rewrite Hpw in Hf. exact Hf. }
  rewrite Hm. cbn [obind]. exists sel, w'. split; [reflexivity |].
  split; [exact Hn |]. split; [| split; [intros l Hl; apply (Hin l Hl) | auto]].
  intros l Hl. destruct (Hrem l (proj1 (Hin l Hl))) as [Hp Hf].
  split; [exact Hp |]. split; [exact Hf |].
  destruct (Hall l Hp) as (q & pw & Hpw & _).
  unfold flag_of. rewrite (Hmarked l pw Hl Hpw). reflexivity.
Qed.

(** X3: when the search with [defaultPartsToMerge] finds handles to merge,
    [getPartsToMerge] returns the same handles and the same state whether
    [isFinal] is set or not: the final mode only adds searches with fewer
    parts when that first search finds nothing. *)
Theorem getPartsToMerge_final_extends_default
    (pws : list ptr) (maxRows : Z) (w w' : world) (pms : list ptr) :
  getPartsToMerge pws maxRows false w = Ret (pms, w') ->
  pms <> [] ->
  getPartsToMerge pws maxRows true w = Ret (pms, w').
Proof.
  unfold getPartsToMerge. intros H Hne.
  apply obind_Ret in H as (sel & Hs & H).
  apply obind_Ret in H as (w1 & Hm & H). inversion H; subst w1 sel. clear H.
  change (Z.to_nat (defaultPartsToMerge - finalPartsToMerge)) with 12%nat.
  cbn [final_search].
  change (finalPartsToMerge + Z.of_nat 12) with defaultPartsToMerge.
  rewrite Hs. destruct pms as [|x pms]; [contradiction |].
  cbn [obind]. rewrite Hm. reflexivity.
Qed.

Lemma final_search_short k : forall w remaining maxRows,
  (length remaining < 2)%nat -> final_search k w remaining maxRows = Ret [].
Proof.
  induction k as [|k IH]; intros w remaining maxRows Hlen; cbn [final_search];
    unfold appendPartsToMerge_pws;
    (destruct (Z.ltb_spec (Z.of_nat (length remaining)) 2); [| lia]);
    cbn [obind]; [reflexivity | apply IH; exact Hlen].
Qed.

Lemma final_search_panics k w remaining maxRows l :
  (2 <= length remaining)%nat -> In l remaining -> (forall q, ~ holds w l q) ->
  final_search k w remaining maxRows
  = Panic "invalid memory address or nil pointer dereference".
Proof.
  intros Hlen Hin Hno.
  assert (Hcall : forall n,
            appendPartsToMerge_pws w [] remaining (finalPartsToMerge + Z.of_nat n) maxRows
            = Panic "invalid memory address or nil pointer dereference").
  { intros n. unfold appendPartsToMerge_pws.
    destruct (Z.ltb_spec (Z.of_nat (length remaining)) 2); [lia |].
    destruct (Z.ltb_spec (finalPartsToMerge + Z.of_nat n) 2);
      [unfold finalPartsToMerge in *; lia |].
    rewrite (read_headers_panics remaining w l Hin Hno). reflexivity. }
  destruct k; cbn [final_search]; rewrite Hcall; reflexivity.
Qed.

(** X17: [getPartsToMerge] reads the header of a part through every handle
    that is not being merged, once there are two of them. With fewer than
    two such handles, among handles that exist, it selects nothing, marks
    nothing and reads no part; with two or more, a handle that is nil or
    holds no part (a released handle) makes it panic on the nil
    dereference, marking nothing. *)
Theorem getPartsToMerge_dereferences_parts
    (pws : list ptr) (maxRows : Z) (isFinal : bool) (w : world) :
  ((forall l, In l pws -> is_Some (heap w !! l)) ->
   (length (List.filter (fun l => negb (flag_of w l)) pws) < 2)%nat ->
     getPartsToMerge pws maxRows isFinal w = Ret ([], w))
  /\ ((2 <= length (List.filter (fun l => negb (flag_of w l)) pws))%nat ->
      forall l,
        In l pws -> flag_of w l = false -> (forall q, ~ holds w l q) ->
        getPartsToMerge pws maxRows isFinal w
        = Panic "invalid memory address or nil pointer dereference").
Proof.
  unfold getPartsToMerge. split.
  - intros _ Hlen. destruct isFinal.
    + rewrite final_search_short by exact Hlen. reflexivity.
    + unfold appendPartsToMerge_pws.
      destruct (Z.ltb_spec
                  (Z.of_nat (length (List.filter (fun l => negb (flag_of w l)) pws))) 2);
        [reflexivity | lia].
  - intros Hlen l Hin Hfl Hno.
    assert (Hrem : In l (List.filter (fun l => negb (flag_of w l)) pws)).
    { apply filter_In. split; [exact Hin |]. rewrite Hfl. reflexivity. }
    destruct isFinal.
    + rewrite (final_search_panics _ _ _ _ l Hlen Hrem Hno). reflexivity.
    + unfold appendPartsToMerge_pws.
      destruct (Z.ltb_spec
                  (Z.of_nat (length (List.filter (fun l => negb (flag_of w l)) pws))) 2);
        [lia |].
      destruct (Z.ltb_spec defaultPartsToMerge 2);
        [unfold defaultPartsToMerge in *; lia |].
      rewrite (read_headers_panics _ w l Hrem Hno). reflexivity.
Qed.

End Marking.

(** File parts [0], [1], ... of the small list with the given numbers of
    rows, none of them being merged; the disk is empty. *)
Definition parts_world (rows : list Z) : @world (refEnv 0) :=
  @mkWorld (refEnv 0)
    (mkPartition "/data/small/2023_07" "/data/big/2023_07" "2023_07" 0 1000
       (seq 0 (length rows)) [] (mkSlice [] 16384) 0 0 0 0 0 0 0 0 0 0 0)
    (list_to_map
       (map (fun l => (l, mkPartWrapper
                            (Some (mkPart (mkPartHeader (nth l rows 0) 1 0 0)
                                     "/data/small/2023_07/missing"))
                            None 1 false))
            (seq 0 (length rows))))
    [] [] (repeat [] 19) [] 0 [].

Definition selects_some {E : Env} (o : outcome (list ptr * world)) : bool :=
  match o with Ret (_ :: _, _) => true | _ => false end.

Lemma parts_world_lookup rows l :
  In l (seq 0 (length rows)) -> is_Some (heap (parts_world rows) !! l).
Proof.
  intros Hl. cbn [parts_world heap].
  eexists.
  apply (elem_of_list_to_map_1' (M := gmap ptr)).
  - intros y Hy. apply list_elem_of_In, in_map_iff in Hy as (l' & Heq & _).
    inversion Heq; subst. reflexivity.
  - apply list_elem_of_In, in_map_iff. exists l. split; [reflexivity | exact Hl].
Qed.

Lemma parts_world_holds rows l :
  In l (seq 0 (length rows)) -> exists q, holds (parts_world rows) l q.
Proof.
  intros Hl.
  exists (mkPart (mkPartHeader (nth l rows 0) 1 0 0) "/data/small/2023_07/missing").
  exists (mkPartWrapper
            (Some (mkPart (mkPartHeader (nth l rows 0) 1 0 0)
                     "/data/small/2023_07/missing"))
            None 1 false).
  split; [| reflexivity].
  cbn [parts_world heap].
  apply (elem_of_list_to_map_1' (M := gmap ptr)).
  - intros y Hy. apply list_elem_of_In, in_map_iff in Hy as (l' & Heq & _).
    inversion Heq; subst. reflexivity.
  - apply list_elem_of_In, in_map_iff. exists l. split; [reflexivity | exact Hl].
Qed.

Lemma getPartsToMerge_marks_selected_witness :
  exists pms w',
    @getPartsToMerge (refEnv 0) (seq 0 8) 1000 false (parts_world (repeat 1 8))
    = Ret (pms, w') /\ NoDup pms.
Proof.
  destruct (@getPartsToMerge_marks_selected (refEnv 0) (seq 0 8) 1000 false
              (parts_world (repeat 1 8)))
    as (pms & w' & H & Hnd & _).
  - apply NoDup_ListNoDup, seq_NoDup.
  - intros l Hl. apply (parts_world_holds (repeat 1 8)). exact Hl.
  - exists pms, w'. auto.
Defined.

Lemma getPartsToMerge_final_extends_default_witness :
  exists pms w',
    @getPartsToMerge (refEnv 0) (seq 0 8) 1000 true (parts_world (repeat 1 8))
    = Ret (pms, w') /\ pms <> [].
Proof.
  assert (Hok : selects_some
                  (@getPartsToMerge (refEnv 0) (seq 0 8) 1000 false
                     (parts_world (repeat 1 8))) = true)
    by (vm_compute; reflexivity).
  destruct (@getPartsToMerge (refEnv 0) (seq 0 8) 1000 false (parts_world (repeat 1 8)))
    as [[[|x pms] w']|msg] eqn:Hg; try discriminate Hok.
  exists (x :: pms), w'. split; [| discriminate].
  apply (@getPartsToMerge_final_extends_default (refEnv 0) _ _ _ _ _ Hg).
  discriminate.
Defined.

(** Two handles of the small list whose parts were released. *)
Definition released_world : @world (refEnv 0) :=
  @mkWorld (refEnv 0)
    (mkPartition "/data/small/2023_07" "/data/big/2023_07" "2023_07" 0 1000
       [0; 1]%nat [] (mkSlice [] 16384) 0 0 0 0 0 0 0 0 0 0 0)
    (list_to_map [(0%nat, mkPartWrapper None None 0 false);
                  (1%nat, mkPartWrapper None None 0 false)])
    [] [] (repeat [] 19) [] 0 [].

Lemma getPartsToMerge_dereferences_parts_witness :
  @getPartsToMerge (refEnv 0) [0; 1]%nat 1000 false released_world
  = Panic "invalid memory address or nil pointer dereference".
Proof.
  destruct (@getPartsToMerge_dereferences_parts (refEnv 0) [0; 1]%nat 1000 false
              released_world) as [_ H].
  apply (H ltac:(vm_compute; lia) 0%nat).
  - left. reflexivity.
  - vm_compute. reflexivity.
  - intros q (pw & Hpw & Hq). vm_compute in Hpw. inversion Hpw; subst.
    discriminate Hq.
Defined.

(** ** What a merge leaves as it was *)

Section MergeFrame.
Context {E : Env}.

(** The counters of the merge workers and of the assisted merges. *)
Definition merge_gauges (q : partition) : Z * Z * Z * Z * Z :=
  (activeBigMerges q, activeSmallMerges q, bigMergesCount q, smallMergesCount q,
   smallAssistedMerges q).

(** What a merge that fails may not change: every field of the state
    beside the handles, the disk and the progress of the merges. *)
Definition off_disk (w : world) :=
  (smallParts (pt w), bigParts (pt w), rawRows (pt w), merge_gauges (pt w),
   closedParts w, inmemoryPartPool w, rawRowsPools w,
   (smallPartsPath (pt w), bigPartsPath (pt w), name (pt w),
    tr_MinTimestamp (pt w), tr_MaxTimestamp (pt w), rawRowsLastFlushTime (pt w)),
   clock w, deletedMetricIDs w).

(** The progress of the merges: the merge index, which [mergeParts] takes
    once the readers of its inputs are open, and the counters of merged and
    deleted rows, which [mergeBlockStreams] advances. *)
Definition merge_progress (q : partition) : Z * Z * Z * Z * Z :=
  (mergeIdx q, bigRowsMerged q, smallRowsMerged q, bigRowsDeleted q,
   smallRowsDeleted q).

Lemma stream_merge_off_disk pws stop w w' r :
  stream_merge pws stop w = Ret (w', r) ->
  heap w' = heap w /\ off_disk w' = off_disk w.
Proof.
  unfold stream_merge. intros H.
  apply obind_Ret in H as (srcs & _ & H).
  apply obind_Ret in H as (err & _ & H).
  destruct err; [inversion H; auto |].
  apply obind_Ret in H as (out & _ & H).
  unfold nextMergeIdx in H.
  repeat match type of H with
  | context [let '(_, _) := ?x in _] => destruct x
  | context [if ?b then _ else _] => destruct b
  | context [match ?x with _ => _ end] => destruct x
  end; inversion H; subst; unfold add_merge_counters;
    destruct (isBigPart_of out); auto.
Qed.

Lemma stream_merge_progress pws stop w w' r :
  stream_merge pws stop w = Ret (w', r) ->
  merge_progress (pt w') = merge_progress (pt w)
  \/ mergeIdx (pt w') = atomic_AddUint64 (mergeIdx (pt w)) 1.
Proof.
  unfold stream_merge. intros H.
  apply obind_Ret in H as (srcs & _ & H).
  apply obind_Ret in H as (err & _ & H).
  destruct err; [inversion H; auto |].
  apply obind_Ret in H as (out & _ & H).
  unfold nextMergeIdx in H.
  repeat match type of H with
  | context [let '(_, _) := ?x in _] => destruct x
  | context [if ?b then _ else _] => destruct b
  | context [match ?x with _ => _ end] => destruct x
  end; inversion H; subst; right; unfold add_merge_counters;
    try destruct (isBigPart_of out); reflexivity.
Qed.

Lemma commit_merge_failure_pt pws g w w' err :
  commit_merge pws g w = Ret (w', Some err) -> pt w' = pt w.
Proof.
  unfold commit_merge. intros H.
  destruct (fs_WriteFile _ _ _) as [d1 e1].
  destruct (is_error e1); [inversion H; auto |].
  destruct (runTransaction _ _ _ _) as [d2 e2]. cbn [pt set_disk] in H.
  destruct (is_error e2); [inversion H; auto |].
  destruct (0 <? _)%nat.
  - destruct (openFilePart _ _) as [newP|]; [| inversion H; auto].
    apply obind_Ret in H as (w3 & _ & Hx). discriminate Hx.
  - apply obind_Ret in H as (w3 & _ & Hx). discriminate Hx.
Qed.

Lemma install_returns_nil pws g w w' err :
  commit_merge pws g w = Ret (w', Some err) ->
  heap w' = heap w /\ off_disk w' = off_disk w.
Proof.
  unfold commit_merge. intros H.
  destruct (fs_WriteFile _ _ _) as [d1 e1].
  destruct (is_error e1); [inversion H; auto |].
  destruct (runTransaction _ _ _ _) as [d2 e2]. cbn [pt set_disk] in H.
  destruct (is_error e2); [inversion H; auto |].
  destruct (0 <? _)%nat.
  - destruct (openFilePart _ _) as [newP|]; [| inversion H; auto].
    apply obind_Ret in H as (w3 & _ & Hx). discriminate Hx.
  - apply obind_Ret in H as (w3 & _ & Hx). discriminate Hx.
Qed.

(** Clearing the flags writes the flags of the inputs and nothing else. *)
Lemma clear_isInMerge_heap pws : forall w w',
  clear_isInMerge pws w = Ret w' ->
  off_disk w' = off_disk w
  /\ forall l,
       heap w' !! l
       = if in_dec Nat.eq_dec l pws
         then set_isInMerge false <$> heap w !! l
         else heap w !! l.
Proof.
  induction pws as [|x pws IH]; intros w w' H; cbn [clear_isInMerge] in H.
  - inversion H; subst. split; [reflexivity |]. intros l. reflexivity.
  - apply obind_Ret in H as (pw & Hr & H). apply read_pw_Ret in Hr.
    destruct (negb (isInMerge pw)); [discriminate |].
    apply IH in H as [Hoff Hheap]. split; [rewrite Hoff; reflexivity |].
    intros l. rewrite Hheap. cbn [write_pw set_heap heap].
    destruct (Nat.eq_dec x l) as [-> | Hne].
    + rewrite lookup_insert_eq, Hr.
      destruct (in_dec Nat.eq_dec l (l :: pws)) as [_ | Hn];
        [| exfalso; apply Hn; left; reflexivity].
      destruct (in_dec Nat.eq_dec l pws); reflexivity.
    + rewrite lookup_insert_ne by exact Hne.
      destruct (in_dec Nat.eq_dec l pws) as [Hi | Hn];
        destruct (in_dec Nat.eq_dec l (x :: pws)) as [Hi' | Hn']; try reflexivity.
      * exfalso. apply Hn'. right. exact Hi.
      * exfalso. destruct Hi' as [-> | Hi']; [apply Hne; reflexivity | apply Hn, Hi'].
Qed.

(** X4: a merge that returns an error has changed no part: both part lists,
    the raw-row buffer, the counters of active and started merges and of
    assisted merges, the closed parts, the pools and the paths, name and
    time range of the partition are as before, and so is every handle,
    except that the [isInMerge] flag of each input is cleared. Beside the
    disk, only the progress of the merges may differ: the merge index is as
    before, with the counters of merged and deleted rows, or it has advanced
    by one. *)
Theorem mergeParts_failure_changes_no_part
    (pws : list ptr) (stop : bool) (w w' : world) (e : error) :
  mergeParts pws stop w = Ret (w', Some e) ->
  off_disk w' = off_disk w
  /\ (forall l,
        heap w' !! l
        = if in_dec Nat.eq_dec l pws
          then set_isInMerge false <$> heap w !! l
          else heap w !! l)
  /\ (merge_progress (pt w') = merge_progress (pt w)
      \/ mergeIdx (pt w') = atomic_AddUint64 (mergeIdx (pt w)) 1).
Proof.
  unfold mergeParts. intros H.
  destruct (length pws =? 0)%nat eqn:Hlen.
  { inversion H; subst. split; [reflexivity |].
    split; [| left; reflexivity].
    apply Nat.eqb_eq in Hlen. destruct pws; [| discriminate]. intros l. reflexivity. }
  apply obind_Ret in H as ([w2 e2] & Hb & H).
  apply obind_Ret in H as (w3 & Hc & H). inversion H; subst w3 e2. clear H.
  pose proof (clear_isInMerge_pt _ _ _ Hc) as Hpt3.
  apply clear_isInMerge_heap in Hc as [Hoff Hheap].
  assert (H2 : heap w2 = heap w /\ off_disk w2 = off_disk w
               /\ (merge_progress (pt w2) = merge_progress (pt w)
                   \/ mergeIdx (pt w2) = atomic_AddUint64 (mergeIdx (pt w)) 1)).
  { unfold mergeParts_body in Hb.
    apply obind_Ret in Hb as ([w1 r] & Hs & Hb).
    pose proof (stream_merge_progress _ _ _ _ _ Hs) as Hp1.
    apply stream_merge_off_disk in Hs as [Hh1 Ho1].
    destruct r as [g | e0].
    - pose proof (commit_merge_failure_pt _ _ _ _ _ Hb) as Hpt2.
      apply install_returns_nil in Hb as [Hh2 Ho2].
      rewrite Hpt2. split; [congruence |]. split; [congruence | exact Hp1].
    - inversion Hb; subst. auto. }
  destruct H2 as (Hh2 & Ho2 & Hp2). split; [congruence |].
  split; [| rewrite Hpt3; exact Hp2].
  intros l. rewrite Hheap, Hh2. reflexivity.
Qed.

Lemma decRef_all_gauges pws : forall w w',
  decRef_all pws w = Ret w' -> pt w' = pt w.
Proof.
  induction pws as [|l rest IH]; cbn [decRef_all]; intros w w' H.
  - inversion H; reflexivity.
  - apply obind_Ret in H as (w1 & H1 & H2). rewrite (IH _ _ H2).
    destruct (decRef_inv _ _ _ H1) as (pw & pw' & _ & _ & _ & _ & Hpt & _).
    exact Hpt.
Qed.

Lemma commit_merge_gauges pws g w w' err :
  commit_merge pws g w = Ret (w', err) ->
  merge_gauges (pt w') = merge_gauges (pt w)
  /\ rawRows (pt w') = rawRows (pt w).
Proof.
  unfold commit_merge. intros H.
  destruct (fs_WriteFile _ _ _) as [d1 e1].
  destruct (is_error e1); [inversion H; auto |].
  destruct (runTransaction _ _ _ _) as [d2 e2]. cbn [pt set_disk] in H.
  destruct (is_error e2); [inversion H; auto |].
  destruct (0 <? _)%nat.
  - destruct (openFilePart _ _) as [newP|]; [| inversion H; auto].
    apply obind_Ret in H as (w3 & Hi & Hx). inversion Hx; subst w3 err.
    apply install_inv in Hi as (_ & _ & Hd). cbv zeta in Hd.
    apply decRef_all_gauges in Hd. rewrite Hd. auto.
  - apply obind_Ret in H as (w3 & Hi & Hx). inversion Hx; subst w3 err.
    apply install_inv in Hi as (_ & _ & Hd). cbv zeta in Hd.
    apply decRef_all_gauges in Hd. rewrite Hd. auto.
Qed.

Lemma mergeParts_gauges pws stop w w' err :
  mergeParts pws stop w = Ret (w', err) ->
  merge_gauges (pt w') = merge_gauges (pt w).
Proof.
  unfold mergeParts. intros H.
  destruct (length pws =? 0)%nat; [inversion H; reflexivity |].
  apply obind_Ret in H as ([w2 e2] & Hb & H).
  apply obind_Ret in H as (w3 & Hc & H). inversion H; subst w3 e2. clear H.
  rewrite (clear_isInMerge_pt _ _ _ Hc).
  unfold mergeParts_body in Hb.
  apply obind_Ret in Hb as ([w1 r] & Hs & Hb).
  apply stream_merge_off_disk in Hs as [_ Ho].
  assert (Hg1 : merge_gauges (pt w1) = merge_gauges (pt w)).
  { unfold off_disk in Ho. congruence. }
  destruct r as [g | e0]; [| inversion Hb; subst; exact Hg1].
  apply commit_merge_gauges in Hb as [Hg _]. congruence.
Qed.

Lemma add_then_sub_one x :
  0 <= x < two64 ->
  atomic_AddUint64 (atomic_AddUint64 x 1) not_zero64 = x.
Proof.
  intros Hx. unfold atomic_AddUint64, wrap64, not_zero64.
  rewrite Zplus_mod_idemp_l.
  replace (x + 1 + (two64 - 1)) with (x + 1 * two64) by lia.
  rewrite Z.mod_add by (unfold two64; lia).
  apply Z.mod_small. exact Hx.
Qed.

(** X5: [mergeSmallParts] leaves [activeSmallMerges] as it found it on
    every return, and the counters of the big merges and of the assisted
    merges untouched. When [getPartsToMerge] selects nothing it returns
    [errNothingToMerge] in the state that left, without counting a merge;
    otherwise [smallMergesCount] is one more, whatever the merge returns. *)
Theorem mergeSmallParts_restores_active_counter
    (isFinal : bool) (w w' : world) (err : option error) :
  mergeSmallParts isFinal w = Ret (w', err) ->
  0 <= activeSmallMerges (pt w) < two64 ->
  activeSmallMerges (pt w') = activeSmallMerges (pt w)
  /\ activeBigMerges (pt w') = activeBigMerges (pt w)
  /\ bigMergesCount (pt w') = bigMergesCount (pt w)
  /\ smallAssistedMerges (pt w') = smallAssistedMerges (pt w)
  /\ exists pms w1,
       getPartsToMerge (smallParts (pt w))
         (wrap64 (maxRowsPerSmallPart * defaultPartsToMerge)) isFinal w
       = Ret (pms, w1)
       /\ (pms = [] ->
             err = Some errNothingToMerge /\ w' = w1
             /\ smallMergesCount (pt w') = smallMergesCount (pt w))
       /\ (pms <> [] ->
             smallMergesCount (pt w')
             = atomic_AddUint64 (smallMergesCount (pt w)) 1).
Proof.
  unfold mergeSmallParts. intros H Hx.
  apply obind_Ret in H as ([pms w1] & Hg & H).
  pose proof (proj2 (getPartsToMerge_frame _ _ _ _ _ _ Hg)) as Hpt.
  destruct pms as [|x pms]; cbn [length Nat.eqb] in H.
  - inversion H; subst w' err. rewrite Hpt.
    repeat split; try reflexivity.
    exists [], w1. split; [exact Hg |]. split; [auto | intros Hc; contradiction].
  - apply obind_Ret in H as ([w2 e2] & Hm & H). inversion H; subst w' err. clear H.
    apply mergeParts_gauges in Hm. unfold merge_gauges in Hm.
    cbn [upd_pt set_pt pt activeBigMerges activeSmallMerges bigMergesCount
         smallMergesCount smallAssistedMerges pt_set_activeSmallMerges
         pt_set_smallMergesCount] in Hm |- *.
    inversion Hm as [[H1 H2 H3 H4 H5]].
    rewrite H1, H2, H3, H4, H5, !Hpt.
    split; [apply add_then_sub_one; exact Hx |].
    repeat split; try reflexivity.
    exists (x :: pms), w1. split; [exact Hg |].
    split; [discriminate | reflexivity].
Qed.

(** X6: [mergeBigParts] plans over the big parts with at most
    [maxRowsPerBigPart] rows, whatever the free disk space allows, leaves
    [activeBigMerges] as it found it on every return and the counters of the
    small merges untouched, and counts one more big merge exactly when
    [getPartsToMerge] selects something. *)
Theorem mergeBigParts_restores_active_counter
    (maxOutPartRows : Z) (isFinal : bool) (w w' : world) (err : option error) :
  mergeBigParts maxOutPartRows isFinal w = Ret (w', err) ->
  0 <= activeBigMerges (pt w) < two64 ->
  activeBigMerges (pt w') = activeBigMerges (pt w)
  /\ activeSmallMerges (pt w') = activeSmallMerges (pt w)
  /\ smallMergesCount (pt w') = smallMergesCount (pt w)
  /\ smallAssistedMerges (pt w') = smallAssistedMerges (pt w)
  /\ exists pms w1,
       getPartsToMerge (bigParts (pt w))
         (Z.min maxOutPartRows maxRowsPerBigPart) isFinal w
       = Ret (pms, w1)
       /\ (pms = [] ->
             err = Some errNothingToMerge /\ w' = w1
             /\ bigMergesCount (pt w') = bigMergesCount (pt w))
       /\ (pms <> [] ->
             bigMergesCount (pt w') = atomic_AddUint64 (bigMergesCount (pt w)) 1).
Proof.
  unfold mergeBigParts. intros H Hx.
  replace (if maxOutPartRows >? maxRowsPerBigPart
           then maxRowsPerBigPart else maxOutPartRows)
    with (Z.min maxOutPartRows maxRowsPerBigPart) in H
    by (destruct (Z.gtb_spec maxOutPartRows maxRowsPerBigPart); lia).
  apply obind_Ret in H as ([pms w1] & Hg & H).
  pose proof (proj2 (getPartsToMerge_frame _ _ _ _ _ _ Hg)) as Hpt.
  destruct pms as [|x pms]; cbn [length Nat.eqb] in H.
  - inversion H; subst w' err. rewrite Hpt.
    repeat split; try reflexivity.
    exists [], w1. split; [exact Hg |]. split; [auto | intros Hc; contradiction].
  - apply obind_Ret in H as ([w2 e2] & Hm & H). inversion H; subst w' err. clear H.
    apply mergeParts_gauges in Hm. unfold merge_gauges in Hm.
    cbn [upd_pt set_pt pt activeBigMerges activeSmallMerges bigMergesCount
         smallMergesCount smallAssistedMerges pt_set_activeBigMerges
         pt_set_bigMergesCount] in Hm |- *.
    inversion Hm as [[H1 H2 H3 H4 H5]].
    rewrite H1, H2, H3, H4, H5, !Hpt.
    split; [apply add_then_sub_one; exact Hx |].
    repeat split; try reflexivity.
    exists (x :: pms), w1. split; [exact Hg |].
    split; [discriminate | reflexivity].
Qed.

End MergeFrame.

Definition returns_error {E : Env} (o : outcome (world * option error)) : bool :=
  match o with Ret (_, Some _) => true | _ => false end.

(** Two file parts of the small list, both marked as in merge and both on
    the disk, but outside the directories of the partition: the transaction
    of their merge is refused. *)
Definition stray_parts_world : @world (refEnv 0) :=
  @mkWorld (refEnv 0)
    (mkPartition "/data/small/2023_07" "/data/big/2023_07" "2023_07" 0 1000
       [0; 1]%nat [] (mkSlice [] 16384) 0 0 0 0 0 0 0 0 0 0 0)
    (list_to_map
       [(0%nat, mkPartWrapper (Some (mkPart (mkPartHeader 5 1 0 9) "/elsewhere/a"))
                  None 1 true);
        (1%nat, mkPartWrapper (Some (mkPart (mkPartHeader 5 1 0 9) "/elsewhere/b"))
                  None 1 true)])
    [] [] (repeat [] 19)
    [("/elsewhere/a", RefPartDir (mkPartHeader 5 1 0 9));
     ("/elsewhere/b", RefPartDir (mkPartHeader 5 1 0 9))]
    0 [].

(** Whether a merge returned an error after it took a merge index. *)
Definition failed_after_index {E : Env} (o : outcome (world * option error)) : bool :=
  match o with
  | Ret (w', Some _) => (mergeIdx (pt w') =? 1) && (smallRowsMerged (pt w') =? 10)
  | _ => false
  end.

Lemma mergeParts_failure_changes_no_part_witness :
  exists w' e,
    @mergeParts (refEnv 0) [0; 1]%nat false stray_parts_world = Ret (w', Some e)
    /\ smallParts (pt w') = [0; 1]%nat
    /\ mergeIdx (pt w') = 1
    /\ smallRowsMerged (pt w') = 10.
Proof.
  assert (Hok : failed_after_index
                  (@mergeParts (refEnv 0) [0; 1]%nat false stray_parts_world)
                = true) by (vm_compute; reflexivity).
  destruct (@mergeParts (refEnv 0) [0; 1]%nat false stray_parts_world)
    as [[w' [e|]]|msg] eqn:Hm; try discriminate Hok.
  cbn [failed_after_index] in Hok. apply andb_true_iff in Hok as [Hidx Hrows].
  apply Z.eqb_eq in Hidx. apply Z.eqb_eq in Hrows.
  destruct (@mergeParts_failure_changes_no_part (refEnv 0) _ _ _ _ _ Hm) as [Hoff _].
  exists w', e. split; [reflexivity |].
  split; [| split; [exact Hidx | exact Hrows]].
  unfold off_disk in Hoff.
  assert (Hs : smallParts (pt w') = smallParts (pt stray_parts_world)) by congruence.
  exact Hs.
Defined.

Lemma mergeSmallParts_restores_active_counter_witness :
  exists w' err,
    @mergeSmallParts (refEnv 0) false (parts_world (repeat 1 8)) = Ret (w', err)
    /\ activeSmallMerges (pt w') = 0.
Proof.
  assert (Hok : returns_error
                  (@mergeSmallParts (refEnv 0) false (parts_world (repeat 1 8)))
                = true) by (vm_compute; reflexivity).
  destruct (@mergeSmallParts (refEnv 0) false (parts_world (repeat 1 8)))
    as [[w' [e|]]|msg] eqn:Hm; try discriminate Hok.
  destruct (@mergeSmallParts_restores_active_counter (refEnv 0) _ _ _ _ Hm) as [H _].
  - cbn. unfold two64. lia.
  - exists w', (Some e). split; [reflexivity | exact H].
Defined.

(** The same file parts, standing in the big list. *)
Definition big_parts_world (rows : list Z) : @world (refEnv 0) :=
  upd_pt (fun q => pt_set_bigParts (smallParts q) (pt_set_smallParts [] q))
    (parts_world rows).

Lemma mergeBigParts_restores_active_counter_witness :
  exists w' err,
    @mergeBigParts (refEnv 0) (2 ^ 40) true (big_parts_world (repeat 1 8))
    = Ret (w', err)
    /\ activeBigMerges (pt w') = 0
    /\ bigMergesCount (pt w') = 1.
Proof.
  assert (Hok : returns_error
                  (@mergeBigParts (refEnv 0) (2 ^ 40) true
                     (big_parts_world (repeat 1 8)))
                = true) by (vm_compute; reflexivity).
  assert (Hsel : selects_some
                   (@getPartsToMerge (refEnv 0)
                      (bigParts (pt (big_parts_world (repeat 1 8))))
                      (Z.min (2 ^ 40) maxRowsPerBigPart) true
                      (big_parts_world (repeat 1 8)))
                 = true) by (vm_compute; reflexivity).
  destruct (@mergeBigParts (refEnv 0) (2 ^ 40) true (big_parts_world (repeat 1 8)))
    as [[w' [e|]]|msg] eqn:Hm; try discriminate Hok.
  destruct (@mergeBigParts_restores_active_counter (refEnv 0) _ _ _ _ _ Hm)
    as (H & _ & _ & _ & pms & w1 & Hg & _ & Hcount).
  - cbn. unfold two64. lia.
  - exists w', (Some e). split; [reflexivity |]. split; [exact H |].
    rewrite Hg in Hsel. destruct pms as [|x pms]; [discriminate Hsel |].
    rewrite Hcount by discriminate. reflexivity.
Defined.

(** ** Snapshots taken and given back *)

Section Snapshots.
Context {E : Env}.

(** Two worlds whose handles differ at most in their reference counts. *)
Definition same_parts (w w' : world) : Prop :=
  forall l,
    match heap w !! l, heap w' !! l with
    | Some pw, Some pw' =>
        p pw' = p pw /\ mp pw' = mp pw /\ isInMerge pw' = isInMerge pw
    | None, None => True
    | _, _ => False
    end.

Lemma same_parts_refl w : same_parts w w.
Proof. intros l. destruct (heap w !! l); auto. Qed.

Lemma same_parts_trans w1 w2 w3 :
  same_parts w1 w2 -> same_parts w2 w3 -> same_parts w1 w3.
Proof.
  intros H1 H2 l. specialize (H1 l). specialize (H2 l).
  destruct (heap w1 !! l), (heap w2 !! l), (heap w3 !! l); try tauto.
  destruct H1 as (? & ? & ?), H2 as (? & ? & ?). repeat split; congruence.
Qed.

Lemma set_refCount_same_parts w l pw n :
  heap w !! l = Some pw -> same_parts w (write_pw l (set_refCount n pw) w).
Proof.
  intros Hl x. cbn [write_pw set_heap heap].
  destruct (Nat.eq_dec l x) as [<- | Hne].
  - rewrite lookup_insert_eq, Hl. auto.
  - rewrite lookup_insert_ne by exact Hne. destruct (heap w !! x); auto.
Qed.

(** What the rest of the world holds besides the handles. *)
Definition beside_heap (w : world) :=
  (pt w, closedParts w, inmemoryPartPool w, rawRowsPools w, disk w).

Lemma incRef_all_same_parts pws : forall w w',
  incRef_all pws w = Ret w' -> same_parts w w' /\ beside_heap w' = beside_heap w.
Proof.
  induction pws as [|l pws IH]; cbn [incRef_all]; intros w w' H.
  - inversion H; subst. split; [apply same_parts_refl | reflexivity].
  - apply obind_Ret in H as (w1 & H1 & H2).
    unfold incRef in H1. apply obind_Ret in H1 as (pw & Hr & H1).
    apply read_pw_Ret in Hr. inversion H1; subst w1. clear H1.
    apply IH in H2 as [Hs Hb]. split.
    + eapply same_parts_trans; [apply set_refCount_same_parts; exact Hr | exact Hs].
    + rewrite Hb. reflexivity.
Qed.

Lemma decRef_above_one l w pw :
  heap w !! l = Some pw -> 2 <= refCount pw <= two63 ->
  decRef l w = Ret (write_pw l (set_refCount (refCount pw - 1) pw) w).
Proof.
  intros Hl Hc. unfold decRef, read_pw. rewrite Hl. cbn [obind].
  unfold atomic_AddUint64, wrap64, not_zero64, int64_of_uint64.
  assert (0 < two63 /\ two63 < two64) as [? ?] by (split; reflexivity).
  replace (refCount pw + (two64 - 1)) with (refCount pw - 1 + 1 * two64) by lia.
  rewrite Z.mod_add by (unfold two64; lia).
  rewrite Z.mod_small by lia.
  destruct (Z.ltb_spec (refCount pw - 1) two63); [| lia].
  destruct (Z.ltb_spec (refCount pw - 1) 0); [lia |].
  destruct (Z.gtb_spec (refCount pw - 1) 0); [reflexivity | lia].
Qed.

(** Giving references back while others remain frees nothing. *)
Lemma decRef_all_same_parts pws : forall w refs rest,
  refs_inv w refs -> Permutation refs (pws ++ rest) ->
  (forall l, In l pws -> In l rest) ->
  exists w',
    decRef_all pws w = Ret w' /\ refs_inv w' rest
    /\ same_parts w w' /\ beside_heap w' = beside_heap w.
Proof.
  induction pws as [|l pws IH]; cbn [decRef_all]; intros w refs rest Hinv Hp Hin.
  - exists w. split; [reflexivity |].
    split; [eapply refs_inv_Permutation; eassumption |].
    split; [apply same_parts_refl | reflexivity].
  - destruct (decRef_refs l w refs (pws ++ rest) Hinv Hp) as (w1 & Hd & Hinv1 & _).
    destruct Hinv as [H1 H2].
    destruct (H1 l) as [pw Hpw].
    { eapply Permutation_in; [symmetry; exact Hp | left; reflexivity]. }
    destruct (H2 l pw Hpw) as (Hc & Hlt & _).
    assert (Hcount : (2 <= count_occ Nat.eq_dec refs l)%nat).
    { rewrite (proj1 (Permutation_count_occ Nat.eq_dec _ _) Hp l).
      cbn [app count_occ]. destruct (Nat.eq_dec l l) as [_ | Hn]; [| contradiction].
      rewrite count_occ_app.
      pose proof (proj1 (count_occ_In Nat.eq_dec rest l) (Hin l (or_introl eq_refl))).
      lia. }
    assert (Hrange : 2 <= refCount pw <= two63) by lia.
    rewrite (decRef_above_one l w pw Hpw Hrange) in Hd |- *.
    inversion Hd; subst w1. clear Hd. cbn [obind].
    destruct (IH (write_pw l (set_refCount (refCount pw - 1) pw) w)
                (pws ++ rest) rest Hinv1)
      as (w' & Hd' & Hinv' & Hs' & Hb').
    { reflexivity. }
    { intros x Hx. apply Hin. right. exact Hx. }
    exists w'. split; [exact Hd' |]. split; [exact Hinv' |]. split.
    + eapply same_parts_trans; [apply set_refCount_same_parts; exact Hpw | exact Hs'].
    + rewrite Hb'. reflexivity.
Qed.

Lemma partWrapper_eq (a b : partWrapper) :
  p a = p b -> mp a = mp b -> refCount a = refCount b -> isInMerge a = isInMerge b ->
  a = b.
Proof. destruct a, b; simpl; intros; subst; reflexivity. Qed.

(** X7: from a state that satisfies the registry invariant, [GetParts]
    returns the small parts followed by the big parts, having taken one
    reference to each, and [PutParts] of that snapshot gives them back:
    it closes no part and leaves every handle, the part lists and every
    other field exactly as they were before [GetParts]. *)
Theorem GetParts_PutParts_round_trip (w : world) (held : list ptr) :
  registry_inv w held ->
  Z.of_nat (length held)
  + 2 * Z.of_nat (length (smallParts (pt w) ++ bigParts (pt w))) < two63 ->
  exists w1 w2,
    GetParts [] w = Ret (smallParts (pt w) ++ bigParts (pt w), w1)
    /\ (forall l pw, In l (smallParts (pt w) ++ bigParts (pt w)) ->
          heap w !! l = Some pw ->
          heap w1 !! l = Some (set_refCount (refCount pw + 1) pw))
    /\ PutParts (smallParts (pt w) ++ bigParts (pt w)) w1 = Ret w2
    /\ heap w2 = heap w
    /\ beside_heap w2 = beside_heap w.
Proof.
  intros Hinv Hb.
  destruct (GetParts_registry_inv [] w held Hinv Hb) as (w1 & Hg & Hinv1 & Hpt1).
  cbn [app] in Hg.
  assert (Hsp1 : same_parts w w1 /\ beside_heap w1 = beside_heap w).
  { unfold GetParts in Hg.
    apply obind_Ret in Hg as (wa & Ha & Hg).
    apply obind_Ret in Hg as (wb & Hb' & Hg). inversion Hg; subst wb.
    apply incRef_all_same_parts in Ha as [Hsa Hba].
    apply incRef_all_same_parts in Hb' as [Hsb Hbb].
    split; [eapply same_parts_trans; eassumption | congruence]. }
  destruct Hsp1 as [Hs1 Hb1].
  destruct Hinv as [Hnd Hrefs]. destruct Hinv1 as [Hnd1 Hrefs1].
  rewrite Hpt1, app_assoc in Hrefs1.
  rewrite app_assoc in Hrefs.
  set (snap := smallParts (pt w) ++ bigParts (pt w)) in *.
  destruct (decRef_all_same_parts snap w1 ((snap ++ snap ++ held)) (snap ++ held))
    as (w2 & Hd & Hinv2 & Hs2 & Hb2).
  { exact Hrefs1. }
  { reflexivity. }
  { intros l Hl. apply in_or_app. left. exact Hl. }
  exists w1, w2. split; [exact Hg |]. split; [| split; [exact Hd | split]].
  - intros l pw Hl Hpw.
    specialize (Hs1 l). rewrite Hpw in Hs1.
    destruct (heap w1 !! l) as [pw1|] eqn:Hpw1; [| contradiction].
    destruct Hs1 as (Hp & Hmp & Hfl).
    f_equal. apply partWrapper_eq; cbn [set_refCount p mp refCount isInMerge]; auto.
    destruct Hrefs as [_ Hc]. destruct (Hc l pw Hpw) as (-> & _).
    destruct Hrefs1 as [_ Hc1]. destruct (Hc1 l pw1 Hpw1) as (-> & _).
    rewrite (count_occ_app _ snap (snap ++ held)).
    assert (Hone : count_occ Nat.eq_dec snap l = 1%nat).
    { apply NoDup_count_occ'; [apply NoDup_ListNoDup, Hnd | exact Hl]. }
    lia.
  - apply map_eq. intros l.
    pose proof (same_parts_trans _ _ _ Hs1 Hs2 l) as Hs.
    destruct (heap w !! l) as [pw|] eqn:Hpw, (heap w2 !! l) as [pw2|] eqn:Hpw2;
      try contradiction; [| reflexivity].
    destruct Hs as (Hp & Hmp & Hfl). f_equal. apply partWrapper_eq; auto.
    destruct Hrefs as [_ Hc]. destruct (Hc l pw Hpw) as (-> & _).
    destruct Hinv2 as [_ Hc2]. destruct (Hc2 l pw2 Hpw2) as (-> & _).
    reflexivity.
  - congruence.
Qed.

End Snapshots.

Lemma parts_world_heap rows l pw :
  heap (parts_world rows) !! l = Some pw ->
  In l (seq 0 (length rows))
  /\ pw = mkPartWrapper
            (Some (mkPart (mkPartHeader (nth l rows 0) 1 0 0)
                     "/data/small/2023_07/missing")) None 1 false.
Proof.
  cbn [parts_world heap]. intros H.
  apply (elem_of_list_to_map_2 (M := gmap ptr)) in H.
  apply list_elem_of_In, in_map_iff in H as (l' & Heq & Hin).
  inversion Heq; subst. auto.
Qed.

Lemma parts_world_registry_inv rows : registry_inv (parts_world rows) [].
Proof.
  split; cbn [parts_world pt smallParts bigParts]; rewrite !app_nil_r.
  - apply NoDup_ListNoDup, seq_NoDup.
  - split.
    + intros l Hl. apply parts_world_lookup. exact Hl.
    + intros l pw Hl. apply parts_world_heap in Hl as [Hin ->].
      cbn [refCount p].
      rewrite (proj1 (NoDup_count_occ' Nat.eq_dec _) (seq_NoDup _ 0) l Hin).
      split; [reflexivity |]. split; [reflexivity | intros _; eexists; reflexivity].
Qed.

Lemma GetParts_PutParts_round_trip_witness :
  exists w1 w2,
    @GetParts (refEnv 0) [] (parts_world (repeat 1 8)) = Ret (seq 0 8, w1)
    /\ @PutParts (refEnv 0) (seq 0 8) w1 = Ret w2
    /\ heap w2 = heap (parts_world (repeat 1 8)).
Proof.
  destruct (@GetParts_PutParts_round_trip (refEnv 0) (parts_world (repeat 1 8)) [])
    as (w1 & w2 & Hg & _ & Hp & Hh & _).
  - apply parts_world_registry_inv.
  - vm_compute. reflexivity.
  - exists w1, w2. cbn [parts_world pt smallParts bigParts] in Hg, Hp.
    rewrite app_nil_r in Hg, Hp. auto.
Defined.

(** ** The pools of row buffers *)

Lemma log2_pred_pow2 k : 1 <= k -> Z.log2 (2 ^ k - 1) = k - 1.
Proof.
  intros Hk.
  assert (H2 : 2 ^ k = 2 * 2 ^ (k - 1)).
  { rewrite <- Z.pow_succ_r by lia. f_equal. lia. }
  pose proof (Z.pow_pos_nonneg 2 (k - 1) ltac:(lia) ltac:(lia)) as Hpos.
  apply Z.log2_unique; [lia |].
  replace (Z.succ (k - 1)) with k by lia. lia.
Qed.

Lemma getRawRowsPool_rounds_bucket (size : Z) :
  exists idx, getRawRowsPool size = (idx, 2 ^ idx) /\ 0 <= idx <= 18.
Proof.
  unfold getRawRowsPool, bits_LeadingZeros64, bits_Len64, rawRowsPools_len.
  destruct (Z.ltb_spec (size - 1) 0); [exists 0; cbn; split; [reflexivity | lia] |].
  destruct (Z.leb_spec (size - 1) 0); [exists 0; cbn; split; [reflexivity | lia] |].
  pose proof (Z.log2_nonneg (size - 1)) as Hnn.
  replace (64 - (64 - (Z.log2 (size - 1) + 1))) with (Z.log2 (size - 1) + 1) by lia.
  destruct (Z.geb_spec (Z.log2 (size - 1) + 1) 19).
  - exists 18. split; [reflexivity | lia].
  - exists (Z.log2 (size - 1) + 1). rewrite Z.shiftl_1_l. split; [reflexivity | lia].
Qed.

(** X8: for every requested size [getRawRowsPool] picks one of the 19
    buckets and rounds to the power of two of its index; the rounded size
    covers the request up to 2^18 rows and is less than twice the request;
    and the rounded size is sent to the same bucket with the same rounding,
    so [putRawRows] returns a buffer made by [getRawRowsWithSize] to the
    pool it was asked from. *)
Theorem getRawRowsPool_rounds_to_its_bucket (size : Z) :
  exists idx,
    getRawRowsPool size = (idx, 2 ^ idx)
    /\ 0 <= idx <= 18
    /\ (size <= 2 ^ 18 -> size <= 2 ^ idx)
    /\ (1 < size <= 2 ^ 18 -> 2 ^ idx < 2 * size)
    /\ (2 ^ 18 < size -> idx = 18)
    /\ getRawRowsPool (2 ^ idx) = (idx, 2 ^ idx)
    /\ (forall rr pools,
          cap rr = 2 ^ idx -> putRawRows rr pools = pool_put pools idx (reslice0 rr)).
Proof.
  assert (Hput : forall k rr pools,
            getRawRowsPool (2 ^ k) = (k, 2 ^ k) -> cap rr = 2 ^ k ->
            putRawRows rr pools = pool_put pools k (reslice0 rr)).
  { intros k rr pools Hk Hc. unfold putRawRows. cbn [reslice0 cap].
    rewrite Hc, Hk. reflexivity. }
  assert (Hself : forall k, 0 <= k <= 18 -> getRawRowsPool (2 ^ k) = (k, 2 ^ k)).
  { intros k Hk. unfold getRawRowsPool, bits_LeadingZeros64, bits_Len64, rawRowsPools_len.
    pose proof (Z.pow_pos_nonneg 2 k ltac:(lia) ltac:(lia)) as Hpos.
    destruct (Z.ltb_spec (2 ^ k - 1) 0); [lia |].
    destruct (Z.eq_dec k 0) as [-> | Hk0].
    - reflexivity.
    - assert (1 < 2 ^ k) by (apply Z.pow_gt_1; lia).
      destruct (Z.leb_spec (2 ^ k - 1) 0); [lia |].
      rewrite log2_pred_pow2 by lia.
      replace (64 - (64 - (k - 1 + 1))) with k by lia.
      destruct (Z.geb_spec k 19); [lia |].
      rewrite Z.shiftl_1_l. reflexivity. }
  unfold getRawRowsPool at 1, bits_LeadingZeros64, bits_Len64, rawRowsPools_len.
  destruct (Z.ltb_spec (size - 1) 0) as [Hneg | Hpos].
  { exists 0. cbn. split; [reflexivity |]. split; [lia |].
    split; [lia |]. split; [lia |]. split; [lia |].
    split; [apply (Hself 0); lia |].
    intros rr pools. apply Hput. apply (Hself 0). lia. }
  destruct (Z.leb_spec (size - 1) 0) as [Hz | Hgt].
  { exists 0. cbn. split; [reflexivity |]. split; [lia |].
    split; [lia |]. split; [lia |]. split; [lia |].
    split; [apply (Hself 0); lia |].
    intros rr pools. apply Hput. apply (Hself 0). lia. }
  pose proof (Z.log2_spec (size - 1) ltac:(lia)) as [Hlo Hhi].
  pose proof (Z.log2_nonneg (size - 1)) as Hnn.
  replace (Z.succ (Z.log2 (size - 1))) with (Z.log2 (size - 1) + 1) in Hhi by lia.
  replace (64 - (64 - (Z.log2 (size - 1) + 1))) with (Z.log2 (size - 1) + 1) by lia.
  destruct (Z.geb_spec (Z.log2 (size - 1) + 1) 19) as [Hbig | Hsmall].
  - exists 18. replace (19 - 1) with 18 by lia. rewrite Z.shiftl_1_l.
    assert (2 ^ 18 <= size - 1).
    { eapply Z.le_trans; [| exact Hlo]. apply Z.pow_le_mono_r; lia. }
    split; [reflexivity |]. split; [lia |].
    split; [lia |]. split; [lia |]. split; [lia |].
    split; [apply (Hself 18); lia |].
    intros rr pools. apply Hput. apply (Hself 18). lia.
  - exists (Z.log2 (size - 1) + 1). rewrite Z.shiftl_1_l.
    assert (Hdouble : 2 ^ (Z.log2 (size - 1) + 1) = 2 * 2 ^ Z.log2 (size - 1)).
    { rewrite Z.pow_add_r by lia. lia. }
    split; [reflexivity |]. split; [lia |].
    split; [lia |]. split; [lia |]. split.
    + intros Hs. exfalso.
      assert (18 <= Z.log2 (size - 1)); [| lia].
      apply Z.log2_le_pow2; lia.
    + split; [apply Hself; lia |].
      intros rr pools. apply Hput. apply Hself. lia.
Qed.

(** X9: the compression level is between 1 and 5 and never decreases as
    the number of rows grows. *)
Theorem getCompressLevelForRowsCount_monotone (a b : Z) :
  1 <= getCompressLevelForRowsCount a <= 5
  /\ (a <= b -> getCompressLevelForRowsCount a <= getCompressLevelForRowsCount b).
Proof.
  unfold getCompressLevelForRowsCount.
  change (Z.shiftl 1 19) with 524288. change (Z.shiftl 1 22) with 4194304.
  change (Z.shiftl 1 25) with 33554432. change (Z.shiftl 1 28) with 268435456.
  repeat match goal with
         | |- context [?x <=? ?y] => destruct (Z.leb_spec x y)
         end; lia.
Qed.

(** X10: [getMaxRawRowsPerPartition] is always between 10000 and 500000
    rows, whatever the memory allowed and the size of a row, and does not
    decrease when more memory is allowed to rows of the same positive
    size. *)
Theorem getMaxRawRowsPerPartition_bounds (allowed allowed' sz : Z) :
  10000 <= getMaxRawRowsPerPartition allowed sz <= 500000
  /\ (0 < sz -> allowed <= allowed' ->
      getMaxRawRowsPerPartition allowed sz <= getMaxRawRowsPerPartition allowed' sz).
Proof.
  unfold getMaxRawRowsPerPartition. split.
  - destruct (Z.ltb_spec (allowed / 256 / sz) 10000); [cbn; lia |].
    destruct (Z.gtb_spec (allowed / 256 / sz) 500000); lia.
  - intros Hsz Hle.
    assert (Hdiv : allowed / 256 / sz <= allowed' / 256 / sz).
    { apply Z.div_le_mono; [exact Hsz |]. apply Z.div_le_mono; lia. }
    destruct (Z.ltb_spec (allowed / 256 / sz) 10000);
      destruct (Z.ltb_spec (allowed' / 256 / sz) 10000); cbn;
      repeat match goal with
             | |- context [?x >? ?y] => destruct (Z.gtb_spec x y)
             end; lia.
Qed.

(** ** No row is lost while the buffer is filled *)

Section RowsKept.
Context {E : Env}.

(** The buffers the pool may hand out for [maxRawRowsPerPartition] rows are
    empty and have room. *)
Definition pools_usable (pools : rowPools) : Prop :=
  forall b,
    nth_error pools (Z.to_nat (fst (getRawRowsPool maxRawRowsPerPartition))) = Some b ->
    Forall (fun rr => elems rr = [] /\ 0 < cap rr) b.

Lemma nth_error_replace {A} (l : list A) (n : nat) (x y : A) :
  nth_error l n = Some x ->
  nth_error (firstn n l ++ y :: skipn (S n) l) n = Some y.
Proof.
  intros H.
  assert (Hlen : (n < length l)%nat) by (apply nth_error_Some; congruence).
  rewrite nth_error_app2 by (rewrite length_firstn; lia).
  rewrite length_firstn. replace (n - Nat.min n (length l))%nat with O by lia.
  reflexivity.
Qed.

Lemma getRawRowsMaxSize_usable w rr w' :
  pools_usable (rawRowsPools w) ->
  getRawRowsMaxSize w = (rr, w') ->
  elems rr = [] /\ 0 < cap rr
  /\ pools_usable (rawRowsPools w')
  /\ pt w' = pt w /\ heap w' = heap w.
Proof.
  intros Hok. unfold getRawRowsMaxSize, getRawRowsWithSize.
  fold maxRawRowsPerPartition. unfold pools_usable in *.
  destruct (getRawRowsPool_rounds_bucket maxRawRowsPerPartition) as (idx & Hp & Hidx).
  rewrite Hp in *. cbn [fst] in Hok. unfold pool_get.
  destruct (nth_error (rawRowsPools w) (Z.to_nat idx)) as [[|v rest]|] eqn:Hb.
  - intros H. inversion H; subst. cbn.
    split; [reflexivity |]. split; [apply Z.pow_pos_nonneg; lia |].
    split; [| auto]. intros b Hb'. cbn [fst] in Hb'. rewrite Hb in Hb'. inversion Hb'. constructor.
  - intros H. inversion H; subst. cbn [set_rawRowsPools rawRowsPools pt heap].
    pose proof (Hok _ eq_refl) as Hall. inversion Hall as [|? ? [Hv1 Hv2] Hrest]; subst.
    split; [exact Hv1 |]. split; [exact Hv2 |]. split; [| auto].
    intros b Hb'. cbn [fst] in Hb'. rewrite (nth_error_replace _ _ _ rest Hb) in Hb'.
    inversion Hb'; subst. exact Hrest.
  - intros H. inversion H; subst. cbn.
    split; [reflexivity |]. split; [apply Z.pow_pos_nonneg; lia |].
    split; [| auto]. intros b Hb'. cbn [fst] in Hb'. rewrite Hb in Hb'. discriminate.
Qed.


Lemma swap_out_usable rows w :
  pools_usable (rawRowsPools w) ->
  elems (snd (swap_out rows w))
    = elems (rawRows (pt w))
      ++ firstn (Z.to_nat (cap (rawRows (pt w)) - len (rawRows (pt w)))) rows
  /\ elems (rawRows (pt (fst (swap_out rows w)))) = []
  /\ 0 < cap (rawRows (pt (fst (swap_out rows w))))
  /\ pools_usable (rawRowsPools (fst (swap_out rows w)))
  /\ heap (fst (swap_out rows w)) = heap w
  /\ smallParts (pt (fst (swap_out rows w))) = smallParts (pt w)
  /\ bigParts (pt (fst (swap_out rows w))) = bigParts (pt w).
Proof.
  intros Hok. unfold swap_out.
  destruct (getRawRowsMaxSize _) as [rr w1] eqn:Hg.
  apply getRawRowsMaxSize_usable in Hg as (He & Hc & Hok1 & Hpt & Hh); [| exact Hok].
  cbn [fst snd upd_pt set_pt pt rawRows pt_set_rawRows pt_set_rawRowsLastFlushTime
       heap rawRowsPools smallParts bigParts].
  rewrite Hpt, Hh. cbn [upd_pt set_pt pt rawRows pt_set_rawRows heap append_rows elems
                        smallParts bigParts].
  repeat split; auto.
Qed.

Lemma AddRows_fill_keeps fuel : forall rows rrs w rrs' w',
  pools_usable (rawRowsPools w) ->
  AddRows_fill fuel rows rrs w = Some (rrs', w') ->
  concat (map elems rrs') ++ elems (rawRows (pt w'))
  = concat (map elems rrs) ++ elems (rawRows (pt w)) ++ rows
  /\ heap w' = heap w
  /\ smallParts (pt w') = smallParts (pt w)
  /\ bigParts (pt w') = bigParts (pt w).
Proof.
  induction fuel as [|fuel IH]; intros rows rrs w rrs' w' Hok H; [discriminate |].
  destruct (Z_le_gt_dec (Z.of_nat (length rows))
              (cap (rawRows (pt w)) - len (rawRows (pt w)))) as [Hfit | Hno].
  - rewrite AddRows_fill_fast in H by exact Hfit. inversion H; subst.
    cbn [upd_pt set_pt pt rawRows pt_set_rawRows append_rows elems heap
         smallParts bigParts]. auto.
  - rewrite AddRows_fill_slow in H by lia.
    destruct (swap_out_usable rows w Hok) as (He & He' & _ & Hok1 & Hh & Hs & Hb).
    apply IH in H as (Hkept & Hh' & Hs' & Hb'); [| exact Hok1].
    split; [| split; [congruence | split; congruence]].
    rewrite Hkept, map_app, concat_app. cbn [map concat].
    rewrite He, He'. cbn [app].
    rewrite app_nil_r, <- !app_assoc. f_equal. f_equal.
    apply firstn_skipn.
Qed.

Lemma AddRows_fill_ends_fresh fuel : forall rows rrs w,
  pools_usable (rawRowsPools w) ->
  elems (rawRows (pt w)) = [] -> 0 < cap (rawRows (pt w)) ->
  (length rows < fuel)%nat ->
  exists rrs' w', AddRows_fill fuel rows rrs w = Some (rrs', w').
Proof.
  induction fuel as [|fuel IH]; intros rows rrs w Hok He Hc Hlen; [lia |].
  destruct (Z_le_gt_dec (Z.of_nat (length rows))
              (cap (rawRows (pt w)) - len (rawRows (pt w)))) as [Hfit | Hno].
  - rewrite AddRows_fill_fast by exact Hfit. eauto.
  - rewrite AddRows_fill_slow by lia.
    destruct (swap_out_usable rows w Hok) as (_ & He' & Hc' & Hok1 & _).
    apply IH; auto.
    rewrite length_skipn. unfold len in *. rewrite He in *. cbn [length] in *. lia.
Qed.

(** X11: when the buffers pooled for [maxRawRowsPerPartition] rows are
    empty with room for at least one row, the loop of [AddRows] ends within
    the passes the model follows, whatever the buffer holds, and loses no
    row: the buffers swapped out, in order, followed by the buffer left in
    the partition hold the rows that were buffered followed by the new
    rows, in order; and the loop touches neither the handles nor the part
    lists. *)
Theorem AddRows_fill_keeps_every_row (rows : list rawRow) (w : world) :
  pools_usable (rawRowsPools w) ->
  exists rrs w',
    AddRows_fill (length rows + 2) rows [] w = Some (rrs, w')
    /\ concat (map elems rrs) ++ elems (rawRows (pt w'))
       = elems (rawRows (pt w)) ++ rows
    /\ heap w' = heap w
    /\ smallParts (pt w') = smallParts (pt w)
    /\ bigParts (pt w') = bigParts (pt w).
Proof.
  intros Hok.
  assert (Hends : exists rrs w',
            AddRows_fill (length rows + 2) rows [] w = Some (rrs, w')).
  { rewrite Nat.add_comm. cbn [Nat.add].
    destruct (Z_le_gt_dec (Z.of_nat (length rows))
                (cap (rawRows (pt w)) - len (rawRows (pt w)))) as [Hfit | Hno].
    - rewrite AddRows_fill_fast by exact Hfit. eauto.
    - rewrite AddRows_fill_slow by lia.
      destruct (swap_out_usable rows w Hok) as (_ & He' & Hc' & Hok1 & _).
      apply AddRows_fill_ends_fresh; auto.
      rewrite length_skipn. lia. }
  destruct Hends as (rrs & w' & Hrun). exists rrs, w'. split; [exact Hrun |].
  apply AddRows_fill_keeps in Hrun; [| exact Hok]. exact Hrun.
Qed.

End RowsKept.

(** Whether the fill loop swapped a buffer out. *)
Definition swapped_out {E : Env} (o : option (list rowSlice * world)) : bool :=
  match o with Some (_ :: _, _) => true | _ => false end.

Lemma AddRows_fill_keeps_every_row_witness :
  exists rr rrs w',
    @AddRows_fill (refEnv 0) 12 (repeat sample_row 10) [] nearly_full_world
    = Some (rr :: rrs, w')
    /\ concat (map elems (rr :: rrs)) ++ elems (rawRows (pt w'))
       = repeat sample_row (Z.to_nat 16380) ++ repeat sample_row 10.
Proof.
  destruct (@AddRows_fill_keeps_every_row (refEnv 0) (repeat sample_row 10)
              nearly_full_world)
    as (rrs & w' & H & Hk & _).
  - intros b Hb. vm_compute in Hb. inversion Hb. repeat constructor.
  - assert (Hsw : swapped_out
                    (@AddRows_fill (refEnv 0) 12 (repeat sample_row 10) []
                       nearly_full_world) = true)
      by (vm_compute; reflexivity).
    change (length (repeat sample_row 10) + 2)%nat with 12%nat in H.
    rewrite H in Hsw. destruct rrs as [|rr rrs]; [discriminate Hsw |].
    exists rr, rrs, w'. split; [exact H | exact Hk].
Defined.

(** ** The transaction file written by a merge *)

Section TransactionText.
Context {E : Env}.

(** The paths of the sources that are file parts, in order. *)
Fixpoint file_paths (srcs : list partWrapper) : list string :=
  match srcs with
  | [] => []
  | pw :: rest =>
      match mp pw with
      | None => pw_path pw :: file_paths rest
      | Some _ => file_paths rest
      end
  end.

Lemma txn_remove_lines_lines srcs last :
  (txn_remove_lines srcs ++ last)%string = txn_lines (file_paths srcs) last.
Proof.
  induction srcs as [|pw rest IH]; cbn [txn_remove_lines file_paths txn_lines].
  - reflexivity.
  - destruct (mp pw); [exact IH |].
    cbn [txn_lines]. rewrite <- IH, <- !append_assoc. reflexivity.
Qed.

(** X12: the text [mergeParts] writes into a transaction file is read back
    by the parsing steps of [runTransaction] as what was written: the lines
    before the last are the paths of the sources that are file parts, in
    order, and the last line splits at the arrow into the temporary path and
    the destination path, which is empty when the merged part has no rows.
    The paths hold no line feed, and the arrow between them is the only one
    of the last line. *)
Theorem transaction_text_round_trip
    (srcs : list partWrapper) (tmpPartPath dstPartPath : string) :
  Forall no_newline (file_paths srcs) ->
  no_newline tmpPartPath -> no_newline dstPartPath ->
  no_occ arrow tmpPartPath (arrow ++ dstPartPath)%string ->
  no_occ arrow dstPartPath EmptyString ->
  let paths := strings_Split
                 (strip_last_newline (txn_data srcs tmpPartPath dstPartPath)) newline in
  paths <> []
  /\ List.removelast paths = file_paths srcs
  /\ strings_Split (List.last paths EmptyString) arrow = [tmpPartPath; dstPartPath].
Proof.
  intros Hrm Htmp Hdst Hno1 Hno2. cbv zeta.
  assert (Hparse : strings_Split
                     (strip_last_newline (txn_data srcs tmpPartPath dstPartPath)) newline
                   = file_paths srcs ++ [(tmpPartPath ++ arrow ++ dstPartPath)%string]).
  { apply transaction_parsed; try assumption. right.
    unfold txn_data.
    rewrite <- (txn_remove_lines_lines srcs (tmpPartPath ++ arrow ++ dstPartPath)).
    rewrite <- !append_assoc. reflexivity. }
  rewrite Hparse. split; [destruct (file_paths srcs); discriminate |].
  rewrite removelast_snoc, last_last. split; [reflexivity |].
  apply split_arrow; assumption.
Qed.

(** X13: [validatePath] returns the absolute form of the path without
    error exactly when the three paths have absolute forms and that of the
    path starts with that of a prefix followed by a slash; so it refuses a
    prefix directory itself unless it lies under the other prefix. *)
Theorem validatePath_accepts_only_under_prefixes
    (pathPrefix1 pathPrefix2 q : string) :
  (forall q',
     validatePath pathPrefix1 pathPrefix2 q = (q', None) <->
     exists a1 a2,
       filepath_Abs pathPrefix1 = (a1, None)
       /\ filepath_Abs pathPrefix2 = (a2, None)
       /\ filepath_Abs q = (q', None)
       /\ (strings_HasPrefix q' (a1 ++ slash)%string = true
           \/ strings_HasPrefix q' (a2 ++ slash)%string = true))
  /\ (forall a1 a2,
        filepath_Abs pathPrefix1 = (a1, None) ->
        filepath_Abs pathPrefix2 = (a2, None) ->
        filepath_Abs q = (a1, None) ->
        strings_HasPrefix a1 (a2 ++ slash)%string = false ->
        is_error (snd (validatePath pathPrefix1 pathPrefix2 q)) = true).
Proof.
  assert (Hself : forall a, strings_HasPrefix a (a ++ slash)%string = false).
  { intros a. unfold strings_HasPrefix, slash.
    induction a as [|c a IH]; [reflexivity |].
    rewrite append_cons. cbn [String.prefix].
    destruct (ascii_dec c c); [exact IH | contradiction]. }
  split.
  - intros q'. unfold validatePath.
    destruct (filepath_Abs pathPrefix1) as [a1 [e1|]]; cbn [is_error].
    { split; [discriminate | intros (? & ? & H & _); discriminate]. }
    destruct (filepath_Abs pathPrefix2) as [a2 [e2|]]; cbn [is_error].
    { split; [discriminate | intros (? & ? & _ & H & _); discriminate]. }
    destruct (filepath_Abs q) as [a [e|]]; cbn [is_error].
    { split; [discriminate | intros (? & ? & _ & _ & H & _); discriminate]. }
    destruct (strings_HasPrefix a (a1 ++ slash)%string) eqn:H1;
      destruct (strings_HasPrefix a (a2 ++ slash)%string) eqn:H2; cbn [negb andb];
      (split;
       [intros H; inversion H; subst; exists a1, a2; repeat split; auto
       | intros (b1 & b2 & Hb1 & Hb2 & Hb & Hor);
         inversion Hb1; inversion Hb2; inversion Hb; subst;
         try reflexivity; destruct Hor; congruence]).
  - intros a1 a2 H1 H2 Hq Hn. unfold validatePath.
    rewrite H1, H2, Hq. cbn [is_error]. rewrite Hself, Hn. reflexivity.
Qed.

(** X14: a transaction file that cannot be read, or whose last line holds
    no arrow, makes [runTransaction] fail before anything is removed: the
    file system is returned as it was. An empty file is such a file. *)
Theorem runTransaction_rejects_malformed_file
    (pathPrefix1 pathPrefix2 txnPath : string) (d : FS) :
  (forall e, ioutil_ReadFile txnPath d = inr e ->
     runTransaction pathPrefix1 pathPrefix2 txnPath d
     = (d, Some (errOther "cannot read transaction file")))
  /\ (forall data rmPaths last,
        ioutil_ReadFile txnPath d = inl data ->
        data = txn_lines rmPaths last
        \/ data = (txn_lines rmPaths last ++ newline)%string ->
        Forall no_newline rmPaths -> no_newline last -> last <> EmptyString ->
        no_occ arrow last EmptyString ->
        runTransaction pathPrefix1 pathPrefix2 txnPath d
        = (d, Some (errOther "invalid last line in the transaction file")))
  /\ (ioutil_ReadFile txnPath d = inl EmptyString ->
        runTransaction pathPrefix1 pathPrefix2 txnPath d
        = (d, Some (errOther "invalid last line in the transaction file"))).
Proof.
  split; [| split].
  - intros e He. unfold runTransaction. rewrite He. reflexivity.
  - intros data rmPaths last Hread Hdata Hrm Hlast Hne Hno.
    assert (Hstrip : strip_last_newline data = txn_lines rmPaths last).
    { destruct Hdata as [-> | ->]; [| apply strip_last_newline_app].
      destruct last as [|c last']; [contradiction |].
      assert (Hend : exists t x, String c last' = (t ++ String x EmptyString)%string
                                 /\ x <> ascii_of_nat 10).
      { clear - Hlast. revert c Hlast.
        induction last' as [|c' l IH]; intros c [Hc Hl].
        - exists EmptyString, c. auto.
        - destruct (IH c' Hl) as (t & x & Heq & Hx).
          exists (String c t), x. rewrite append_cons, <- Heq. auto. }
      destruct Hend as (t & x & Heq & Hx).
      rewrite Heq, txn_lines_app.
      apply strip_last_newline_none; [exact Hx | exact I]. }
    unfold runTransaction. rewrite Hread. cbv zeta. rewrite Hstrip.
    rewrite split_txn_lines by assumption.
    rewrite length_app, Nat.add_comm. cbn [length Nat.add Nat.eqb].
    rewrite removelast_snoc, last_last.
    unfold strings_Split. rewrite split_from_none by exact Hno. reflexivity.
  - intros Hread. unfold runTransaction. rewrite Hread. reflexivity.
Qed.

End TransactionText.

Lemma transaction_text_round_trip_witness :
  strings_Split
    (List.last
       (strings_Split
          (strip_last_newline
             (txn_data
                [mkPartWrapper (Some (mkPart (mkPartHeader 5 1 0 9) "/data/small/p/part_a"))
                   None 1 true;
                 mkPartWrapper (Some (mkPart (mkPartHeader 2 1 0 9) EmptyString))
                   (Some (mkInmemoryPart (mkPartHeader 2 1 0 9) 0)) 1 true]
                "/data/small/p/tmp/0001" "/data/small/p/part_b"))
          newline) EmptyString) arrow
  = ["/data/small/p/tmp/0001"; "/data/small/p/part_b"].
Proof.
  destruct (transaction_text_round_trip
              [mkPartWrapper (Some (mkPart (mkPartHeader 5 1 0 9) "/data/small/p/part_a"))
                 None 1 true;
               mkPartWrapper (Some (mkPart (mkPartHeader 2 1 0 9) EmptyString))
                 (Some (mkInmemoryPart (mkPartHeader 2 1 0 9) 0)) 1 true]
              "/data/small/p/tmp/0001" "/data/small/p/part_b")
    as (_ & _ & H).
  - repeat constructor; discriminate.
  - cbn [no_newline]. repeat split; discriminate.
  - cbn [no_newline]. repeat split; discriminate.
  - cbn [no_occ]. repeat split; reflexivity.
  - cbn [no_occ]. repeat split; reflexivity.
  - exact H.
Defined.

(** ** Flushing in-memory parts *)

Section FlushInmemory.
Context {E : Env}.

(** Whether [flushInmemoryParts] takes the part behind a handle: it is an
    in-memory part, it is not being merged, and it is old enough or the
    flush is forced. *)
Definition due (force : bool) (currentTime : Z) (w : world) (l : ptr) : bool :=
  match heap w !! l with
  | Some pw =>
      match mp pw with
      | Some m =>
          negb (isInMerge pw)
          && (force || (currentTime - creationTime m >=? inmemoryPartsFlushInterval))
      | None => false
      end
  | None => false
  end.

Lemma collect_aged_due force now smalls : forall dst w,
  NoDup smalls ->
  (forall l, In l smalls -> is_Some (heap w !! l)) ->
  exists w',
    collect_aged force now smalls dst w
    = Ret (dst ++ List.filter (due force now w) smalls, w')
    /\ pt w' = pt w
    /\ (forall l pw, In l (List.filter (due force now w) smalls) ->
          heap w !! l = Some pw -> heap w' !! l = Some (set_isInMerge true pw))
    /\ (forall l, ~ In l (List.filter (due force now w) smalls) ->
          heap w' !! l = heap w !! l).
Proof.
  induction smalls as [|x smalls IH]; intros dst w Hnd Hall.
  - exists w. cbn [collect_aged List.filter]. rewrite app_nil_r.
    repeat split; auto. intros l pw [].
  - apply NoDup_cons in Hnd as [Hx Hnd].
    destruct (Hall x (or_introl eq_refl)) as [pw Hpw].
    cbn [collect_aged List.filter]. unfold read_pw. rewrite Hpw. cbn [obind].
    assert (Hdx : due force now w x
                  = match mp pw with
                    | Some m => negb (isInMerge pw)
                                && (force || (now - creationTime m >=? inmemoryPartsFlushInterval))
                    | None => false
                    end)
      by (unfold due; rewrite Hpw; reflexivity).
    assert (Hrest : forall l, In l smalls -> is_Some (heap w !! l))
      by (intros l Hl; apply Hall; right; exact Hl).
    assert (Hskip : due force now w x = false ->
              exists w',
                collect_aged force now smalls dst w
                = Ret (dst ++ (if due force now w x
                               then x :: List.filter (due force now w) smalls
                               else List.filter (due force now w) smalls), w')
                /\ pt w' = pt w
                /\ (forall l pw0,
                      In l (if due force now w x
                            then x :: List.filter (due force now w) smalls
                            else List.filter (due force now w) smalls) ->
                      heap w !! l = Some pw0 ->
                      heap w' !! l = Some (set_isInMerge true pw0))
                /\ (forall l,
                      ~ In l (if due force now w x
                              then x :: List.filter (due force now w) smalls
                              else List.filter (due force now w) smalls) ->
                      heap w' !! l = heap w !! l)).
    { intros ->. exact (IH dst w Hnd Hrest). }
    destruct (mp pw) as [m|] eqn:Hmp; [| exact (Hskip Hdx)].
    destruct (isInMerge pw) eqn:Hfl; [exact (Hskip Hdx) |].
    cbn [negb andb] in Hdx.
    destruct (force || (now - creationTime m >=? inmemoryPartsFlushInterval)) eqn:Hdue;
      [| exact (Hskip Hdx)].
    clear Hskip. rewrite Hdx.
    set (w1 := write_pw x (set_isInMerge true pw) w).
    assert (Hne : forall l, In l smalls -> l <> x).
    { intros l Hl ->. apply Hx, list_elem_of_In, Hl. }
    assert (Hsame : forall l, In l smalls -> due force now w1 l = due force now w l).
    { intros l Hl. unfold due, w1. cbn [write_pw set_heap heap].
      rewrite lookup_insert_ne; [reflexivity |].
      intros Heq. apply (Hne l Hl). symmetry. exact Heq. }
    destruct (IH (dst ++ [x]) w1 Hnd) as (w' & Hc & Hpt & Hsel & Hoth).
    { intros l Hl. unfold w1. cbn [write_pw set_heap heap].
      rewrite lookup_insert_ne; [apply Hrest; exact Hl |].
      intros Heq. apply (Hne l Hl). symmetry. exact Heq. }
    rewrite (filter_ext_in _ _ _ Hsame) in Hc, Hsel, Hoth.
    exists w'. split; [rewrite Hc, <- app_assoc; reflexivity |].
    split; [rewrite Hpt; reflexivity |]. split.
    + intros l pw' [<- | Hl] Hpw'.
      * rewrite Hoth.
        -- unfold w1. cbn [write_pw set_heap heap].
           rewrite lookup_insert_eq. congruence.
        -- intros Hin. apply filter_In in Hin as [Hin _].
           exact (Hne x Hin eq_refl).
      * apply Hsel; [exact Hl |]. unfold w1. cbn [write_pw set_heap heap].
        rewrite lookup_insert_ne; [exact Hpw' |].
        intros Heq. apply filter_In in Hl as [Hl _].
        apply (Hne l Hl). symmetry. exact Heq.
    + intros l Hl. rewrite Hoth by (intros H; apply Hl; right; exact H).
      unfold w1. cbn [write_pw set_heap heap]. apply lookup_insert_ne.
      intros Heq. apply Hl. left. exact Heq.
Qed.

(** X15: [flushInmemoryParts] collects, in the order of the small list,
    exactly the in-memory parts that are not being merged and are at least
    [inmemoryPartsFlushInterval] old (all of them when forced); it never
    takes a file part or a part that is being merged. It marks each part it
    takes as in merge, changes no other handle, and hands the given parts
    followed by the collected ones to [mergePartsOptimal]. *)
Theorem flushInmemoryParts_collects_due_parts
    (dstPws : list ptr) (force : bool) (w : world) :
  NoDup (smallParts (pt w)) ->
  (forall l, In l (smallParts (pt w)) -> is_Some (heap w !! l)) ->
  exists w1,
    collect_aged force (clock w) (smallParts (pt w)) dstPws w
    = Ret (dstPws ++ List.filter (due force (clock w) w) (smallParts (pt w)), w1)
    /\ pt w1 = pt w
    /\ (forall l,
          In l (List.filter (due force (clock w) w) (smallParts (pt w))) <->
          In l (smallParts (pt w))
          /\ exists pw m,
               heap w !! l = Some pw /\ mp pw = Some m /\ isInMerge pw = false
               /\ (force = true
                   \/ inmemoryPartsFlushInterval <= clock w - creationTime m))
    /\ (forall l pw,
          In l (List.filter (due force (clock w) w) (smallParts (pt w))) ->
          heap w !! l = Some pw -> heap w1 !! l = Some (set_isInMerge true pw))
    /\ (forall l,
          ~ In l (List.filter (due force (clock w) w) (smallParts (pt w))) ->
          heap w1 !! l = heap w !! l)
    /\ flushInmemoryParts dstPws force w
       = (r <-- mergePartsOptimal
                  (dstPws ++ List.filter (due force (clock w) w) (smallParts (pt w))) w1 ;;
          let '(w2, err) := r in
          if is_error err
          then Ret (dstPws ++ List.filter (due force (clock w) w) (smallParts (pt w)),
                    w2, Some (errOther "cannot merge inmemory parts"))
          else Ret (dstPws ++ List.filter (due force (clock w) w) (smallParts (pt w)),
                    w2, None)).
Proof.
  intros Hnd Hall.
  destruct (collect_aged_due force (clock w) (smallParts (pt w)) dstPws w Hnd Hall)
    as (w1 & Hc & Hpt & Hsel & Hoth).
  exists w1. split; [exact Hc |]. split; [exact Hpt |]. split; [| split; [exact Hsel |]].
  - intros l. rewrite filter_In. unfold due. split.
    + intros [Hin Hd]. split; [exact Hin |].
      destruct (heap w !! l) as [pw|]; [| discriminate].
      destruct (mp pw) as [m|] eqn:Hmp; [| discriminate].
      apply andb_true_iff in Hd as [Hf Hage]. apply negb_true_iff in Hf.
      exists pw, m. repeat split; auto.
      apply orb_true_iff in Hage as [Hforce | Hage]; [left; exact Hforce |].
      right. apply Z.geb_le in Hage. exact Hage.
    + intros [Hin (pw & m & Hpw & Hmp & Hf & Hage)]. split; [exact Hin |].
      rewrite Hpw, Hmp, Hf. cbn [negb andb].
      destruct Hage as [-> | Hage]; [reflexivity |].
      apply orb_true_iff. right. apply Z.geb_le. exact Hage.
  - split; [exact Hoth |].
    unfold flushInmemoryParts. rewrite Hc. reflexivity.
Qed.

End FlushInmemory.

(** ** What a batch of merges leaves in the part lists *)

Section MergeBatches.
Context {E : Env}.

(** The handles of both part lists. *)
Definition listed_parts (w : world) : list ptr :=
  smallParts (pt w) ++ bigParts (pt w).

(** What a merge that returned [nil] did to the part lists: every input
    is readable before it and out of both lists after it, every other
    handle keeps its list, whatever else a list holds had no handle before,
    and no handle disappears. *)
Definition lists_replaced (pws : list ptr) (w w' : world) : Prop :=
  dom (heap w) ⊆ dom (heap w')
  /\ (forall l, In l pws -> ~ In l (listed_parts w'))
  /\ (forall l, In l (smallParts (pt w)) -> ~ In l pws -> In l (smallParts (pt w')))
  /\ (forall l, In l (bigParts (pt w)) -> ~ In l pws -> In l (bigParts (pt w')))
  /\ (forall l, In l (smallParts (pt w')) ->
        In l (smallParts (pt w)) \/ heap w !! l = None)
  /\ (forall l, In l (bigParts (pt w')) ->
        In l (bigParts (pt w)) \/ heap w !! l = None).

Lemma removeParts_In l (m : gset ptr) x :
  In x (fst (removeParts l m)) <-> In x l /\ x ∉ m.
Proof.
  destruct (removeParts_filter l m) as [-> _]. rewrite filter_In.
  rewrite negb_true_iff, bool_decide_eq_false. reflexivity.
Qed.

Lemma commit_merge_lists pws g w w' :
  commit_merge pws g w = Ret (w', None) ->
  exists news,
    (forall l, In l news -> heap w !! l = None)
    /\ smallParts (pt w')
       = fst (removeParts (smallParts (pt w)) (list_to_set pws))
         ++ (if mg_isBigPart g then [] else news)
    /\ bigParts (pt w')
       = fst (removeParts (bigParts (pt w)) (list_to_set pws))
         ++ (if mg_isBigPart g then news else [])
    /\ dom (heap w) ⊆ dom (heap w').
Proof.
  intros H. unfold commit_merge in H.
  destruct (fs_WriteFile _ _ _) as [d3 e3].
  destruct e3; cbn [is_error] in H; [discriminate |].
  destruct (runTransaction _ _ _ _) as [d4 e4].
  destruct e4; cbn [is_error] in H; [discriminate |].
  destruct (0 <? _)%nat.
  - destruct (openFilePart _ _) as [q0 | e5]; [| discriminate].
    apply obind_Ret in H as (w3 & Hi & Hx). inversion Hx; subst w3. clear Hx.
    apply install_inv in Hi as (_ & _ & Hd). cbn zeta in Hd.
    pose proof (decRef_all_pt _ _ _ Hd) as Hpt.
    pose proof (decRef_all_dom _ _ _ Hd) as Hdom.
    set (l := new_ptr (set_disk d4 (set_disk d3 w))) in *.
    exists [l]. split; [| split; [| split]].
    + intros x [<- | []]. exact (new_ptr_fresh (set_disk d4 (set_disk d3 w))).
    + rewrite Hpt. destruct (mg_isBigPart g); reflexivity.
    + rewrite Hpt. destruct (mg_isBigPart g); reflexivity.
    + rewrite Hdom. cbn. rewrite dom_insert. apply union_subseteq_r.
  - apply obind_Ret in H as (w3 & Hi & Hx). inversion Hx; subst w3. clear Hx.
    apply install_inv in Hi as (_ & _ & Hd). cbn zeta in Hd.
    pose proof (decRef_all_pt _ _ _ Hd) as Hpt.
    pose proof (decRef_all_dom _ _ _ Hd) as Hdom.
    exists []. split; [| split; [| split]].
    + intros x [].
    + rewrite Hpt. destruct (mg_isBigPart g); reflexivity.
    + rewrite Hpt. destruct (mg_isBigPart g); reflexivity.
    + rewrite Hdom. reflexivity.
Qed.

Lemma mergeParts_lists_replaced pws stop w w' :
  mergeParts pws stop w = Ret (w', None) -> lists_replaced pws w w'.
Proof.
  intros H. apply mergeParts_success in H as (w1 & g & w2 & Hs & Hc & Hcl).
  assert (Hread : forall l, In l pws -> is_Some (heap w !! l)).
  { unfold stream_merge in Hs. apply obind_Ret in Hs as (srcs & Hr & _).
    intros l Hl. exact (read_all_In _ _ _ _ Hr Hl). }
  apply stream_merge_frame in Hs as (Hh1 & Hs1 & Hb1 & _).
  apply commit_merge_lists in Hc as (news & Hnew & Hs2 & Hb2 & Hdom2).
  pose proof (clear_isInMerge_pt _ _ _ Hcl) as Hpt3.
  pose proof (clear_isInMerge_dom _ _ _ Hcl) as Hdom3.
  rewrite Hh1 in Hnew, Hdom2. rewrite Hs1 in Hs2. rewrite Hb1 in Hb2.
  assert (Hnews : forall l, In l pws -> ~ In l news).
  { intros l Hl Hn. destruct (Hread l Hl) as [pw Hpw].
    rewrite (Hnew l Hn) in Hpw. discriminate. }
  assert (Hm : forall l, l ∈ (list_to_set pws : gset ptr) <-> In l pws).
  { intros l. rewrite elem_of_list_to_set. apply list_elem_of_In. }
  unfold lists_replaced, listed_parts. rewrite Hpt3, Hs2, Hb2.
  split; [rewrite Hdom3; exact Hdom2 |]. split; [| split; [| split; [| split]]].
  - intros l Hl Hin.
    repeat (apply in_app_or in Hin as [Hin | Hin]).
    + apply removeParts_In in Hin as [_ Hn]. apply Hn, Hm, Hl.
    + destruct (mg_isBigPart g); [destruct Hin | exact (Hnews l Hl Hin)].
    + apply removeParts_In in Hin as [_ Hn]. apply Hn, Hm, Hl.
    + destruct (mg_isBigPart g); [exact (Hnews l Hl Hin) | destruct Hin].
  - intros l Hl Hn. apply in_or_app. left. apply removeParts_In.
    split; [exact Hl |]. rewrite Hm. exact Hn.
  - intros l Hl Hn. apply in_or_app. left. apply removeParts_In.
    split; [exact Hl |]. rewrite Hm. exact Hn.
  - intros l Hin. apply in_app_or in Hin as [Hin | Hin].
    + left. apply removeParts_In in Hin as [Hin _]. exact Hin.
    + right. destruct (mg_isBigPart g); [destruct Hin | exact (Hnew l Hin)].
  - intros l Hin. apply in_app_or in Hin as [Hin | Hin].
    + left. apply removeParts_In in Hin as [Hin _]. exact Hin.
    + right. destruct (mg_isBigPart g); [exact (Hnew l Hin) | destruct Hin].
Qed.

Lemma lists_replaced_nil w : lists_replaced [] w w.
Proof.
  unfold lists_replaced. split; [reflexivity |].
  split; [intros l [] |]. repeat split; auto.
Qed.

Lemma lists_replaced_app a b w w1 w2 :
  (forall l, In l a -> is_Some (heap w !! l)) ->
  lists_replaced a w w1 -> lists_replaced b w1 w2 ->
  lists_replaced (a ++ b) w w2.
Proof.
  intros Hread (Hd1 & Ho1 & Hs1 & Hb1 & Hns1 & Hnb1) (Hd2 & Ho2 & Hs2 & Hb2 & Hns2 & Hnb2).
  assert (Hnone : forall l, heap w1 !! l = None -> heap w !! l = None).
  { intros l Hl. apply not_elem_of_dom. apply not_elem_of_dom in Hl.
    intros Hin. apply Hl, Hd1, Hin. }
  unfold lists_replaced. split; [etransitivity; eassumption |].
  split; [| split; [| split; [| split]]].
  - intros l Hl Hin. apply in_app_or in Hl as [Hl | Hl]; [| exact (Ho2 l Hl Hin)].
    assert (Hw1 : is_Some (heap w1 !! l)).
    { apply elem_of_dom, Hd1, elem_of_dom, Hread, Hl. }
    unfold listed_parts in Hin. apply in_app_or in Hin as [Hin | Hin].
    + destruct (Hns2 l Hin) as [Hin1 | Hn].
      * apply (Ho1 l Hl). apply in_or_app. left. exact Hin1.
      * rewrite Hn in Hw1. destruct Hw1 as [? Hw1]. discriminate.
    + destruct (Hnb2 l Hin) as [Hin1 | Hn].
      * apply (Ho1 l Hl). apply in_or_app. right. exact Hin1.
      * rewrite Hn in Hw1. destruct Hw1 as [? Hw1]. discriminate.
  - intros l Hl Hn. apply Hs2; [apply Hs1; [exact Hl |] |];
      intros Hin; apply Hn, in_or_app; auto.
  - intros l Hl Hn. apply Hb2; [apply Hb1; [exact Hl |] |];
      intros Hin; apply Hn, in_or_app; auto.
  - intros l Hin. destruct (Hns2 l Hin) as [Hin1 | Hn]; [apply Hns1, Hin1 |].
    right. apply Hnone, Hn.
  - intros l Hin. destruct (Hnb2 l Hin) as [Hin1 | Hn]; [apply Hnb1, Hin1 |].
    right. apply Hnone, Hn.
Qed.

Lemma mergeParts_reads_inputs pws stop w w' :
  mergeParts pws stop w = Ret (w', None) ->
  forall l, In l pws -> is_Some (heap w !! l).
Proof.
  intros H. apply mergeParts_success in H as (w1 & g & w2 & Hs & _).
  unfold stream_merge in Hs. apply obind_Ret in Hs as (srcs & Hr & _).
  intros l Hl. exact (read_all_In _ _ _ _ Hr Hl).
Qed.

Lemma mergePartsOptimal_loop_lists fuel : forall pws w w',
  mergePartsOptimal_loop fuel pws w = Ret (w', None) -> lists_replaced pws w w'.
Proof.
  induction fuel as [|fuel IH]; intros pws w w' H; cbn [mergePartsOptimal_loop] in H.
  - destruct (_ >? _); [discriminate |].
    destruct (0 <? length pws)%nat eqn:Hlen.
    + apply obind_Ret in H as ([w1 e] & Hm & H).
      destruct e as [e|]; cbn [is_error] in H; inversion H; subst.
      apply mergeParts_lists_replaced in Hm. exact Hm.
    + inversion H; subst. destruct pws; [apply lists_replaced_nil | discriminate].
  - destruct (_ >? _).
    + apply obind_Ret in H as ([w1 e] & Hm & H).
      destruct e as [e|]; cbn [is_error] in H; [discriminate |].
      rewrite <- (firstn_skipn (Z.to_nat defaultPartsToMerge) pws).
      eapply lists_replaced_app.
      * exact (mergeParts_reads_inputs _ _ _ _ Hm).
      * exact (mergeParts_lists_replaced _ _ _ _ Hm).
      * apply IH. exact H.
    + destruct (0 <? length pws)%nat eqn:Hlen.
      * apply obind_Ret in H as ([w1 e] & Hm & H).
        destruct e as [e|]; cbn [is_error] in H; inversion H; subst.
        apply mergeParts_lists_replaced in Hm. exact Hm.
      * inversion H; subst. destruct pws; [apply lists_replaced_nil | discriminate].
Qed.

(** X16: when [mergePartsOptimal] returns [nil], however many merges of
    [defaultPartsToMerge] parts it ran, every given handle is out of both
    part lists, every other handle of a list is still in that list, any
    further handle of a list is a new one (no handle was at its address
    before), and every earlier handle still exists. *)
Theorem mergePartsOptimal_replaces_all_inputs
    (pws : list ptr) (w w' : world) :
  mergePartsOptimal pws w = Ret (w', None) ->
  (forall l, In l pws ->
     ~ In l (smallParts (pt w')) /\ ~ In l (bigParts (pt w')))
  /\ (forall l, ~ In l pws ->
        (In l (smallParts (pt w)) -> In l (smallParts (pt w')))
        /\ (In l (bigParts (pt w)) -> In l (bigParts (pt w'))))
  /\ (forall l, is_Some (heap w !! l) ->
        is_Some (heap w' !! l)
        /\ (In l (smallParts (pt w')) -> In l (smallParts (pt w)))
        /\ (In l (bigParts (pt w')) -> In l (bigParts (pt w)))).
Proof.
  intros H. unfold mergePartsOptimal in H.
  apply mergePartsOptimal_loop_lists in H as (Hd & Ho & Hs & Hb & Hns & Hnb).
  split; [| split].
  - intros l Hl. split; intros Hin; apply (Ho l Hl), in_or_app; auto.
  - intros l Hl. split; intros Hin; [apply Hs | apply Hb]; assumption.
  - intros l [pw Hpw]. split; [| split].
    + apply elem_of_dom, Hd, elem_of_dom. eauto.
    + intros Hin. destruct (Hns l Hin) as [Hold | Hn]; [exact Hold | congruence].
    + intros Hin. destruct (Hnb l Hin) as [Hold | Hn]; [exact Hold | congruence].
Qed.

End MergeBatches.

(** Two in-memory parts of the small list, neither being merged. *)
Definition unmerged_parts_world : @world (refEnv 0) :=
  let w0 := @mkWorld (refEnv 0) (pt sample_world) ∅ [] [] (repeat [] 19) [] 0 [] in
  let w1 := returned (@addRowsPart (refEnv 0) [mkRawRow 1 1 0 64; mkRawRow 1 2 0 64] w0) w0 in
  returned (@addRowsPart (refEnv 0) [mkRawRow 1 3 0 64] w1) w0.

Definition has_handle {E : Env} (w : world) (l : ptr) : bool :=
  match heap w !! l with Some _ => true | None => false end.

Lemma flushInmemoryParts_collects_due_parts_witness :
  exists w1,
    @collect_aged (refEnv 0) true (clock unmerged_parts_world)
      (smallParts (pt unmerged_parts_world)) [] unmerged_parts_world
    = Ret ([] ++ List.filter (due true (clock unmerged_parts_world) unmerged_parts_world)
                   (smallParts (pt unmerged_parts_world)), w1).
Proof.
  assert (Hs : smallParts (pt unmerged_parts_world) = [0; 1]%nat)
    by (vm_compute; reflexivity).
  assert (Hh : forallb (has_handle unmerged_parts_world) [0; 1]%nat = true)
    by (vm_compute; reflexivity).
  destruct (@flushInmemoryParts_collects_due_parts (refEnv 0) [] true
              unmerged_parts_world)
    as (w1 & H & _).
  - rewrite Hs. apply NoDup_ListNoDup. repeat constructor; cbn; intuition discriminate.
  - rewrite Hs. intros l Hl.
    rewrite forallb_forall in Hh. specialize (Hh l Hl). unfold has_handle in Hh.
    destruct (heap unmerged_parts_world !! l); [eauto | discriminate].
  - exists w1. exact H.
Defined.

Lemma mergePartsOptimal_replaces_all_inputs_witness :
  exists w',
    @mergePartsOptimal (refEnv 0) [0; 1]%nat (two_parts_world []) = Ret (w', None)
    /\ ~ In 0%nat (smallParts (pt w')).
Proof.
  assert (Hok : returned_nil
                  (@mergePartsOptimal (refEnv 0) [0; 1]%nat (two_parts_world []))
                = true) by (vm_compute; reflexivity).
  destruct (@mergePartsOptimal (refEnv 0) [0; 1]%nat (two_parts_world []))
    as [[w' [e|]]|msg] eqn:Hm; try discriminate Hok.
  exists w'. split; [reflexivity |].
  destruct (@mergePartsOptimal_replaces_all_inputs (refEnv 0) _ _ _ Hm) as (H & _).
  apply (H 0%nat). left. reflexivity.
Defined.
